(** * The CDP connection multiplexer of the renderer: Connection and CDPSession

    Shallow embedding of [packages/renderer/src/browser/Connection.ts]:
    the [Connection] class, the [CDPSession] class and the two helpers
    [createProtocolError] and [rewriteError].  The cache of AWS service
    clients of the lambda package follows in a part of its own.

    The JavaScript objects are mutable and shared: a [CDPSession] stays
    reachable by whoever received it (through [session], through a
    'sessionattached' listener, through [createSession]) after the
    Connection dropped it from its map.  The embedding therefore keeps the
    session objects in a store addressed by reference, and the Connection's
    [#sessions] map holds references.  Methods are written in a small
    state-and-exception monad over that world; what the code does to the
    outside (transport, promise settlement, listeners) is recorded, in
    order, in the world's trace.

    The outside is taken to be passive: [transport.send] returns, a
    listener called by [emit] returns and does not call back into the
    Connection while the router runs, and the debug output is left out.
    Inbound messages enter as parsed envelopes, whose members have the
    types the protocol declares when they are present; [error.data],
    which the protocol leaves open, is any JSON value. *)

From stdpp Require Import base list strings pretty.
From Stdlib Require Import ZArith Lia Sorted Ascii.

Open Scope Z_scope.

(** ** Values exchanged with the protocol *)

(** A JSON value as [JSON.parse] delivers it.  Numbers are the integral
    ones: [JNum n] is the Number that [JSON.parse] reads from the
    numeral [n], the double nearest to [n].  [undefined] is never a JSON
    value and is modelled by [None] wherever a field may be missing. *)
#[local] Unset Elimination Schemes.
Inductive Json : Type :=
| JNull
| JBool (b : bool)
| JNum (n : Z)
| JStr (s : string)
| JArr (items : list Json)
| JObj (fields : list (string * Json)).
#[local] Set Elimination Schemes.

(** Property read [o.name] on a parsed object; [None] is [undefined]. *)
Fixpoint field (name : string) (fields : list (string * Json)) : option Json :=
  match fields with
  | [] => None
  | (k, v) :: rest => if decide (k = name) then Some v else field name rest
  end.

(** [sub] occurs in [s]. *)
Definition contains (s sub : string) : Prop :=
  ∃ pre post : string, s = pre +:+ sub +:+ post.

(** ** JavaScript [Map]

    A [Map] iterates in insertion order, [set] on a present key keeps the
    key's position and replaces its value, [delete] removes the key.  An
    association list without repeated keys is exactly that. *)
Module JsMap.
Abbreviation t K V := (list (K * V)) (only parsing).

Section JsMap.
Context {K V : Type} `{EqDecision K}.

Definition empty : t K V := [].

Fixpoint get (k : K) (m : t K V) : option V :=
match m with
| [] => None
| (k', v) :: m' => if decide (k = k') then Some v else get k m'
end.

Fixpoint set (k : K) (v : V) (m : t K V) : t K V :=
match m with
| [] => [(k, v)]
| (k', v') :: m' =>
    if decide (k = k') then (k, v) :: m' else (k', v') :: set k v m'
end.

Fixpoint delete (k : K) (m : t K V) : t K V :=
match m with
| [] => []
| (k', v) :: m' =>
    if decide (k = k') then delete k m' else (k', v) :: delete k m'
end.

Definition values (m : t K V) : list V := map snd m.

Definition keys (m : t K V) : list K := map fst m.

Definition clear (m : t K V) : t K V := [].
End JsMap.

(** [m.get(x)] and [m.delete(x)] on a map with number keys, where [x] may
  be [undefined]: no key equals [undefined]. *)
Definition get_number {V : Type} (x : option Z) (m : t Z V) : option V :=
match x with
| Some k => get k m
| None => None
end.

Definition delete_number {V : Type} (x : option Z) (m : t Z V) : t Z V :=
match x with
| Some k => delete k m
| None => m
end.
End JsMap.

(** ** Errors, callbacks, sessions *)

(** [ProtocolError] of [./Errors]: the two fields the code writes. *)
Record ProtocolError : Type := {
  message : string;
  originalMessage : option string
}.

(** What a promise is rejected with, or what a call throws. *)
Inductive JsError : Type :=
| AProtocolError (e : ProtocolError)
| Error (msg : string)
| TypeError.

(** A promise created by [new Promise] is known by its allocation number;
    the [resolve] and [reject] captured in a callback are those of that
    promise. *)
Abbreviation promise := nat (only parsing).

(** [interface ConnectionCallback]. *)
Record ConnectionCallback : Type := {
  cb_promise : promise;
  cb_error : ProtocolError;
  cb_method : string
}.

(** The [#connection?: Connection] field of a session: there is one
    Connection in the world, so the field is either that one or
    [undefined]. *)
Inductive ConnectionRef : Type := this_connection.

(** The private fields of a [CDPSession] object.  [#sessionId] is what the
    attach notification carried in [params.sessionId], [undefined] when
    it carried none. *)
Record CDPSession : Type := {
  s_sessionId : option string;
  s_targetType : string;
  s_callbacks : JsMap.t Z ConnectionCallback;
  s_connection : option ConnectionRef
}.

(** Reference to a session object: its index in the store. *)
Abbreviation ref := nat (only parsing).

(** ** Wire envelopes *)

Record TargetInfo : Type := {
  ti_targetId : string;
  ti_type : string
}.

(** [object.params]: the two members the router reads, and the rest. *)
Record Params : Type := {
  p_sessionId : option string;
  p_targetInfo : option TargetInfo;
  p_rest : list (string * Json)
}.

(** [object.error] of a failure response; ['data' in object.error] is
    [e_data] being present. *)
Record ErrorObject : Type := {
  e_message : string;
  e_data : option Json;
  e_code : Z
}.

(** The parsed inbound message ([object] in the source). *)
Record Envelope : Type := {
  o_id : option Z;
  o_sessionId : option string;
  o_method : option string;
  o_params : option Params;
  o_result : option Json;
  o_error : option ErrorObject
}.

(** The record handed to [_rawSend]; the transport receives it with the
    assigned id added ([{...message, id}]).  A member that is [undefined]
    is dropped by [JSON.stringify], hence the options. *)
Record RawMessage : Type := {
  rm_sessionId : option string;
  rm_method : string;
  rm_params : option Json
}.

(** Truthiness of [object.id] and of [object.sessionId]. *)
Definition truthy_number (n : option Z) : bool :=
  match n with
  | Some z => negb (z =? 0)
  | None => false
  end.

Definition truthy_string (s : option string) : bool :=
  match s with
  | Some str => negb (String.eqb str "")
  | None => false
  end.

(** ** Observable effects *)

Inductive Emitter : Type :=
| OnConnection
| OnSession (r : ref).

Inductive EventType : Type :=
| EventNamed (name : option string)
| ConnectionEmittedEvents_Disconnected
| CDPSessionEmittedEvents_Disconnected.

Inductive EventArg : Type :=
| ArgSession (r : ref)
| ArgParams (p : option Params)
| NoArg.

Inductive Effect : Type :=
| TransportSend (m : RawMessage) (id : Z)
| TransportClose
| Resolve (p : promise) (value : option Json)
| Reject (p : promise) (e : JsError)
| Emit (on : Emitter) (event : EventType) (arg : EventArg).

#[global] Instance Emitter_eq_dec : EqDecision Emitter.
Proof. solve_decision. Defined.

(** ** The world: one Connection, its transport hooks, the session store *)

(** The private fields of the Connection ([#lastId], [#sessions],
    [#closed], [#callbacks]; [#url] plays no part), whether its two
    hooks are installed on the transport, the session objects created so
    far, the number of promises created so far, and everything done to
    the outside so far.  [#lastId] is a JavaScript number that only ever
    holds 0, 1, 2, ...; it is modelled by an integer, which is exact
    while fewer than 2^53 requests have been sent. *)
Record World : Type := {
  lastId : Z;
  sessions : JsMap.t (option string) ref;
  closed : bool;
  callbacks : JsMap.t Z ConnectionCallback;
  onmessage : bool;
  onclose : bool;
  store : list CDPSession;
  promises : nat;
  trace : list Effect
}.

Definition set_lastId (v : Z) (w : World) : World :=
  {| lastId := v; sessions := sessions w; closed := closed w;
     callbacks := callbacks w; onmessage := onmessage w; onclose := onclose w;
     store := store w; promises := promises w; trace := trace w |}.

Definition set_sessions (v : JsMap.t (option string) ref) (w : World) : World :=
  {| lastId := lastId w; sessions := v; closed := closed w;
     callbacks := callbacks w; onmessage := onmessage w; onclose := onclose w;
     store := store w; promises := promises w; trace := trace w |}.

Definition set_closed (v : bool) (w : World) : World :=
  {| lastId := lastId w; sessions := sessions w; closed := v;
     callbacks := callbacks w; onmessage := onmessage w; onclose := onclose w;
     store := store w; promises := promises w; trace := trace w |}.

Definition set_callbacks (v : JsMap.t Z ConnectionCallback) (w : World) : World :=
  {| lastId := lastId w; sessions := sessions w; closed := closed w;
     callbacks := v; onmessage := onmessage w; onclose := onclose w;
     store := store w; promises := promises w; trace := trace w |}.

Definition set_hooks (v : bool) (w : World) : World :=
  {| lastId := lastId w; sessions := sessions w; closed := closed w;
     callbacks := callbacks w; onmessage := v; onclose := v;
     store := store w; promises := promises w; trace := trace w |}.

Definition set_store (v : list CDPSession) (w : World) : World :=
  {| lastId := lastId w; sessions := sessions w; closed := closed w;
     callbacks := callbacks w; onmessage := onmessage w; onclose := onclose w;
     store := v; promises := promises w; trace := trace w |}.

Definition set_promises (v : nat) (w : World) : World :=
  {| lastId := lastId w; sessions := sessions w; closed := closed w;
     callbacks := callbacks w; onmessage := onmessage w; onclose := onclose w;
     store := store w; promises := v; trace := trace w |}.

Definition set_trace (v : list Effect) (w : World) : World :=
  {| lastId := lastId w; sessions := sessions w; closed := closed w;
     callbacks := callbacks w; onmessage := onmessage w; onclose := onclose w;
     store := store w; promises := promises w; trace := v |}.

(** The world right after [new Connection(url, transport)]: counter at 0,
    both maps empty, not closed, both transport hooks installed. *)
Definition new_Connection : World :=
  {| lastId := 0; sessions := JsMap.empty; closed := false;
     callbacks := JsMap.empty; onmessage := true; onclose := true;
     store := []; promises := 0%nat; trace := [] |}.

(** ** The monad of method bodies: state, and [throw] *)

Inductive Completion (A : Type) : Type :=
| Normal (a : A)
| Throw (e : JsError).
Arguments Normal {A} a.
Arguments Throw {A} e.

Definition JS (A : Type) : Type := World → World * Completion A.

#[global] Instance JS_ret : MRet JS := λ A a w, (w, Normal a).

#[global] Instance JS_bind : MBind JS := λ A B k m w,
  match m w with
  | (w', Normal a) => k a w'
  | (w', Throw e) => (w', Throw e)
  end.

Definition throw {A : Type} (e : JsError) : JS A := λ w, (w, Throw e).

Definition world : JS World := λ w, (w, Normal w).

Definition modify (f : World → World) : JS unit := λ w, (f w, Normal tt).

(** Append one effect to the trace. *)
Definition perform (e : Effect) : JS unit :=
  modify (λ w, set_trace (trace w ++ [e]) w).

(** [new Promise(...)]: allocate the next promise. *)
Definition new_Promise : JS promise :=
  λ w, (set_promises (S (promises w)) w, Normal (promises w)).

(** Reading a member of something that is [undefined] throws. *)
Definition member {A : Type} (o : option A) : JS A :=
  match o with
  | Some a => mret a
  | None => throw TypeError
  end.

(** [for (const x of xs) body(x)]. *)
Fixpoint for_of {A : Type} (xs : list A) (body : A → JS unit) : JS unit :=
  match xs with
  | [] => mret tt
  | x :: rest => body x ;; for_of rest body
  end.

(** Running an expression that has no effect on the world but may
    throw. *)
Definition evaluate {A : Type} (c : Completion A) : JS A := λ w, (w, c).

#[global] Instance Completion_ret : MRet Completion := λ A a, Normal a.

#[global] Instance Completion_bind : MBind Completion := λ A B k c,
  match c with
  | Normal a => k a
  | Throw e => Throw e
  end.

(** What a [send] hands back: a promise created by [new Promise], or the
    already rejected promise of [Promise.reject]. *)
Inductive SendResult : Type :=
| Pending (p : promise)
| Promise_reject (e : JsError).

(** ** The string conversion of a template literal

    [`${v}`] applies [ToString] to [v].  For a Number that is
    [Number::toString]: with [k] digits [s] as few as identify the
    Number and [n] the position of the decimal point, the digits
    followed by [n - k] zeros while [n <= 21], the exponent form
    beyond; an integral Number never has [n < k]. *)

(** The Number nearest to the non-negative integer [c], ties to the even
    significand of 53 bits. *)
Definition nearest_Number (c : Z) : Z :=
  let excess := Z.log2 c + 1 - 53 in
  if excess <=? 0 then c
  else
    let q := Z.shiftr c excess in
    let r := c - Z.shiftl q excess in
    let half := Z.shiftl 1 (excess - 1) in
    Z.shiftl (if (half <? r) || ((r =? half) && Z.odd q) then q + 1 else q)
      excess.

(** The least [k], from [k] on, for which some [s] of [k] digits has
    [s * 10^(D - k)] read back as the Number [x] of [D] digits, with the
    [s] nearest to [x] (the even one of two); the result is [s] and the
    power of ten.  Seventeen digits identify every Number. *)
Fixpoint shortest (fuel : nat) (x D k : Z) : Z * Z :=
  match fuel with
  | O => (x, 0)
  | S fuel =>
      let j := D - k in
      if j <=? 0 then (x, 0)
      else
        let p := 10 ^ j in
        let lo := x / p in
        let hi := lo + 1 in
        let lo_fits := nearest_Number (lo * p) =? x in
        let hi_fits := nearest_Number (hi * p) =? x in
        let below := x - lo * p in
        let above := hi * p - x in
        if lo_fits && hi_fits then
          (if (below <? above) || ((below =? above) && Z.even lo)
           then lo else hi, j)
        else if lo_fits then (lo, j)
        else if hi_fits then (hi, j)
        else shortest fuel x D (k + 1)
  end.

(** [s * 10^j] with the zeros at the end of [s] moved into the power. *)
Fixpoint strip (fuel : nat) (s j : Z) : Z * Z :=
  match fuel with
  | O => (s, j)
  | S fuel => if s mod 10 =? 0 then strip fuel (s / 10) (j + 1) else (s, j)
  end.

Definition zeros (n : Z) : string :=
  String.concat "" (replicate (Z.to_nat n) "0").

(** [Number::toString] of the Number read from the numeral [v]; a
    numeral beyond the largest double reads as an infinity. *)
Definition Number_toString (v : Z) : string :=
  if v =? 0 then "0"
  else
    let sign := if v <? 0 then "-" else "" in
    let x := nearest_Number (Z.abs v) in
    if 2 ^ 1024 <=? x then sign +:+ "Infinity"
    else
      let D := Z.of_nat (String.length (pretty x)) in
      let '(s, j) := shortest 17 x D 1 in
      let '(s, j) := strip (Z.to_nat D) s j in
      let k := Z.of_nat (String.length (pretty s)) in
      let n := k + j in
      if n <=? 21 then sign +:+ pretty s +:+ zeros j
      else
        match pretty s with
        | String d rest =>
            sign +:+ String d (if decide (rest = "") then "" else "." +:+ rest)
            +:+ "e+" +:+ pretty (n - 1)
        | EmptyString => ""
        end.

(** [OrdinaryToPrimitive] with hint string on a parsed object.  An own
    member named toString is a JSON value and never callable; valueOf is
    tried next and yields no primitive either, being an own member or
    the inherited method, which returns the object itself: a TypeError.
    Without such a member the inherited [Object.prototype.toString]
    answers. *)
Definition OrdinaryToPrimitive (fields : list (string * Json))
    : Completion string :=
  match field "toString" fields with
  | Some _ => Throw TypeError
  | None => Normal "[object Object]"
  end.

(** The loop of [Array.prototype.join] with the separator ",", from
    element [k] on and with [R] joined so far: a [null] element adds the
    empty string, another one its conversion, which may throw. *)
Section Join.
Variable convert : Json → Completion string.

Fixpoint join (R : string) (k : nat) (items : list Json) : Completion string :=
  match items with
  | [] => Normal R
  | element :: rest =>
      let R := if k is O then R else R +:+ "," in
      match match element with
            | JNull => Normal ""
            | _ => convert element
            end with
      | Normal next => join (R +:+ next) (S k) rest
      | Throw e => Throw e
      end
  end.
End Join.

(** [ToString]: an array answers through [Array.prototype.toString],
    which joins its elements; an object goes through
    [OrdinaryToPrimitive]. *)
Fixpoint ToString (j : Json) : Completion string :=
  match j with
  | JNull => Normal "null"
  | JBool b => Normal (if b then "true" else "false")
  | JNum n => Normal (Number_toString n)
  | JStr s => Normal s
  | JArr items => join ToString "" O items
  | JObj fields => OrdinaryToPrimitive fields
  end.

(** ** The two error helpers at the end of the file *)

Definition rewriteError (error : ProtocolError) (msg : string)
    (original : option string) : ProtocolError :=
  {| message := msg;
     originalMessage :=
       match original with
       | Some m => Some m
       | None => originalMessage error
       end |}.

Definition createProtocolError (error : ProtocolError) (method : string)
    (object_error : ErrorObject) : Completion ProtocolError :=
  let msg := "Protocol error (" +:+ method +:+ "): " +:+ e_message object_error in
  msg ←
    match e_data object_error with
    | Some data => text ← ToString data; mret (msg +:+ " " +:+ text)
    | None => mret msg
    end;
  mret (rewriteError error msg (Some (e_message object_error))).

(** The rejection both closure routines build for a pending call. *)
Definition target_closed (callback : ConnectionCallback) : JsError :=
  AProtocolError
    (rewriteError (cb_error callback)
       ("Protocol error (" +:+ cb_method callback +:+ "): Target closed.")
       None).

(** ** Small steps shared by the methods *)

Definition emit (on : Emitter) (event : EventType) (arg : EventArg) : JS unit :=
  perform (Emit on event arg).

(** [callback.resolve(v)] and [callback.reject(e)]. *)
Definition resolve (callback : ConnectionCallback) (v : option Json) : JS unit :=
  perform (Resolve (cb_promise callback) v).

Definition reject (callback : ConnectionCallback) (e : JsError) : JS unit :=
  perform (Reject (cb_promise callback) e).

(** The session object behind a reference. *)
Definition this_session (this : ref) : JS CDPSession :=
  w ← world; member (store w !! this).

Definition set_s_callbacks (v : JsMap.t Z ConnectionCallback) (s : CDPSession)
    : CDPSession :=
  {| s_sessionId := s_sessionId s; s_targetType := s_targetType s;
     s_callbacks := v; s_connection := s_connection s |}.

Definition set_s_connection (v : option ConnectionRef) (s : CDPSession)
    : CDPSession :=
  {| s_sessionId := s_sessionId s; s_targetType := s_targetType s;
     s_callbacks := s_callbacks s; s_connection := v |}.

(** Assignment to a private field of the session object [this]. *)
Definition update_session (this : ref) (f : CDPSession → CDPSession) : JS unit :=
  modify (λ w, set_store (alter f this (store w)) w).

(** [new CDPSession(this, targetType, sessionId)]. *)
Definition new_CDPSession (targetType : string) (sessionId : option string)
    : JS ref :=
  λ w,
    (set_store
       (store w ++ [ {| s_sessionId := sessionId; s_targetType := targetType;
                        s_callbacks := JsMap.empty;
                        s_connection := Some this_connection |} ]) w,
     Normal (length (store w))).

(** ** What the file imports

    Two collaborators live in sibling modules: [assert] of [./assert]
    and the class [ProtocolError] of [./Errors].  The methods take them
    as parameters: [assert value] is [None] when the call returns and
    [Some e] when it throws [e]; [new_ProtocolError] is the object that
    [new ProtocolError()] yields. *)
Class Imports : Type := {
  assert : bool → option JsError;
  new_ProtocolError : ProtocolError
}.

(** An assertion helper that throws an [Error] when its argument is falsy
    and returns otherwise, and an error object with an empty message:
    the instance used in the examples. *)
Definition throwing_assert (value : bool) : option JsError :=
  if value then None else Some (Error "").

Definition blank_ProtocolError : ProtocolError :=
  {| message := ""; originalMessage := None |}.

Definition stock : Imports :=
  {| assert := throwing_assert; new_ProtocolError := blank_ProtocolError |}.

(** ** The methods of Connection and CDPSession *)

Section Methods.
Context {imports : Imports}.

(** [assert(value)] *)
Definition call_assert (value : bool) : JS unit :=
  match assert value with
  | None => mret tt
  | Some e => throw e
  end.

(** [Connection._rawSend] *)
Definition Connection_rawSend (msg : RawMessage) : JS Z :=
  w ← world;
  let id := lastId w + 1 in
  modify (set_lastId id) ;;
  perform (TransportSend msg id) ;;
  mret id.

(** [Connection.send] *)
Definition Connection_send (method : string) (params : option Json)
    : JS promise :=
  id ← Connection_rawSend
         {| rm_sessionId := None; rm_method := method; rm_params := params |};
  p ← new_Promise;
  modify (λ w,
    set_callbacks
      (JsMap.set id
         {| cb_promise := p; cb_error := new_ProtocolError;
            cb_method := method |}
         (callbacks w)) w) ;;
  mret p.

(** [Connection.session] *)
Definition Connection_session (sessionId : string) (w : World) : option ref :=
  JsMap.get (Some sessionId) (sessions w).

(** [CDPSession.send] *)
Definition CDPSession_send (this : ref) (method : string)
    (params : option Json) : JS SendResult :=
  s ← this_session this;
  match s_connection s with
  | None =>
      mret (Promise_reject
              (Error ("Protocol error (" +:+ method
                      +:+ "): Session closed. Most likely the "
                      +:+ s_targetType s +:+ " has been closed.")))
  | Some this_connection =>
      id ← Connection_rawSend
             {| rm_sessionId := s_sessionId s; rm_method := method;
                rm_params := params |};
      p ← new_Promise;
      update_session this (λ s',
        set_s_callbacks
          (JsMap.set id
             {| cb_promise := p; cb_error := new_ProtocolError;
                cb_method := method |}
             (s_callbacks s')) s') ;;
      mret (Pending p)
  end.

(** [CDPSession._onMessage] *)
Definition CDPSession_onMessage (this : ref) (object : Envelope) : JS unit :=
  s ← this_session this;
  let callback :=
    if truthy_number (o_id object)
    then JsMap.get_number (o_id object) (s_callbacks s)
    else None in
  match truthy_number (o_id object), callback with
  | true, Some callback =>
      update_session this (λ s',
        set_s_callbacks (JsMap.delete_number (o_id object) (s_callbacks s')) s') ;;
      match o_error object with
      | Some object_error =>
          error ← evaluate (createProtocolError (cb_error callback)
                              (cb_method callback) object_error);
          reject callback (AProtocolError error)
      | None => resolve callback (o_result object)
      end
  | _, _ =>
      call_assert (negb (truthy_number (o_id object))) ;;
      emit (OnSession this) (EventNamed (o_method object))
        (ArgParams (o_params object))
  end.

(** [CDPSession._onClosed] *)
Definition CDPSession_onClosed (this : ref) : JS unit :=
  s ← this_session this;
  for_of (JsMap.values (s_callbacks s))
    (λ callback, reject callback (target_closed callback)) ;;
  update_session this (λ s', set_s_callbacks (JsMap.clear (s_callbacks s')) s') ;;
  update_session this (set_s_connection None) ;;
  emit (OnSession this) CDPSessionEmittedEvents_Disconnected NoArg.

(** [CDPSession.detach].  The method is [async]: a [Throw] is the
    rejection of the promise it hands back, which otherwise follows the
    promise of the command it sends. *)
Definition CDPSession_detach (this : ref) : JS promise :=
  s ← this_session this;
  match s_connection s with
  | None =>
      throw (Error ("Session already detached. Most likely the "
                    +:+ s_targetType s +:+ " has been closed."))
  | Some this_connection =>
      Connection_send "Target.detachFromTarget"
        (Some (JObj match s_sessionId s with
                    | Some sid => [("sessionId", JStr sid)]
                    | None => []
                    end))
  end.

(** [Connection.#onMessage], from the parsed [object] on.  The method is
    [async] and never awaits: it runs to its end when called, and a
    [Throw] is the rejection of the promise it hands to the transport. *)
Definition Connection_onMessage (object : Envelope) : JS unit :=
  (if decide (o_method object = Some "Target.attachedToTarget") then
     params ← member (o_params object);
     let sessionId := p_sessionId params in
     targetInfo ← member (p_targetInfo params);
     session ← new_CDPSession (ti_type targetInfo) sessionId;
     modify (λ w, set_sessions (JsMap.set sessionId session (sessions w)) w) ;;
     emit OnConnection (EventNamed (Some "sessionattached")) (ArgSession session) ;;
     w ← world;
     match JsMap.get (o_sessionId object) (sessions w) with
     | Some parentSession =>
         emit (OnSession parentSession) (EventNamed (Some "sessionattached"))
           (ArgSession session)
     | None => mret tt
     end
   else if decide (o_method object = Some "Target.detachedFromTarget") then
     params ← member (o_params object);
     w ← world;
     match JsMap.get (p_sessionId params) (sessions w) with
     | Some session =>
         CDPSession_onClosed session ;;
         modify (λ w, set_sessions (JsMap.delete (p_sessionId params) (sessions w)) w) ;;
         emit OnConnection (EventNamed (Some "sessiondetached")) (ArgSession session) ;;
         w' ← world;
         match JsMap.get (o_sessionId object) (sessions w') with
         | Some parentSession =>
             emit (OnSession parentSession) (EventNamed (Some "sessiondetached"))
               (ArgSession session)
         | None => mret tt
         end
     | None => mret tt
     end
   else mret tt) ;;
  if truthy_string (o_sessionId object) then
    w ← world;
    match JsMap.get (o_sessionId object) (sessions w) with
    | Some session => CDPSession_onMessage session object
    | None => mret tt
    end
  else if truthy_number (o_id object) then
    w ← world;
    match JsMap.get_number (o_id object) (callbacks w) with
    | Some callback =>
        modify (λ w, set_callbacks (JsMap.delete_number (o_id object) (callbacks w)) w) ;;
        match o_error object with
        | Some object_error =>
            error ← evaluate (createProtocolError (cb_error callback)
                                (cb_method callback) object_error);
            reject callback (AProtocolError error)
        | None => resolve callback (o_result object)
        end
    | None => mret tt
    end
  else
    emit OnConnection (EventNamed (o_method object)) (ArgParams (o_params object)).

(** [Connection.#onClose] *)
Definition Connection_onClose : JS unit :=
  w ← world;
  if closed w then mret tt
  else
    modify (set_closed true) ;;
    modify (set_hooks false) ;;
    w1 ← world;
    for_of (JsMap.values (callbacks w1))
      (λ callback, reject callback (target_closed callback)) ;;
    modify (λ w, set_callbacks (JsMap.clear (callbacks w)) w) ;;
    w2 ← world;
    for_of (JsMap.values (sessions w2)) CDPSession_onClosed ;;
    modify (λ w, set_sessions (JsMap.clear (sessions w)) w) ;;
    emit OnConnection ConnectionEmittedEvents_Disconnected NoArg.

(** [Connection.dispose] *)
Definition Connection_dispose : JS unit :=
  Connection_onClose ;;
  perform TransportClose.

(** [Connection.createSession] up to its [await]: the attach command. *)
Definition Connection_createSession (targetInfo : TargetInfo) : JS promise :=
  Connection_send "Target.attachToTarget"
    (Some (JObj [("targetId", JStr (ti_targetId targetInfo));
                 ("flatten", JBool true)])).

(** [m.get(v)] on the session map for a value taken out of a result:
    the keys are strings or [undefined]. *)
Definition get_session_by (v : option Json) (w : World) : option ref :=
  match v with
  | None => JsMap.get None (sessions w)
  | Some (JStr s) => JsMap.get (Some s) (sessions w)
  | Some _ => None
  end.

(** [Connection.createSession] after its [await], entered with what the
    awaited promise settled to: a rejection is rethrown; destructuring
    [{sessionId}] out of [undefined] or [null] throws. *)
Definition Connection_createSession_resume
    (settled : Completion (option Json)) : JS ref :=
  match settled with
  | Throw e => throw e
  | Normal result =>
      sessionId ←
        match result with
        | None | Some JNull => throw TypeError
        | Some (JObj fields) => mret (field "sessionId" fields)
        | Some _ => mret None
        end;
      w ← world;
      match get_session_by sessionId w with
      | Some session => mret session
      | None => throw (Error "CDPSession creation failed.")
      end
  end.

(** ** The environment: callers and the transport *)

(** What the outside can do: call a public method of the Connection or
    of a session object it holds, or, as the transport, deliver a
    message or report that the channel has closed.  [createSession]
    stands for its part up to the [await]; the rest reads the world and
    does not change it. *)
Inductive Action : Type :=
| Call_send (method : string) (params : option Json)
| Call_session_send (this : ref) (method : string) (params : option Json)
| Call_session_detach (this : ref)
| Call_createSession (targetInfo : TargetInfo)
| Call_dispose
| Transport_message (object : Envelope)
| Transport_closed.

(** One action on the world.  The transport calls a hook only while the
    hook is installed. *)
Definition step (w : World) (a : Action) : World :=
  match a with
  | Call_send method params => (Connection_send method params w).1
  | Call_session_send this method params => (CDPSession_send this method params w).1
  | Call_session_detach this => (CDPSession_detach this w).1
  | Call_createSession targetInfo => (Connection_createSession targetInfo w).1
  | Call_dispose => (Connection_dispose w).1
  | Transport_message object =>
      if onmessage w then (Connection_onMessage object w).1 else w
  | Transport_closed =>
      if onclose w then (Connection_onClose w).1 else w
  end.

(** A sequence of actions, first to last. *)
Definition run (w : World) (actions : list Action) : World :=
  foldl step w actions.

(** The ids handed to the transport, in the order of the trace. *)
Definition sent_ids (effects : list Effect) : list Z :=
  omap (λ e, match e with TransportSend _ id => Some id | _ => None end) effects.

End Methods.

(** ** The accessors of the two classes *)

(** The getter [Connection._closed] *)
Definition Connection_closed : JS bool :=
  w ← world; mret (closed w).

(** [CDPSession.connection] *)
Definition CDPSession_connection (this : ref) : JS (option ConnectionRef) :=
  s ← this_session this; mret (s_connection s).

(** [CDPSession.id] *)
Definition CDPSession_id (this : ref) : JS (option string) :=
  s ← this_session this; mret (s_sessionId s).

(** The static [Connection.fromSession] *)
Definition Connection_fromSession (session : ref) : JS (option ConnectionRef) :=
  CDPSession_connection session.

(** ** Envelopes and worlds used in the examples *)

Definition response (id : Z) (result : option Json) (error : option ErrorObject)
    : Envelope :=
  {| o_id := Some id; o_sessionId := None; o_method := None; o_params := None;
     o_result := result; o_error := error |}.

Definition attachedToTarget (id : option Z) (outer : option string)
    (sessionId type : string) : Envelope :=
  {| o_id := id; o_sessionId := outer;
     o_method := Some "Target.attachedToTarget";
     o_params :=
       Some {| p_sessionId := Some sessionId;
               p_targetInfo := Some {| ti_targetId := "T1"; ti_type := type |};
               p_rest := [] |};
     o_result := None; o_error := None |}.

Definition detachedFromTarget (id : option Z) (outer : option string)
    (sessionId : string) : Envelope :=
  {| o_id := id; o_sessionId := outer;
     o_method := Some "Target.detachedFromTarget";
     o_params :=
       Some {| p_sessionId := Some sessionId; p_targetInfo := None;
               p_rest := [] |};
     o_result := None; o_error := None |}.

(** One call pending on the Connection (id 1) and one on session "S1"
    (id 2). *)
Definition two_pending : list Action :=
  [ Call_send "Foo.bar" None;
    Transport_message (attachedToTarget None None "S1" "page");
    Call_session_send 0%nat "Page.enable" None ].

Definition world_two_pending : World :=
  run (imports := stock) new_Connection two_pending.

(** Nine calls pending on the Connection, the ninth for "Foo.bar". *)
Definition world_nine_sent : World :=
  run (imports := stock) new_Connection
    (replicate 8 (Call_send "Page.reload" None) ++ [Call_send "Foo.bar" None]).

(** Session "S1" attached and detached again. *)
Definition world_detached : World :=
  run (imports := stock) new_Connection
    [ Transport_message (attachedToTarget None None "S1" "page");
      Transport_message (detachedFromTarget None None "S1") ].

(** * The vocabulary of the properties *)

Section Vocabulary.
Context {imports : Imports}.

(** The world with [effects] appended to its trace. *)
Definition log (effects : list Effect) (w : World) : World :=
  set_trace (trace w ++ effects) w.

(** The effect by which either router settles a matched callback, or
    what building the error of the rejection throws. *)
Definition settlement (callback : ConnectionCallback) (object : Envelope)
    : Completion Effect :=
  match o_error object with
  | Some object_error =>
      error ← createProtocolError (cb_error callback) (cb_method callback)
                object_error;
      mret (Reject (cb_promise callback) (AProtocolError error))
  | None => mret (Resolve (cb_promise callback) (o_result object))
  end.

(** What either router does with a matched callback once it has taken
    it out of the table: the settlement, or nothing and the throw. *)
Definition settle (callback : ConnectionCallback) (object : Envelope)
    : JS unit :=
  λ w, match settlement callback object with
       | Normal e => (log [e] w, Normal tt)
       | Throw err => (w, Throw err)
       end.

(** What the settlement of a matched callback adds to the trace. *)
Definition settlement_effects (callback : ConnectionCallback)
    (object : Envelope) : list Effect :=
  match settlement callback object with
  | Normal e => [e]
  | Throw _ => []
  end.

(** The value can be interpolated into a template literal: no object
    with an own member named toString is reached through its arrays. *)
Fixpoint renders (j : Json) : bool :=
  match j with
  | JArr items => forallb renders items
  | JObj fields => bool_decide (field "toString" fields = None)
  | _ => true
  end.

(** A response whose error, if it has one, carries no data or data that
    renders. *)
Definition printable (object : Envelope) : Prop :=
  ∀ object_error data,
    o_error object = Some object_error → e_data object_error = Some data →
    renders data = true.

(** The promise an effect settles, if it settles one. *)
Definition settles (e : Effect) : option promise :=
  match e with
  | Resolve p _ | Reject p _ => Some p
  | _ => None
  end.

(** The callback a [send] registers. *)
Definition pending_call (method : string) (w : World) : ConnectionCallback :=
  {| cb_promise := promises w; cb_error := new_ProtocolError;
     cb_method := method |}.

(** The world after [_rawSend] and [new Promise]. *)
Definition after_rawSend (msg : RawMessage) (w : World) : World :=
  set_promises (S (promises w))
    (log [TransportSend msg (lastId w + 1)] (set_lastId (lastId w + 1) w)).

(** The session object once its closure routine has run. *)
Definition closed_session (s : CDPSession) : CDPSession :=
  {| s_sessionId := s_sessionId s; s_targetType := s_targetType s;
     s_callbacks := []; s_connection := None |}.

(** What the closure routine of session [this] does to the outside. *)
Definition closure_effects (this : ref) (s : CDPSession) : list Effect :=
  map (λ callback, Reject (cb_promise callback) (target_closed callback))
    (JsMap.values (s_callbacks s))
  ++ [Emit (OnSession this) CDPSessionEmittedEvents_Disconnected NoArg].

(** The two methods the router reserves. *)
Definition is_attach (object : Envelope) : Prop :=
  o_method object = Some "Target.attachedToTarget".

Definition is_detach (object : Envelope) : Prop :=
  o_method object = Some "Target.detachedFromTarget".

(** The first statement of [#onMessage]: the attach and detach
    notifications. *)
Definition structural_part (object : Envelope) : JS unit :=
  if decide (o_method object = Some "Target.attachedToTarget") then
    params ← member (o_params object);
    let sessionId := p_sessionId params in
    targetInfo ← member (p_targetInfo params);
    session ← new_CDPSession (ti_type targetInfo) sessionId;
    modify (λ w, set_sessions (JsMap.set sessionId session (sessions w)) w) ;;
    emit OnConnection (EventNamed (Some "sessionattached")) (ArgSession session) ;;
    w ← world;
    match JsMap.get (o_sessionId object) (sessions w) with
    | Some parentSession =>
        emit (OnSession parentSession) (EventNamed (Some "sessionattached"))
          (ArgSession session)
    | None => mret tt
    end
  else if decide (o_method object = Some "Target.detachedFromTarget") then
    params ← member (o_params object);
    w ← world;
    match JsMap.get (p_sessionId params) (sessions w) with
    | Some session =>
        CDPSession_onClosed session ;;
        modify (λ w, set_sessions (JsMap.delete (p_sessionId params) (sessions w)) w) ;;
        emit OnConnection (EventNamed (Some "sessiondetached")) (ArgSession session) ;;
        w' ← world;
        match JsMap.get (o_sessionId object) (sessions w') with
        | Some parentSession =>
            emit (OnSession parentSession) (EventNamed (Some "sessiondetached"))
              (ArgSession session)
        | None => mret tt
        end
    | None => mret tt
    end
  else mret tt.

(** The second statement of [#onMessage]: where the message goes. *)
Definition routing_part (object : Envelope) : JS unit :=
  if truthy_string (o_sessionId object) then
    w ← world;
    match JsMap.get (o_sessionId object) (sessions w) with
    | Some session => CDPSession_onMessage session object
    | None => mret tt
    end
  else if truthy_number (o_id object) then
    w ← world;
    match JsMap.get_number (o_id object) (callbacks w) with
    | Some callback =>
        modify (λ w, set_callbacks (JsMap.delete_number (o_id object) (callbacks w)) w) ;;
        match o_error object with
        | Some object_error =>
            error ← evaluate (createProtocolError (cb_error callback)
                                (cb_method callback) object_error);
            reject callback (AProtocolError error)
        | None => resolve callback (o_result object)
        end
    | None => mret tt
    end
  else
    emit OnConnection (EventNamed (o_method object)) (ArgParams (o_params object)).

(** A world whose Connection has closed: the flag is set and the
    transport hooks are gone. *)
Definition shut (w : World) : Prop :=
  closed w = true ∧ onmessage w = false ∧ onclose w = false.

(** The worlds the program can be in: those that actions lead to from
    a new Connection. *)
Inductive reachable : World → Prop :=
| reachable_new : reachable new_Connection
| reachable_step w a : reachable w → reachable (step w a).

(** The pending-call table of an owner: the Connection's, or that of a
    session object. *)
Definition table (w : World) (owner : Emitter) : JsMap.t Z ConnectionCallback :=
  match owner with
  | OnConnection => callbacks w
  | OnSession r =>
      match store w !! r with
      | Some s => s_callbacks s
      | None => []
      end
  end.

(** Call [id] is pending in the table of [owner], with this callback. *)
Definition pending (w : World) (owner : Emitter) (id : Z)
    (callback : ConnectionCallback) : Prop :=
  (id, callback) ∈ table w owner.

(** Some effect of the list settles promise [p]. *)
Definition settled (p : promise) (effects : list Effect) : Prop :=
  ∃ e, e ∈ effects ∧ settles e = Some p.

(** What holds in every reachable world. *)
Record Inv (w : World) : Prop := {
  inv_counter : 0 ≤ lastId w;
  inv_sent : sent_ids (trace w) = seqZ 1 (lastId w);
  inv_ids : ∀ owner id cb, pending w owner id cb → 1 ≤ id ≤ lastId w;
  inv_owner : ∀ o1 o2 id c1 c2,
    pending w o1 id c1 → pending w o2 id c2 → o1 = o2;
  inv_table_keys : ∀ owner, NoDup (JsMap.keys (table w owner));
  inv_promises : ∀ owner id cb,
    pending w owner id cb → (cb_promise cb < promises w)%nat;
  inv_promise_owner : ∀ o1 o2 i1 i2 c1 c2,
    pending w o1 i1 c1 → pending w o2 i2 c2 →
    cb_promise c1 = cb_promise c2 → o1 = o2 ∧ i1 = i2;
  inv_settled : ∀ p,
    settled p (trace w) →
    (p < promises w)%nat ∧ ∀ owner id cb, pending w owner id cb → cb_promise cb ≠ p;
  inv_session_keys : NoDup (JsMap.keys (sessions w));
  inv_sessions : ∀ k r,
    (k, r) ∈ sessions w → ∃ s, store w !! r = Some s ∧ s_sessionId s = k
}.

(** Effects that neither reach the transport's [send] nor settle. *)
Definition silent (e : Effect) : Prop :=
  match e with
  | Emit _ _ _ | TransportClose => True
  | _ => False
  end.

(** The session object [new CDPSession] creates. *)
Definition fresh_session (targetType : string) (sessionId : option string)
    : CDPSession :=
  {| s_sessionId := sessionId; s_targetType := targetType;
     s_callbacks := JsMap.empty; s_connection := Some this_connection |}.

(** The 'sessionattached' and 'sessiondetached' emissions: on the
    Connection, then on the session found under the outer [sessionId]. *)
Definition notify (event : string) (session : ref) (object : Envelope)
    (registered : JsMap.t (option string) ref) : list Effect :=
  Emit OnConnection (EventNamed (Some event)) (ArgSession session)
  :: match JsMap.get (o_sessionId object) registered with
     | Some parentSession =>
         [Emit (OnSession parentSession) (EventNamed (Some event))
            (ArgSession session)]
     | None => []
     end.

(** The world after the first half of [#onClose]: flag set, hooks
    removed, the Connection's calls rejected and its table cleared. *)
Definition connection_closed (w : World) : World :=
  set_callbacks (JsMap.clear (callbacks w))
    (log (map (λ cb, Reject (cb_promise cb) (target_closed cb))
            (JsMap.values (callbacks w)))
       (set_hooks false (set_closed true w))).

(** The id under which an action makes the router register a session:
    that of an attach notification that carries [params]. *)
Definition attach_key (a : Action) : option (option string) :=
  match a with
  | Transport_message object =>
      if decide (is_attach object)
      then p_sessionId <$> o_params object
      else None
  | _ => None
  end.

(** The ten changes the methods make to the world, and what it means
    for a property of worlds to be kept by each of them: a send of the
    Connection, a send of an attached session, the settlement of a call
    of the Connection, the settlement of a call of a registered session,
    the closure of a registered session, the registration of a new
    session, the removal of an id from the session map, the clearing of
    the map, the emission of events, and the first half of [#onClose].
    The property may restrict the responses that reach a matched
    callback and the ids under which a session is registered. *)
Record stable_when (ok : Envelope → Prop) (allowed : option string → Prop)
    (P : World → Prop) : Prop := {
  st_connection_sent : ∀ w method msg,
    P w →
    P (set_callbacks
         (JsMap.set (lastId w + 1) (pending_call method w) (callbacks w))
         (after_rawSend msg w));
  st_session_sent : ∀ w r s method msg,
    P w → store w !! r = Some s → s_connection s = Some this_connection →
    P (set_store
         (alter (λ s', set_s_callbacks
                         (JsMap.set (lastId w + 1) (pending_call method w)
                            (s_callbacks s')) s')
            r (store w))
         (after_rawSend msg w));
  st_connection_settled : ∀ w id callback object,
    ok object → P w → JsMap.get id (callbacks w) = Some callback →
    P (settle callback object
         (set_callbacks (JsMap.delete id (callbacks w)) w)).1;
  st_session_settled : ∀ w r s id callback object,
    ok object → P w → r ∈ JsMap.values (sessions w) → store w !! r = Some s →
    JsMap.get id (s_callbacks s) = Some callback →
    P (settle callback object
         (set_store
            (alter (λ s', set_s_callbacks (JsMap.delete id (s_callbacks s')) s')
               r (store w)) w)).1;
  st_session_closed : ∀ w r s,
    P w → r ∈ JsMap.values (sessions w) → store w !! r = Some s →
    P (log (closure_effects r s)
         (set_store (alter closed_session r (store w)) w));
  st_attached : ∀ w targetType sessionId,
    allowed sessionId → P w →
    P (set_sessions (JsMap.set sessionId (length (store w)) (sessions w))
         (set_store (store w ++ [fresh_session targetType sessionId]) w));
  st_unregistered : ∀ w k,
    P w → P (set_sessions (JsMap.delete k (sessions w)) w);
  st_cleared : ∀ w,
    P w → P (set_sessions (JsMap.clear (sessions w)) w);
  st_logged : ∀ w l,
    P w → Forall silent l → P (log l w);
  st_connection_closed : ∀ w,
    P w → P (connection_closed w)
}.

(** An action that delivers no response but a printable one. *)
Definition printable_action (a : Action) : Prop :=
  match a with
  | Transport_message object => printable object
  | _ => True
  end.

(** What the loop of [#onClose] over the live sessions does to the
    outside. *)
Definition closures (st : list CDPSession) (rs : list ref) : list Effect :=
  concat (map (λ r, match st !! r with
                    | Some s => closure_effects r s
                    | None => []
                    end) rs).

(** The store once the closure routine of each session of [rs] has run. *)
Definition close_all (rs : list ref) (st : list CDPSession) : list CDPSession :=
  foldl (λ st' r, alter closed_session r st') st rs.

(** An effect other than the disconnected event of a session. *)
Definition closure_free (e : Effect) : Prop :=
  match e with
  | Emit _ CDPSessionEmittedEvents_Disconnected _ => False
  | _ => True
  end.

(** The world right after the router has registered a new session. *)
Definition attached (object : Envelope) (params : Params)
    (targetInfo : TargetInfo) (w : World) : World :=
  let registered :=
    JsMap.set (p_sessionId params) (length (store w)) (sessions w) in
  log (notify "sessionattached" (length (store w)) object registered)
    (set_sessions registered
       (set_store
          (store w ++ [fresh_session (ti_type targetInfo) (p_sessionId params)])
          w)).

(** The world right after the router has closed and removed a session. *)
Definition detached (object : Envelope) (params : Params) (session : ref)
    (s : CDPSession) (w : World) : World :=
  let registered := JsMap.delete (p_sessionId params) (sessions w) in
  log (notify "sessiondetached" session object registered)
    (set_sessions registered
       (log (closure_effects session s)
          (set_store (alter closed_session session (store w)) w))).

(** Session object [old] is in no entry of the session map and still
    holds every call of table [m]. *)
Definition stranded (old : ref) (m : JsMap.t Z ConnectionCallback)
    (w : World) : Prop :=
  Inv w
  ∧ (old ∉ JsMap.values (sessions w))
  ∧ ∃ s, store w !! old = Some s
         ∧ ∀ id cb, JsMap.get id m = Some cb →
                    JsMap.get id (s_callbacks s) = Some cb.

(** Session object [this], of target type [targetType], has run its
    closure routine: its [#connection] is [undefined]. *)
Definition closed_as (this : ref) (targetType : string) (w : World) : Prop :=
  ∃ s, store w !! this = Some s
       ∧ s_connection s = None ∧ s_targetType s = targetType.

(** What [send] on a closed session and [detach] on a closed session
    fail with. *)
Definition session_closed_error (method targetType : string) : JsError :=
  Error ("Protocol error (" +:+ method +:+ "): Session closed. Most likely the "
         +:+ targetType +:+ " has been closed.").

Definition already_detached_error (targetType : string) : JsError :=
  Error ("Session already detached. Most likely the "
         +:+ targetType +:+ " has been closed.").

(** The request that [detach] sends for a session with id [S]. *)
Definition detach_request (S : string) : RawMessage :=
  {| rm_sessionId := None; rm_method := "Target.detachFromTarget";
     rm_params := Some (JObj [("sessionId", JStr S)]) |}.

(** The protocol event that the router emits on the Connection for an
    envelope without [sessionId] and without [id]. *)
Definition protocol_event (object : Envelope) : Effect :=
  Emit OnConnection (EventNamed (o_method object)) (ArgParams (o_params object)).

(** A reserved notification that lacks what the router reads from it:
    an attach notification without [params] or without
    [params.targetInfo], a detach notification without [params]. *)
Definition malformed (object : Envelope) : Prop :=
  (is_attach object
   ∧ (o_params object = None
      ∨ ∃ params, o_params object = Some params ∧ p_targetInfo params = None))
  ∨ (is_detach object ∧ o_params object = None).

(** A method keeps the relation [R] when each of its runs leads from a
    world to an [R]-related one, whether it returns or throws. *)
Definition keeps {A : Type} (R : World → World → Prop) (m : JS A) : Prop :=
  ∀ w, R w (m w).1.

(** The part [f] of the world is the same in both worlds. *)
Definition unchanged {B : Type} (f : World → B) (w w' : World) : Prop :=
  f w' = f w.

(** What a router or a closure routine may do to the world: hand nothing
    to the transport, create no promise, add no entry to a table and
    change none, and leave every session object in its place with its
    id and its target type. *)
Record settling (w w' : World) : Prop := {
  sg_lastId : lastId w' = lastId w;
  sg_promises : promises w' = promises w;
  sg_trace : ∃ rest, trace w' = trace w ++ rest ∧ sent_ids rest = [];
  sg_pending : ∀ owner id cb, pending w' owner id cb → pending w owner id cb;
  sg_store : ∀ r s,
    store w !! r = Some s →
    ∃ s', store w' !! r = Some s'
          ∧ s_sessionId s' = s_sessionId s ∧ s_targetType s' = s_targetType s
}.

(** The session id an owner of a table puts on its requests: none for
    the Connection, its own [#sessionId] for a session. *)
Definition owner_sessionId (w : World) (owner : Emitter) : option string :=
  match owner with
  | OnConnection => None
  | OnSession r =>
      match store w !! r with
      | Some s => s_sessionId s
      | None => None
      end
  end.

(** Request [msg] went to the transport under [id], and it is the
    request the pending call [cb] of [owner] waits for: same method,
    and the session id of the owner. *)
Definition request_of (w : World) (owner : Emitter) (id : Z)
    (cb : ConnectionCallback) (msg : RawMessage) : Prop :=
  TransportSend msg id ∈ trace w
  ∧ rm_method msg = cb_method cb
  ∧ rm_sessionId msg = owner_sessionId w owner.

(** Every pending call waits for a request that was sent. *)
Definition answers_requests (w : World) : Prop :=
  ∀ owner id cb, pending w owner id cb → ∃ msg, request_of w owner id cb msg.

(** If the Connection has closed, its hooks are off the transport and
    its session map is empty. *)
Definition closed_for_good (w : World) : Prop :=
  closed w = true → shut w ∧ sessions w = [].

(** Every session of the session map is bound to the Connection. *)
Definition live (w : World) : Prop :=
  ∀ k r, (k, r) ∈ sessions w →
    ∃ s, store w !! r = Some s ∧ s_connection s = Some this_connection.

(** The flags of the Connection; the session map together with the
    [#connection] field of every session object. *)
Definition flags (w : World) : bool * bool * bool :=
  (closed w, onmessage w, onclose w).

Definition bindings (w : World)
    : JsMap.t (option string) ref * list (option ConnectionRef) :=
  (sessions w, s_connection <$> store w).

(** The error is a [ProtocolError] whose text starts with
    "Protocol error (method): ". *)
Definition names_method (err : JsError) (method : string) : Prop :=
  ∃ e text,
    err = AProtocolError e
    ∧ message e = "Protocol error (" +:+ method +:+ "): " +:+ text.

(** Promises and requests are numbered alike: as many promises have
    been created as requests were sent, and the call registered under
    id [n] holds promise [n - 1]. *)
Definition numbered (w : World) : Prop :=
  Z.of_nat (promises w) = lastId w
  ∧ ∀ owner id cb, pending w owner id cb → Z.of_nat (cb_promise cb) = id - 1.

(** Every rejection so far names the method of the request that was
    sent when the rejected promise was created. *)
Definition rejections_named (w : World) : Prop :=
  ∀ p err,
    Reject p err ∈ trace w →
    ∃ msg, TransportSend msg (Z.of_nat p + 1) ∈ trace w
           ∧ names_method err (rm_method msg).

(** From [w] to [w'] the trace has grown, and what was rejected on the
    way is the promise of a call that was pending in [w], with an error
    that names the method of that call. *)
Definition rejects_pending (w w' : World) : Prop :=
  ∃ rest,
    trace w' = trace w ++ rest
    ∧ ∀ p err,
        Reject p err ∈ rest →
        ∃ owner id cb,
          pending w owner id cb ∧ cb_promise cb = p
          ∧ names_method err (cb_method cb).

(** The promises that a list of effects settles, in order. *)
Definition settlements (effects : list Effect) : list promise :=
  omap settles effects.

(** Every promise created so far has been settled or waits in a table. *)
Definition accounted (w : World) : Prop :=
  ∀ p, (p < promises w)%nat →
    settled p (trace w)
    ∨ ∃ owner id cb, pending w owner id cb ∧ cb_promise cb = p.

(** Promise [p] was created, no effect has settled it and no table
    holds it. *)
Definition lost (p : promise) (w : World) : Prop :=
  Inv w
  ∧ (p < promises w)%nat
  ∧ ¬ settled p (trace w)
  ∧ ∀ owner id cb, pending w owner id cb → cb_promise cb ≠ p.

End Vocabulary.

(** A property kept whatever the responses are. *)
Abbreviation stable := (stable_when (λ _ : Envelope, True)).

(** * The service clients of the lambda package

    Shallow embedding of the module that [get-account-id.ts] imports as
    [./aws-clients], the cache of AWS service clients, and of
    [packages/lambda/src/shared/get-account-id.ts] itself.

    The state of the Node process, as far as the two modules go, is
    [process.env], the module variable [_clients], the client objects
    constructed so far (a client is known by its reference, the index
    of its construction) and a journal of what was done to the outside.
    A string is the sequence of the bytes of its UTF-8 form; text that
    comes out of the environment holds no lone surrogate, so that
    [JSON.stringify] acts on each byte below 128 by itself and leaves
    the others as they are.  Plain objects used as dictionaries are
    insertion-ordered maps; the names used as keys (region names, JSON
    texts, "undefined", service names) are no property of
    [Object.prototype]. *)

(** [type CredentialPair]; an absent and an [undefined] [sessionToken]
    are the same to [JSON.stringify] and to the SDK. *)
Record CredentialPair : Type := {
  accessKeyId : string;
  secretAccessKey : string;
  sessionToken : option string
}.

(** The keys of [type ServiceMapping]. *)
Inductive Service : Type :=
| s3 | cloudwatch | iam | lambda | servicequotas | sts.

(** The client classes of the SDK that the module imports. *)
Inductive ClientClass : Type :=
| CloudWatchLogsClient | IAMClient | LambdaClient
| S3Client | ServiceQuotasClient | STSClient.

#[global] Instance Service_eq_dec : EqDecision Service.
Proof. solve_decision. Defined.

#[global] Instance ClientClass_eq_dec : EqDecision ClientClass.
Proof. solve_decision. Defined.

(** A client object: the class it was constructed from, and the
    configuration [{region, credentials}] it was constructed with. *)
Record Client : Type := {
  client_class : ClientClass;
  client_region : string;
  client_credentials : option CredentialPair
}.

(** The command that [getAccountId] sends. *)
Inductive Command : Type := GetCallerIdentityCommand.

(** What the two modules do to the outside: call [checkCredentials],
    construct a client, send a command on a client. *)
Inductive LambdaEffect : Type :=
| CheckCredentials
| Construct (client : ref)
| ClientSend (client : ref) (command : Command).

Record Process : Type := {
  env : JsMap.t string string;
  _clients : JsMap.t string (JsMap.t string (JsMap.t Service ref));
  constructed : list Client;
  journal : list LambdaEffect
}.

Definition set_env (v : JsMap.t string string) (p : Process) : Process :=
  {| env := v; _clients := _clients p; constructed := constructed p;
     journal := journal p |}.

Definition set__clients
    (v : JsMap.t string (JsMap.t string (JsMap.t Service ref))) (p : Process)
    : Process :=
  {| env := env p; _clients := v; constructed := constructed p;
     journal := journal p |}.

Definition set_constructed (v : list Client) (p : Process) : Process :=
  {| env := env p; _clients := _clients p; constructed := v;
     journal := journal p |}.

Definition set_journal (v : list LambdaEffect) (p : Process) : Process :=
  {| env := env p; _clients := _clients p; constructed := constructed p;
     journal := v |}.

(** A process that has loaded the module: nothing cached yet. *)
Definition new_Process (e : JsMap.t string string) : Process :=
  {| env := e; _clients := JsMap.empty; constructed := []; journal := [] |}.

(** The monad of the function bodies: the process state, and [throw]. *)
Definition Node (A : Type) : Type := Process → Process * Completion A.

#[global] Instance Node_ret : MRet Node := λ A a p, (p, Normal a).

#[global] Instance Node_bind : MBind Node := λ A B k m p,
  match m p with
  | (p', Normal a) => k a p'
  | (p', Throw e) => (p', Throw e)
  end.

Definition raise {A : Type} (e : JsError) : Node A := λ p, (p, Throw e).

Definition process : Node Process := λ p, (p, Normal p).

Definition note (e : LambdaEffect) : Node unit :=
  λ p, (set_journal (journal p ++ [e]) p, Normal tt).

(** Assignment into the module variable [_clients]. *)
Definition assign
    (f : JsMap.t string (JsMap.t string (JsMap.t Service ref))
         → JsMap.t string (JsMap.t string (JsMap.t Service ref)))
    : Node unit :=
  λ p, (set__clients (f (_clients p)) p, Normal tt).

(** Reading a member of something that is [undefined] throws. *)
Definition defined {A : Type} (o : option A) : Node A :=
  match o with
  | Some a => mret a
  | None => raise TypeError
  end.

(** [new Client({region, credentials})] *)
Definition new_Client (class : ClientClass) (region : string)
    (credentials : option CredentialPair) : Node ref :=
  λ p,
    let client := length (constructed p) in
    (set_journal (journal p ++ [Construct client])
       (set_constructed
          (constructed p
           ++ [ {| client_class := class; client_region := region;
                   client_credentials := credentials |} ]) p),
     Normal client).

(** ** [JSON.stringify] of a credential pair *)

Definition double_quote : ascii := "034"%char.

Definition hex_digit (n : N) : ascii :=
  match n with
  | 0 => "0" | 1 => "1" | 2 => "2" | 3 => "3" | 4 => "4" | 5 => "5"
  | 6 => "6" | 7 => "7" | 8 => "8" | 9 => "9" | 10 => "a" | 11 => "b"
  | 12 => "c" | 13 => "d" | 14 => "e" | _ => "f"
  end%N%char.

(** What [QuoteJSONString] writes for one character: the two-character
    escapes of the quote, the backslash, backspace, form feed, line
    feed, carriage return and tab; [\u00xx] for the other control
    characters; the character itself otherwise. *)
Definition escape (c : ascii) : string :=
  if Ascii.eqb c double_quote then String "\" (String double_quote "")
  else if Ascii.eqb c "\" then "\\"
  else if Ascii.eqb c "008" then "\b"
  else if Ascii.eqb c "012" then "\f"
  else if Ascii.eqb c "010" then "\n"
  else if Ascii.eqb c "013" then "\r"
  else if Ascii.eqb c "009" then "\t"
  else if (N_of_ascii c <? 32)%N then
    "\u00"
    +:+ String (hex_digit (N_of_ascii c / 16))
          (String (hex_digit (N_of_ascii c mod 16)) "")
  else String c "".

Fixpoint escape_all (s : string) : string :=
  match s with
  | EmptyString => ""
  | String c rest => escape c +:+ escape_all rest
  end.

Definition QuoteJSONString (s : string) : string :=
  String double_quote (escape_all s +:+ String double_quote "").

(** One member of an object: ["name":"value"]. *)
Definition JSON_member (name value : string) : string :=
  QuoteJSONString name +:+ ":" +:+ QuoteJSONString value.

(** [JSON.stringify(c)] for [c : CredentialPair | undefined]: the
    members in the order of their creation, those that are [undefined]
    left out, no white space; [undefined] for [undefined]. *)
Definition JSON_stringify (c : option CredentialPair) : option string :=
  match c with
  | None => None
  | Some c =>
      Some ("{"
            +:+ String.concat ","
                  ([ JSON_member "accessKeyId" (accessKeyId c);
                     JSON_member "secretAccessKey" (secretAccessKey c) ]
                   ++ match sessionToken c with
                      | Some token => [JSON_member "sessionToken" token]
                      | None => []
                      end)
            +:+ "}")
  end.

(** The property name that [obj[key]] uses for a key that is a string
    or [undefined]. *)
Definition ToPropertyKey (key : option string) : string :=
  default "undefined" key.

(** Reading back what [QuoteJSONString] wrote, from behind the opening
    quote up to the closing one: the text, and what follows the closing
    quote.  It serves to show that [JSON.stringify] gives different
    credentials different texts. *)
Definition unhex (c : ascii) : option N :=
  let n := N_of_ascii c in
  if ((48 <=? n) && (n <=? 57))%N then Some (n - 48)%N
  else if ((97 <=? n) && (n <=? 102))%N then Some (n - 87)%N
  else None.

Definition unescape_letter (c : ascii) : option ascii :=
  if Ascii.eqb c double_quote then Some double_quote
  else if Ascii.eqb c "\" then Some "\"%char
  else if Ascii.eqb c "b" then Some "008"%char
  else if Ascii.eqb c "f" then Some "012"%char
  else if Ascii.eqb c "n" then Some "010"%char
  else if Ascii.eqb c "r" then Some "013"%char
  else if Ascii.eqb c "t" then Some "009"%char
  else None.

Fixpoint unescape (s : string) : option (string * string) :=
  match s with
  | EmptyString => None
  | String c rest =>
      if Ascii.eqb c double_quote then Some ("", rest)
      else if Ascii.eqb c "\" then
        match rest with
        | EmptyString => None
        | String letter rest' =>
            if Ascii.eqb letter "u" then
              match rest' with
              | String _ (String _ (String high (String low rest''))) =>
                  h ← unhex high;
                  l ← unhex low;
                  '(text, after) ← unescape rest'';
                  Some (String (ascii_of_N (16 * h + l)) text, after)
              | _ => None
              end
            else
              ch ← unescape_letter letter;
              '(text, after) ← unescape rest';
              Some (String ch text, after)
        end
      else
        '(text, after) ← unescape rest;
        Some (String c text, after)
  end.

(** ** What the modules import

    [isInsideLambda] of [./is-in-lambda], [checkCredentials] of
    [./check-credentials] and [validateAwsRegion] of
    [./validate-aws-region] live in sibling modules.  They are taken as
    parameters: the first as a function of the environment, the other
    two as [None] when the call returns and [Some e] when it throws
    [e]; none of them writes [process.env] or [_clients]. *)
Class LambdaImports : Type := {
  isInsideLambda : JsMap.t string string → bool;
  checkCredentials : JsMap.t string string → option JsError;
  validateAwsRegion : string → option JsError
}.

Section Lambda.
Context {lambda_imports : LambdaImports}.

(** [getCredentials] *)
Definition getCredentials (p : Process) : option CredentialPair :=
  let e := env p in
  if isInsideLambda e then None
  else if truthy_string (JsMap.get "REMOTION_AWS_ACCESS_KEY_ID" e)
          && truthy_string (JsMap.get "REMOTION_AWS_SECRET_ACCESS_KEY" e)
  then
    Some {| accessKeyId := default "" (JsMap.get "REMOTION_AWS_ACCESS_KEY_ID" e);
            secretAccessKey :=
              default "" (JsMap.get "REMOTION_AWS_SECRET_ACCESS_KEY" e);
            sessionToken := None |}
  else if truthy_string (JsMap.get "AWS_ACCESS_KEY_ID" e)
          && truthy_string (JsMap.get "AWS_SECRET_ACCESS_KEY" e)
  then
    Some {| accessKeyId := default "" (JsMap.get "AWS_ACCESS_KEY_ID" e);
            secretAccessKey := default "" (JsMap.get "AWS_SECRET_ACCESS_KEY" e);
            sessionToken := JsMap.get "AWS_SESSION_TOKEN" e |}
  else None.

(** [getCredentialsKey] *)
Definition getCredentialsKey (p : Process) : option string :=
  JSON_stringify (getCredentials p).

(** The class that the immediately invoked function of
    [getServiceClient] selects. *)
Definition Client_of (service : Service) : ClientClass :=
  match service with
  | cloudwatch => CloudWatchLogsClient
  | lambda => LambdaClient
  | s3 => S3Client
  | iam => IAMClient
  | servicequotas => ServiceQuotasClient
  | sts => STSClient
  end.

(** [checkCredentials()] *)
Definition call_checkCredentials : Node unit :=
  note CheckCredentials ;;
  p ← process;
  match checkCredentials (env p) with
  | None => mret tt
  | Some e => raise e
  end.

(** [getServiceClient] *)
Definition getServiceClient (region : string) (service : Service)
    : Node (option ref) :=
  p ← process;
  match JsMap.get region (_clients p) with
  | None => assign (JsMap.set region JsMap.empty)
  | Some _ => mret tt
  end ;;
  let Client := Client_of service in
  p ← process;
  let key := ToPropertyKey (getCredentialsKey p) in
  by_key ← defined (JsMap.get region (_clients p));
  match JsMap.get key by_key with
  | None => assign (JsMap.set region (JsMap.set key JsMap.empty by_key))
  | Some _ => mret tt
  end ;;
  p ← process;
  by_key ← defined (JsMap.get region (_clients p));
  by_service ← defined (JsMap.get key by_key);
  match JsMap.get service by_service with
  | None =>
      call_checkCredentials ;;
      p ← process;
      client ← new_Client Client region (getCredentials p);
      assign (JsMap.set region
                (JsMap.set key (JsMap.set service client by_service) by_key))
  | Some _ => mret tt
  end ;;
  p ← process;
  by_key ← defined (JsMap.get region (_clients p));
  by_service ← defined (JsMap.get key by_key);
  mret (JsMap.get service by_service).

(** The six wrappers. *)
Definition getCloudWatchLogsClient (region : string) : Node (option ref) :=
  getServiceClient region cloudwatch.

Definition getS3Client (region : string) : Node (option ref) :=
  getServiceClient region s3.

Definition getLambdaClient (region : string) : Node (option ref) :=
  getServiceClient region lambda.

Definition getIamClient (region : string) : Node (option ref) :=
  getServiceClient region iam.

Definition getStsClient (region : string) : Node (option ref) :=
  getServiceClient region sts.

Definition getServiceQuotasClient (region : string) : Node (option ref) :=
  getServiceClient region servicequotas.

(** [validateAwsRegion(region)] *)
Definition call_validateAwsRegion (region : string) : Node unit :=
  match validateAwsRegion region with
  | None => mret tt
  | Some e => raise e
  end.

(** The response to [GetCallerIdentityCommand]: the member that
    [getAccountId] reads. *)
Record GetCallerIdentityResponse : Type := {
  Account : option string
}.

(** [getAccountId] up to its [await]: the region is validated, the STS
    client of the region is fetched and the command is sent on it.  The
    client on which the command was sent is handed back. *)
Definition getAccountId (region : string) : Node ref :=
  call_validateAwsRegion region ;;
  client ← getStsClient region;
  client ← defined client;
  note (ClientSend client GetCallerIdentityCommand) ;;
  mret client.

(** [getAccountId] after its [await], entered with what the promise of
    [send] settled to: a rejection is rethrown; an account id that is
    missing or empty is an error. *)
Definition getAccountId_resume
    (settled : Completion GetCallerIdentityResponse) : Completion string :=
  match settled with
  | Throw e => Throw e
  | Normal resp =>
      if truthy_string (Account resp)
      then Normal (default "" (Account resp))
      else Throw (Error "Cannot get account ID")
  end.

(** What happens in the process between two uses of the cache: a
    caller asks for a client, or somebody writes or deletes a variable
    of the environment. *)
Inductive LambdaAction : Type :=
| Call_getServiceClient (region : string) (service : Service)
| Call_getAccountId (region : string)
| Assign_env (name value : string)
| Delete_env (name : string).

Definition lambda_step (p : Process) (a : LambdaAction) : Process :=
  match a with
  | Call_getServiceClient region service => (getServiceClient region service p).1
  | Call_getAccountId region => (getAccountId region p).1
  | Assign_env name value => set_env (JsMap.set name value (env p)) p
  | Delete_env name => set_env (JsMap.delete name (env p)) p
  end.

Definition lambda_run (p : Process) (actions : list LambdaAction) : Process :=
  foldl lambda_step p actions.

(** [_clients[region][key][service]], [undefined] as soon as one of
    the three is missing. *)
Definition cached (p : Process) (region key : string) (service : Service)
    : option ref :=
  by_key ← JsMap.get region (_clients p);
  by_service ← JsMap.get key by_key;
  JsMap.get service by_service.

(** The cache once the objects for [region] and for [key] under it are
    in place. *)
Definition prepared (region key : string)
    (cs : JsMap.t string (JsMap.t string (JsMap.t Service ref)))
    : JsMap.t string (JsMap.t string (JsMap.t Service ref)) :=
  let by_key := default JsMap.empty (JsMap.get region cs) in
  let by_service := default JsMap.empty (JsMap.get key by_key) in
  JsMap.set region (JsMap.set key by_service by_key) cs.

(** The cache with [client] stored for the three keys. *)
Definition stored (region key : string) (service : Service) (client : ref)
    (cs : JsMap.t string (JsMap.t string (JsMap.t Service ref)))
    : JsMap.t string (JsMap.t string (JsMap.t Service ref)) :=
  let by_key := default JsMap.empty (JsMap.get region cs) in
  let by_service := default JsMap.empty (JsMap.get key by_key) in
  JsMap.set region
    (JsMap.set key (JsMap.set service client by_service) by_key) cs.

(** The journal with [effects] appended. *)
Definition noted (effects : list LambdaEffect) (p : Process) : Process :=
  set_journal (journal p ++ effects) p.

(** Every client of the cache is an object of the class of its
    service, configured with its region and with credentials whose JSON
    text is its key. *)
Definition cache_sound (p : Process) : Prop :=
  ∀ region key service client,
    cached p region key service = Some client →
    ∃ c, constructed p !! client = Some c
         ∧ client_class c = Client_of service
         ∧ client_region c = region
         ∧ ToPropertyKey (JSON_stringify (client_credentials c)) = key.

(** The outcome of a call for a client in process [p]: a client of
    class [class], configured for [region] and with the credentials
    that [p] holds, or the error of [checkCredentials]. *)
Definition hands_out (p : Process) (region : string) (class : ClientClass)
    (outcome : Process * Completion (option ref)) : Prop :=
  match outcome with
  | (p', Normal (Some client)) =>
      ∃ c, constructed p' !! client = Some c
           ∧ client_class c = class
           ∧ client_region c = region
           ∧ client_credentials c = getCredentials p
  | (p', Normal None) => False
  | (p', Throw err) =>
      checkCredentials (env p) = Some err
      ∧ journal p' = journal p ++ [CheckCredentials]
  end.

End Lambda.

(** The environment-reading helpers of the examples: never inside a
    lambda, credentials always fine, every region valid. *)
Definition outside_lambda : LambdaImports :=
  {| isInsideLambda := λ _, false;
     checkCredentials := λ _, None;
     validateAwsRegion := λ _, None |}.

(** Unfold the monad and the small steps in a goal about a method. *)
Ltac js_unfold :=
  unfold this_session, update_session, emit, resolve, reject, member,
    new_Promise, new_CDPSession in *;
  unfold perform in *;
  unfold mbind, mret, JS_bind, JS_ret, throw, world, modify in *.

(** * Properties *)

(** ** The map operations *)

Module JsMapFacts.
Section JsMapFacts.
Context {K V : Type} `{EqDecision K}.
Implicit Types (m : JsMap.t K V) (k j : K) (v u : V).

Lemma get_set_eq m k v : JsMap.get k (JsMap.set k v m) = Some v.
Proof.
  induction m as [|[k' v'] m IH]; simpl.
  - by rewrite decide_True.
  - destruct (decide (k = k')) as [->|Hne]; simpl.
    + by rewrite decide_True.
    + by rewrite decide_False.
Qed.

Lemma get_set_ne m k j v : j ≠ k → JsMap.get j (JsMap.set k v m) = JsMap.get j m.
Proof.
  intros Hne. induction m as [|[k' v'] m IH]; simpl.
  - by rewrite decide_False.
  - destruct (decide (k = k')) as [->|Hk]; simpl.
    + by rewrite !decide_False.
    + destruct (decide (j = k')); [done | apply IH].
Qed.

Lemma get_delete_eq m k : JsMap.get k (JsMap.delete k m) = None.
Proof.
  induction m as [|[k' v'] m IH]; simpl; [done|].
  destruct (decide (k = k')) as [->|Hk]; simpl; [done|].
  by rewrite decide_False.
Qed.

Lemma get_delete_ne m k j : j ≠ k → JsMap.get j (JsMap.delete k m) = JsMap.get j m.
Proof.
  intros Hne. induction m as [|[k' v'] m IH]; simpl; [done|].
  destruct (decide (k = k')) as [->|Hk]; simpl.
  - by rewrite decide_False.
  - destruct (decide (j = k')); [done | apply IH].
Qed.

Lemma get_elem_of m k v : JsMap.get k m = Some v → (k, v) ∈ m.
Proof.
  induction m as [|[k' v'] m IH]; simpl; [done|].
  destruct (decide (k = k')) as [->|Hk].
  - intros [= ->]. left.
  - intros Hg. right. by apply IH.
Qed.

Lemma get_None m k : JsMap.get k m = None ↔ k ∉ JsMap.keys m.
Proof.
  unfold JsMap.keys. induction m as [|[k' v'] m IH]; simpl.
  - split; [intros _; apply not_elem_of_nil | done].
  - rewrite not_elem_of_cons. destruct (decide (k = k')) as [->|Hk].
    + split; [done | intros [? _]; done].
    + rewrite IH. tauto.
Qed.

Lemma elem_of_keys m k v : (k, v) ∈ m → k ∈ JsMap.keys m.
Proof. intros Hin. unfold JsMap.keys. by apply (list_elem_of_fmap_2 fst) in Hin. Qed.

Lemma elem_of_values m k v : (k, v) ∈ m → v ∈ JsMap.values m.
Proof. intros Hin. unfold JsMap.values. by apply (list_elem_of_fmap_2 snd) in Hin. Qed.

Lemma values_elem_of m v : v ∈ JsMap.values m → ∃ k, (k, v) ∈ m.
Proof.
  unfold JsMap.values. intros ([k v'] & -> & Hin)%list_elem_of_fmap_1.
  by exists k.
Qed.

Lemma elem_of_get m k v :
NoDup (JsMap.keys m) → (k, v) ∈ m → JsMap.get k m = Some v.
Proof.
  unfold JsMap.keys. induction m as [|[k' v'] m IH]; simpl.
  - intros _ Hin. by apply elem_of_nil in Hin.
  - intros [Hk' Hnd]%NoDup_cons [Heq|Hin]%elem_of_cons.
    + injection Heq as -> ->. by rewrite decide_True.
    + destruct (decide (k = k')) as [->|Hk]; [|by apply IH].
      destruct Hk'. by apply (elem_of_keys m k' v).
Qed.

Lemma set_fresh m k v : k ∉ JsMap.keys m → JsMap.set k v m = m ++ [(k, v)].
Proof.
  unfold JsMap.keys. induction m as [|[k' v'] m IH]; simpl; [done|].
  intros [Hk Hin]%not_elem_of_cons. rewrite decide_False by done.
  by rewrite IH.
Qed.

Lemma elem_of_set m k v j u :
(j, u) ∈ JsMap.set k v m → (j = k ∧ u = v) ∨ (j, u) ∈ m.
Proof.
  induction m as [|[k' v'] m IH]; simpl.
  - intros [= -> ->]%list_elem_of_singleton. by left.
  - destruct (decide (k = k')) as [->|Hk].
    + intros [[= -> ->]|Hin]%elem_of_cons; [by left|]. right. by right.
    + intros [[= -> ->]|Hin]%elem_of_cons.
      * right. left.
      * destruct (IH Hin) as [?|?]; [by left|]. right. by right.
Qed.

Lemma keys_set m k v :
JsMap.keys (JsMap.set k v m)
= if decide (k ∈ JsMap.keys m) then JsMap.keys m else JsMap.keys m ++ [k].
Proof.
  unfold JsMap.keys. induction m as [|[k' v'] m IH]; simpl.
  - done.
  - destruct (decide (k = k')) as [->|Hk]; simpl.
    + rewrite decide_True; [done | left].
    + rewrite IH. destruct (decide (k ∈ map fst m)).
      * rewrite decide_True; [done | by right].
      * rewrite decide_False; [done|]. by intros [?|?]%elem_of_cons.
Qed.

Lemma NoDup_keys_set m k v :
NoDup (JsMap.keys m) → NoDup (JsMap.keys (JsMap.set k v m)).
Proof.
  intros Hnd. rewrite keys_set. case_decide; [done|].
  apply NoDup_app. split_and!; [done | | apply NoDup_singleton].
  intros x Hx ->%list_elem_of_singleton. done.
Qed.

Lemma elem_of_delete m k j u :
(j, u) ∈ JsMap.delete k m ↔ (j, u) ∈ m ∧ j ≠ k.
Proof.
  induction m as [|[k' v'] m IH]; simpl.
  - split; [intros []%elem_of_nil | intros [[]%elem_of_nil _]].
  - destruct (decide (k = k')) as [->|Hk].
    + rewrite IH, elem_of_cons. split; [tauto|].
      intros [[[= -> ->]|?] ?]; done.
    + rewrite !elem_of_cons, IH. split.
      * intros [[= -> ->]|[? ?]]; split; auto.
      * intros [[?|?] ?]; auto.
Qed.

Lemma NoDup_keys_delete m k :
NoDup (JsMap.keys m) → NoDup (JsMap.keys (JsMap.delete k m)).
Proof.
  unfold JsMap.keys. induction m as [|[k' v'] m IH]; simpl; [done|].
  intros [Hk' Hnd]%NoDup_cons. destruct (decide (k = k')); [by apply IH|].
  simpl. apply NoDup_cons. split; [|by apply IH].
  intros ([j u] & Hj & [Hin _]%elem_of_delete)%list_elem_of_fmap_1.
  simpl in Hj. subst j. destruct Hk'. by apply (elem_of_keys m k' u).
Qed.

Lemma elem_of_set_NoDup m k v j u :
NoDup (JsMap.keys m) →
(j, u) ∈ JsMap.set k v m → (j = k ∧ u = v) ∨ ((j, u) ∈ m ∧ j ≠ k).
Proof.
  intros Hnd Hin.
  destruct (decide (j = k)) as [->|Hj].
  - left. split; [done|].
    apply elem_of_get in Hin; [|by apply NoDup_keys_set].
    rewrite get_set_eq in Hin. congruence.
  - apply elem_of_set in Hin as [[? ?]|?]; [done|]. by right.
Qed.
End JsMapFacts.
End JsMapFacts.

(** ** Strings *)

Lemma append_assoc (a b c : string) : (a +:+ b) +:+ c = a +:+ b +:+ c.
Proof.
  induction a as [|ch a IH]; [done|].
  change (String ch ((a +:+ b) +:+ c) = String ch (a +:+ b +:+ c)).
  by rewrite IH.
Qed.

Lemma append_nil_r (a : string) : a +:+ "" = a.
Proof.
  induction a as [|ch a IH]; [done|].
  change (String ch (a +:+ "") = String ch a).
  by rewrite IH.
Qed.

Lemma contains_middle (pre sub post : string) : contains (pre +:+ sub +:+ post) sub.
Proof. by exists pre, post. Qed.

Lemma contains_end (pre sub : string) : contains (pre +:+ sub) sub.
Proof. exists pre, "". by rewrite append_nil_r. Qed.

Lemma contains_app_l (a b sub : string) : contains a sub → contains (a +:+ b) sub.
Proof.
  intros (pre & post & ->). exists pre, (post +:+ b).
  by rewrite !append_assoc.
Qed.

Lemma contains_app_r (a b sub : string) : contains b sub → contains (a +:+ b) sub.
Proof.
  intros (pre & post & ->). exists (a +:+ pre), post.
  by rewrite !append_assoc.
Qed.

(** ** The string conversion *)

Lemma Json_induction (P : Json → Prop) :
  P JNull → (∀ b, P (JBool b)) → (∀ n, P (JNum n)) → (∀ s, P (JStr s)) →
  (∀ items, Forall P items → P (JArr items)) →
  (∀ fields, P (JObj fields)) →
  ∀ j, P j.
Proof.
  intros Hnull Hbool Hnum Hstr Harr Hobj. fix IH 1.
  intros [| b | n | s | items | fields];
    [apply Hnull | apply Hbool | apply Hnum | apply Hstr | | apply Hobj].
  apply Harr. induction items as [|x xs IHxs]; constructor; [apply IH | apply IHxs].
Qed.

Lemma join_renders convert R k items :
  Forall (λ x, if renders x then ∃ text, convert x = Normal text
               else convert x = Throw TypeError) items →
  if forallb renders items then ∃ text, join convert R k items = Normal text
  else join convert R k items = Throw TypeError.
Proof.
  intros Hitems. revert R k.
  induction Hitems as [|x xs Hx _ IH]; intros R k; simpl; [by eexists|].
  destruct (renders x) eqn:Hr; simpl.
  - assert (∃ next, match x with JNull => Normal "" | _ => convert x end
                    = Normal next) as [next ->].
    { destruct x; try done. by eexists. }
    apply IH.
  - destruct x; try done; by rewrite Hx.
Qed.

(** A value renders, or its conversion throws a TypeError. *)
Lemma ToString_renders data :
  if renders data then ∃ text, ToString data = Normal text
  else ToString data = Throw TypeError.
Proof.
  induction data as [| b | n | s | items IH | fields] using Json_induction;
    simpl; try by eexists.
  - by apply join_renders.
  - unfold OrdinaryToPrimitive. case_bool_decide as Hf.
    + rewrite Hf. by eexists.
    + by destruct (field "toString" fields).
Qed.

Lemma ToString_Normal data :
  renders data = true → ∃ text, ToString data = Normal text.
Proof. intros Hr. pose proof (ToString_renders data) as H. by rewrite Hr in H. Qed.

Lemma ToString_Throw data e :
  ToString data = Throw e → renders data = false ∧ e = TypeError.
Proof.
  intros Ht. pose proof (ToString_renders data) as H.
  destruct (renders data); [destruct H as [text H]|]; split; congruence.
Qed.

(** ** What the two helpers write into the error *)

Lemma target_closed_message (callback : ConnectionCallback) :
  ∃ e, target_closed callback = AProtocolError e
       ∧ message e = "Protocol error (" +:+ cb_method callback +:+ "): Target closed."
       ∧ contains (message e) (cb_method callback)
       ∧ contains (message e) "Target closed".
Proof.
  eexists. split; [reflexivity|]. simpl. split; [done|]. split.
  - apply contains_middle.
  - apply contains_app_r, contains_app_r. by exists "): ", ".".
Qed.

(** [createProtocolError] throws exactly when [error.data] is there and
    does not render, and then a TypeError. *)
Lemma createProtocolError_Throw error method object_error err :
  createProtocolError error method object_error = Throw err ↔
  err = TypeError
  ∧ ∃ data, e_data object_error = Some data ∧ renders data = false.
Proof.
  unfold createProtocolError. destruct (e_data object_error) as [data|]; simpl.
  - pose proof (ToString_renders data) as Hdata.
    destruct (renders data) eqn:Hr.
    + destruct Hdata as [text ->]. simpl.
      split; [done|]. intros (_ & data' & [= <-] & ?). congruence.
    + rewrite Hdata. simpl. split; [intros [= <-]; eauto|by intros [-> _]].
  - split; [done|]. by intros (_ & ? & ? & _).
Qed.

(** The message of the error that [createProtocolError] returns. *)
Lemma createProtocolError_message error method object_error e :
  createProtocolError error method object_error = Normal e →
  originalMessage e = Some (e_message object_error)
  ∧ ∃ suffix,
      message e = "Protocol error (" +:+ method +:+ "): "
                  +:+ e_message object_error +:+ suffix
      ∧ match e_data object_error with
        | Some data => ∃ text, ToString data = Normal text
                               ∧ suffix = " " +:+ text
        | None => suffix = ""
        end.
Proof.
  unfold createProtocolError. destruct (e_data object_error) as [data|]; simpl.
  - destruct (ToString data) as [text|]; simpl; [|done].
    intros [= <-]. simpl. split; [done|]. exists (" " +:+ text).
    split; [by rewrite !append_assoc | by exists text].
  - intros [= <-]. simpl. split; [done|]. exists "".
    by rewrite append_nil_r.
Qed.

Lemma createProtocolError_contains error method object_error e :
  createProtocolError error method object_error = Normal e →
  contains (message e) method
  ∧ contains (message e) (e_message object_error)
  ∧ ∀ data text, e_data object_error = Some data →
                 ToString data = Normal text → contains (message e) text.
Proof.
  intros (_ & suffix & -> & Hsuffix)%createProtocolError_message. split_and!.
  - apply contains_middle.
  - apply contains_app_r, contains_app_r, contains_middle.
  - intros data text Hd Ht. rewrite Hd in Hsuffix.
    destruct Hsuffix as (text' & Ht' & ->).
    assert (text' = text) as -> by congruence.
    do 4 apply contains_app_r. apply contains_end.
Qed.

(** The settlement of a matched callback, case by case. *)
Lemma settlement_resolve callback object :
  o_error object = None →
  settlement callback object
  = Normal (Resolve (cb_promise callback) (o_result object)).
Proof. intros He. unfold settlement. by rewrite He. Qed.

Lemma settlement_Normal callback object effect :
  settlement callback object = Normal effect →
  (o_error object = None
   ∧ effect = Resolve (cb_promise callback) (o_result object))
  ∨ ∃ object_error e,
      o_error object = Some object_error
      ∧ createProtocolError (cb_error callback) (cb_method callback)
          object_error = Normal e
      ∧ effect = Reject (cb_promise callback) (AProtocolError e).
Proof.
  unfold settlement. destruct (o_error object) as [oe|]; simpl.
  - destruct (createProtocolError _ _ oe) as [e|] eqn:He; simpl; [|done].
    intros [= <-]. right. by exists oe, e.
  - intros [= <-]. by left.
Qed.

Lemma settlement_Throw callback object err :
  settlement callback object = Throw err ↔
  err = TypeError
  ∧ ∃ object_error data,
      o_error object = Some object_error
      ∧ e_data object_error = Some data ∧ renders data = false.
Proof.
  unfold settlement. destruct (o_error object) as [oe|]; simpl.
  - destruct (createProtocolError _ _ oe) as [e|err'] eqn:He; simpl.
    + split; [done|]. intros (-> & oe' & data & [= <-] & Hd & Hr).
      assert (createProtocolError (cb_error callback) (cb_method callback) oe
              = Throw TypeError) as Hthrow
        by (apply createProtocolError_Throw; eauto).
      congruence.
    + apply createProtocolError_Throw in He as (-> & data & Hd & Hr).
      split; [intros [= <-]; eauto 6|by intros [-> _]].
  - split; [done|]. by intros (_ & ? & ? & ? & _).
Qed.

(** A printable response settles the callback. *)
Lemma settlement_printable callback object :
  printable object → ∃ effect, settlement callback object = Normal effect.
Proof.
  intros Hp. destruct (settlement callback object) as [effect|err] eqn:Hs;
    [by eexists|].
  apply settlement_Throw in Hs as (_ & oe & data & He & Hd & Hr).
  rewrite (Hp oe data He Hd) in Hr. done.
Qed.

Lemma settle_Normal callback object effect w :
  settlement callback object = Normal effect →
  settle callback object w = (log [effect] w, Normal tt).
Proof. intros Hs. unfold settle. by rewrite Hs. Qed.

Lemma settle_Throw callback object err w :
  settlement callback object = Throw err →
  settle callback object w = (w, Throw err).
Proof. intros Hs. unfold settle. by rewrite Hs. Qed.

(** ** Evaluating the method bodies *)

Lemma world_eta (w : World) :
  {| lastId := lastId w; sessions := sessions w; closed := closed w;
     callbacks := callbacks w; onmessage := onmessage w; onclose := onclose w;
     store := store w; promises := promises w; trace := trace w |} = w.
Proof. by destruct w. Qed.

Lemma log_nil (w : World) : log [] w = w.
Proof. unfold log, set_trace. rewrite app_nil_r. apply world_eta. Qed.

Lemma log_log (l1 l2 : list Effect) (w : World) :
  log l2 (log l1 w) = log (l1 ++ l2) w.
Proof. unfold log, set_trace. simpl. by rewrite app_assoc. Qed.

Lemma for_of_perform {A : Type} (f : A → Effect) (xs : list A) (w : World) :
  for_of xs (λ x, perform (f x)) w = (log (map f xs) w, Normal tt).
Proof.
  revert w. induction xs as [|x xs IH]; intros w; simpl.
  - by rewrite log_nil.
  - js_unfold. simpl. fold (log [f x] w).
    change (for_of xs (λ x0 w0, (set_trace (trace w0 ++ [f x0]) w0, Normal ())))
      with (for_of xs (λ x0, perform (f x0))).
    rewrite IH. by rewrite log_log.
Qed.

Section Properties.
Context {imports : Imports}.

Lemma Connection_rawSend_eq msg w :
  Connection_rawSend msg w
  = (log [TransportSend msg (lastId w + 1)] (set_lastId (lastId w + 1) w),
     Normal (lastId w + 1)).
Proof. reflexivity. Qed.

Lemma Connection_send_eq method params w :
  Connection_send method params w
  = (set_callbacks
       (JsMap.set (lastId w + 1) (pending_call method w) (callbacks w))
       (after_rawSend
          {| rm_sessionId := None; rm_method := method; rm_params := params |} w),
     Normal (promises w)).
Proof. reflexivity. Qed.

Lemma CDPSession_send_attached this s method params w :
  store w !! this = Some s →
  s_connection s = Some this_connection →
  CDPSession_send this method params w
  = (set_store
       (alter (λ s', set_s_callbacks
                       (JsMap.set (lastId w + 1) (pending_call method w)
                          (s_callbacks s')) s')
          this (store w))
       (after_rawSend
          {| rm_sessionId := s_sessionId s; rm_method := method;
             rm_params := params |} w),
     Normal (Pending (promises w))).
Proof.
  intros Hs Hc. unfold CDPSession_send. js_unfold. simpl.
  rewrite Hs. simpl. rewrite Hc. reflexivity.
Qed.

Lemma CDPSession_send_detached this s method params w :
  store w !! this = Some s →
  s_connection s = None →
  CDPSession_send this method params w
  = (w, Normal (Promise_reject
                  (Error ("Protocol error (" +:+ method
                          +:+ "): Session closed. Most likely the "
                          +:+ s_targetType s +:+ " has been closed.")))).
Proof.
  intros Hs Hc. unfold CDPSession_send. js_unfold. simpl.
  rewrite Hs. simpl. rewrite Hc. reflexivity.
Qed.

Lemma CDPSession_send_dangling this method params w :
  store w !! this = None →
  CDPSession_send this method params w = (w, Throw TypeError).
Proof.
  intros Hs. unfold CDPSession_send. js_unfold. simpl. by rewrite Hs.
Qed.

Lemma truthy_number_Some id : id ≠ 0 → truthy_number (Some id) = true.
Proof. intros Hid. simpl. by apply negb_true_iff, Z.eqb_neq. Qed.

Lemma CDPSession_onMessage_matched this s object id callback w :
  store w !! this = Some s →
  o_id object = Some id → id ≠ 0 →
  JsMap.get id (s_callbacks s) = Some callback →
  CDPSession_onMessage this object w
  = settle callback object
      (set_store
         (alter (λ s', set_s_callbacks (JsMap.delete id (s_callbacks s')) s')
            this (store w)) w).
Proof.
  intros Hs Hid Hnz Hcb.
  unfold CDPSession_onMessage, settle, settlement, evaluate. js_unfold.
  simpl. rewrite Hs, Hid, truthy_number_Some by done. simpl. rewrite Hcb.
  destruct (o_error object) as [object_error|]; [|done]. simpl.
  by destruct (createProtocolError _ _ object_error).
Qed.

Lemma CDPSession_onMessage_unmatched this s object id w :
  store w !! this = Some s →
  o_id object = Some id → id ≠ 0 →
  JsMap.get id (s_callbacks s) = None →
  CDPSession_onMessage this object w
  = match assert false with
    | Some e => (w, Throw e)
    | None =>
        (log [Emit (OnSession this) (EventNamed (o_method object))
                (ArgParams (o_params object))] w,
         Normal tt)
    end.
Proof.
  intros Hs Hid Hnz Hcb. unfold CDPSession_onMessage, call_assert. js_unfold.
  simpl. rewrite Hs, Hid, truthy_number_Some by done. simpl. rewrite Hcb.
  simpl. by destruct (assert false).
Qed.

Lemma CDPSession_onMessage_event this s object w :
  store w !! this = Some s →
  truthy_number (o_id object) = false →
  CDPSession_onMessage this object w
  = match assert true with
    | Some e => (w, Throw e)
    | None =>
        (log [Emit (OnSession this) (EventNamed (o_method object))
                (ArgParams (o_params object))] w,
         Normal tt)
    end.
Proof.
  intros Hs Hid. unfold CDPSession_onMessage, call_assert. js_unfold.
  simpl. rewrite Hs, Hid. simpl. by destruct (assert true).
Qed.

Lemma CDPSession_onMessage_dangling this object w :
  store w !! this = None →
  CDPSession_onMessage this object w = (w, Throw TypeError).
Proof.
  intros Hs. unfold CDPSession_onMessage. js_unfold. simpl. by rewrite Hs.
Qed.

Lemma CDPSession_onClosed_eq this s w :
  store w !! this = Some s →
  CDPSession_onClosed this w
  = (log (closure_effects this s)
       (set_store (alter closed_session this (store w)) w),
     Normal tt).
Proof.
  intros Hs. unfold CDPSession_onClosed, reject.
  unfold mbind at 1. unfold JS_bind at 1. unfold this_session.
  js_unfold. simpl. rewrite Hs. simpl.
  pose proof (for_of_perform
    (λ callback, Reject (cb_promise callback) (target_closed callback))
    (JsMap.values (s_callbacks s)) w) as Hloop.
  unfold perform, modify in Hloop. rewrite Hloop. simpl.
  unfold closure_effects, log, set_trace, set_store. simpl.
  rewrite app_assoc. f_equal. f_equal.
  apply list_eq. intros i. destruct (decide (i = this)) as [->|Hi].
  - by rewrite !list_lookup_alter_eq, Hs.
  - by rewrite !list_lookup_alter_ne.
Qed.

Lemma CDPSession_onClosed_dangling this w :
  store w !! this = None → CDPSession_onClosed this w = (w, Throw TypeError).
Proof.
  intros Hs. unfold CDPSession_onClosed. js_unfold. simpl. by rewrite Hs.
Qed.

(** ** The Connection's router, branch by branch *)

Lemma Connection_onMessage_parts object :
  Connection_onMessage object = (structural_part object ;; routing_part object).
Proof. reflexivity. Qed.

Lemma Connection_onMessage_seq object w :
  Connection_onMessage object w
  = match structural_part object w with
    | (w', Normal _) => routing_part object w'
    | (w', Throw e) => (w', Throw e)
    end.
Proof. reflexivity. Qed.

Lemma structural_part_other object w :
  ¬ is_attach object → ¬ is_detach object →
  structural_part object w = (w, Normal tt).
Proof.
  unfold is_attach, is_detach, structural_part. intros Ha Hd.
  by rewrite !decide_False by done.
Qed.

Lemma routing_part_matched object id callback w :
  truthy_string (o_sessionId object) = false →
  o_id object = Some id → id ≠ 0 →
  JsMap.get id (callbacks w) = Some callback →
  routing_part object w
  = settle callback object (set_callbacks (JsMap.delete id (callbacks w)) w).
Proof.
  intros Hs Hid Hnz Hcb. unfold routing_part, settle, settlement, evaluate.
  rewrite Hs, Hid, truthy_number_Some by done. js_unfold. simpl.
  rewrite Hcb. destruct (o_error object) as [object_error|]; [|done]. simpl.
  by destruct (createProtocolError _ _ object_error).
Qed.

Lemma routing_part_unmatched object id w :
  truthy_string (o_sessionId object) = false →
  o_id object = Some id → id ≠ 0 →
  JsMap.get id (callbacks w) = None →
  routing_part object w = (w, Normal tt).
Proof.
  intros Hs Hid Hnz Hcb. unfold routing_part.
  rewrite Hs, Hid, truthy_number_Some by done. js_unfold. simpl.
  by rewrite Hcb.
Qed.

Lemma routing_part_event object w :
  truthy_string (o_sessionId object) = false →
  truthy_number (o_id object) = false →
  routing_part object w
  = (log [Emit OnConnection (EventNamed (o_method object))
            (ArgParams (o_params object))] w,
     Normal tt).
Proof. intros Hs Hid. unfold routing_part. by rewrite Hs, Hid. Qed.

Lemma routing_part_session object w :
  truthy_string (o_sessionId object) = true →
  routing_part object w
  = match JsMap.get (o_sessionId object) (sessions w) with
    | Some session => CDPSession_onMessage session object w
    | None => (w, Normal tt)
    end.
Proof.
  intros Hs. unfold routing_part. rewrite Hs. js_unfold. simpl.
  by destruct (JsMap.get _ _).
Qed.

(** ** Responses addressed to the Connection *)

Lemma Connection_onMessage_matched object id callback w :
  o_id object = Some id → id ≠ 0 →
  o_sessionId object = None →
  ¬ is_attach object → ¬ is_detach object →
  JsMap.get id (callbacks w) = Some callback →
  Connection_onMessage object w
  = settle callback object (set_callbacks (JsMap.delete id (callbacks w)) w).
Proof.
  intros Hid Hnz Hs Ha Hd Hcb.
  rewrite Connection_onMessage_seq, structural_part_other by done.
  apply routing_part_matched; [by rewrite Hs | done..].
Qed.

Lemma Connection_onMessage_unmatched object id w :
  o_id object = Some id → id ≠ 0 →
  o_sessionId object = None →
  ¬ is_attach object → ¬ is_detach object →
  JsMap.get id (callbacks w) = None →
  Connection_onMessage object w = (w, Normal tt).
Proof.
  intros Hid Hnz Hs Ha Hd Hcb.
  rewrite Connection_onMessage_seq, structural_part_other by done.
  eapply routing_part_unmatched; [by rewrite Hs | done..].
Qed.

(** C2, amended: an envelope with a non-zero [id], no [sessionId] and a
    method other than the two reserved notifications, whose id has an
    entry in the Connection's table, makes the router remove exactly
    that entry; nothing else in the world changes but the trace.  The
    call is settled with exactly one effect: [result] on success,
    otherwise a rejection whose text holds the method name of the call,
    [error.message] and, when present, the rendering of [error.data].
    When [error.data] does not render (it is, or holds in its arrays,
    an object with an own member named toString) the entry is removed
    all the same, nothing is settled and the router fails with a
    TypeError. *)
Theorem C2_response_settles_the_matching_call object id callback w :
  o_id object = Some id → id ≠ 0 →
  o_sessionId object = None →
  ¬ is_attach object → ¬ is_detach object →
  JsMap.get id (callbacks w) = Some callback →
  let removed := set_callbacks (JsMap.delete id (callbacks w)) w in
  JsMap.get id (callbacks removed) = None
  ∧ (∀ j, j ≠ id →
       JsMap.get j (callbacks removed) = JsMap.get j (callbacks w))
  ∧ (o_error object = None →
       Connection_onMessage object w
       = (log [Resolve (cb_promise callback) (o_result object)] removed,
          Normal tt))
  ∧ (∀ object_error, o_error object = Some object_error →
       (∀ data, e_data object_error = Some data → renders data = true) →
       ∃ e suffix,
         Connection_onMessage object w
         = (log [Reject (cb_promise callback) (AProtocolError e)] removed,
            Normal tt)
         ∧ message e
           = "Protocol error (" +:+ cb_method callback +:+ "): "
             +:+ e_message object_error +:+ suffix
         ∧ match e_data object_error with
           | Some data => ∃ text, ToString data = Normal text
                                  ∧ suffix = " " +:+ text
           | None => suffix = ""
           end
         ∧ contains (message e) (cb_method callback)
         ∧ contains (message e) (e_message object_error)
         ∧ ∀ data text, e_data object_error = Some data →
                        ToString data = Normal text →
                        contains (message e) text)
  ∧ (∀ object_error data, o_error object = Some object_error →
       e_data object_error = Some data → renders data = false →
       Connection_onMessage object w = (removed, Throw TypeError)).
Proof.
  intros Hid Hnz Hs Ha Hd Hcb removed.
  pose proof (Connection_onMessage_matched object id callback w
                Hid Hnz Hs Ha Hd Hcb) as Heq.
  fold removed in Heq. split_and!.
  - apply JsMapFacts.get_delete_eq.
  - intros j Hj. by apply JsMapFacts.get_delete_ne.
  - intros He. rewrite Heq. by apply settle_Normal, settlement_resolve.
  - intros object_error He Hr.
    destruct (settlement callback object) as [effect|err] eqn:Hset.
    + apply settlement_Normal in Hset as Hcases.
      destruct Hcases as [[Hnone _]|(oe & e & He' & Hc & ->)]; [congruence|].
      assert (oe = object_error) as -> by congruence.
      destruct (createProtocolError_message _ _ _ _ Hc)
        as (_ & suffix & Hm & Hsuffix).
      exists e, suffix. split; [rewrite Heq; by apply settle_Normal|].
      split; [done|]. split; [done|].
      by apply (createProtocolError_contains (cb_error callback)).
    + apply settlement_Throw in Hset as (_ & oe & data & He' & Hd' & Hr').
      assert (oe = object_error) as -> by congruence.
      rewrite (Hr data Hd') in Hr'. done.
  - intros object_error data He Hd' Hr. rewrite Heq.
    apply settle_Throw, settlement_Throw. eauto 6.
Qed.

(** C9, amended: an envelope with a non-zero [id], no [sessionId] and a
    method other than the two reserved notifications, whose id has no
    entry in the Connection's table, leaves the world as it is: the
    router returns normally, settles nothing, emits nothing, and the
    session map, every table and the counter are untouched. *)
Theorem C9_unmatched_response_is_ignored object id w :
  o_id object = Some id → id ≠ 0 →
  o_sessionId object = None →
  ¬ is_attach object → ¬ is_detach object →
  JsMap.get id (callbacks w) = None →
  Connection_onMessage object w = (w, Normal tt).
Proof.
  intros Hid Hnz Hs Ha Hd Hcb. by eapply Connection_onMessage_unmatched.
Qed.

(** ** Sending on a detached session, sending on a closed Connection *)

(** C4: [send] on a session whose [#connection] is [undefined] hands
    back a promise rejected with an [Error] whose text holds the method
    name and says that the session is closed; the world is left as it
    is, so [_rawSend] did not run, the transport was not called, and
    the session's table and the counter are unchanged. *)
Theorem C4_send_on_detached_session_is_rejected this s method params w :
  store w !! this = Some s →
  s_connection s = None →
  ∃ text,
    CDPSession_send this method params w
    = (w, Normal (Promise_reject (Error text)))
    ∧ contains text method
    ∧ contains text "Session closed".
Proof.
  intros Hs Hc. eexists. split; [by apply CDPSession_send_detached|]. split.
  - apply contains_middle.
  - apply contains_app_r, contains_app_r, contains_app_l.
    by exists "): ", ". Most likely the ".
Qed.

Lemma Connection_onClose_closed w :
  closed w = true → Connection_onClose w = (w, Normal tt).
Proof. intros Hc. unfold Connection_onClose. js_unfold. simpl. by rewrite Hc. Qed.

Lemma Connection_dispose_closed w :
  closed w = true → Connection_dispose w = (log [TransportClose] w, Normal tt).
Proof.
  intros Hc. unfold Connection_dispose. unfold mbind, JS_bind.
  by rewrite Connection_onClose_closed.
Qed.

Lemma CDPSession_detach_attached this s w :
  store w !! this = Some s →
  s_connection s = Some this_connection →
  CDPSession_detach this w
  = Connection_send "Target.detachFromTarget"
      (Some (JObj match s_sessionId s with
                  | Some sid => [("sessionId", JStr sid)]
                  | None => []
                  end)) w.
Proof.
  intros Hs Hc. unfold CDPSession_detach. unfold this_session.
  unfold mbind at 1 2, JS_bind, world, member. rewrite Hs. simpl.
  by rewrite Hc.
Qed.

Lemma CDPSession_detach_detached this s w :
  store w !! this = Some s →
  s_connection s = None →
  CDPSession_detach this w
  = (w, Throw (Error ("Session already detached. Most likely the "
                      +:+ s_targetType s +:+ " has been closed."))).
Proof.
  intros Hs Hc. unfold CDPSession_detach. js_unfold. simpl. rewrite Hs. simpl.
  by rewrite Hc.
Qed.

Lemma CDPSession_detach_dangling this w :
  store w !! this = None → CDPSession_detach this w = (w, Throw TypeError).
Proof.
  intros Hs. unfold CDPSession_detach. js_unfold. simpl. by rewrite Hs.
Qed.

(** In such a world an action can only send or close the transport:
    nothing settles, and no entry leaves the Connection's table. *)
Lemma step_shut w a :
  shut w →
  shut (step w a)
  ∧ lastId w ≤ lastId (step w a)
  ∧ (∃ effects, trace (step w a) = trace w ++ effects
                ∧ Forall (λ e, settles e = None) effects)
  ∧ ∀ id callback, id ≤ lastId w →
      JsMap.get id (callbacks w) = Some callback →
      JsMap.get id (callbacks (step w a)) = Some callback.
Proof.
  intros (Hc & Hm & Hcl).
  assert (∀ method params,
    let w' := (Connection_send method params w).1 in
    shut w' ∧ lastId w ≤ lastId w'
    ∧ (∃ effects, trace w' = trace w ++ effects
                  ∧ Forall (λ e, settles e = None) effects)
    ∧ ∀ id callback, id ≤ lastId w →
        JsMap.get id (callbacks w) = Some callback →
        JsMap.get id (callbacks w') = Some callback) as Hsend.
  { intros method params. rewrite Connection_send_eq. simpl.
    split_and!; [done | lia | | ].
    - eexists. split; [reflexivity|]. by repeat constructor.
    - intros id callback Hid Hget. rewrite JsMapFacts.get_set_ne by lia. done. }
  assert (shut w ∧ lastId w ≤ lastId w
    ∧ (∃ effects, trace w = trace w ++ effects
                  ∧ Forall (λ e, settles e = None) effects)
    ∧ ∀ id callback, id ≤ lastId w →
        JsMap.get id (callbacks w) = Some callback →
        JsMap.get id (callbacks w) = Some callback) as Hsame.
  { split_and!; [done | lia | | done].
    exists []. by rewrite app_nil_r. }
  destruct a as [method params | this method params | this | targetInfo
                | | object | ]; simpl.
  - apply Hsend.
  - destruct (store w !! this) as [s|] eqn:Hs.
    + destruct (s_connection s) as [[]|] eqn:Hconn.
      * erewrite CDPSession_send_attached by done. simpl.
        split_and!; [done | lia | | done].
        eexists. split; [reflexivity|]. by repeat constructor.
      * by erewrite CDPSession_send_detached.
    + by rewrite CDPSession_send_dangling.
  - destruct (store w !! this) as [s|] eqn:Hs.
    + destruct (s_connection s) as [[]|] eqn:Hconn.
      * erewrite CDPSession_detach_attached by done. apply Hsend.
      * by erewrite CDPSession_detach_detached.
    + by rewrite CDPSession_detach_dangling.
  - apply Hsend.
  - rewrite Connection_dispose_closed by done. simpl.
    split_and!; [done | lia | | done].
    eexists. split; [reflexivity|]. by repeat constructor.
  - by rewrite Hm.
  - by rewrite Hcl.
Qed.

Lemma run_shut w actions :
  shut w →
  shut (run w actions)
  ∧ lastId w ≤ lastId (run w actions)
  ∧ (∃ effects, trace (run w actions) = trace w ++ effects
                ∧ Forall (λ e, settles e = None) effects)
  ∧ ∀ id callback, id ≤ lastId w →
      JsMap.get id (callbacks w) = Some callback →
      JsMap.get id (callbacks (run w actions)) = Some callback.
Proof.
  revert w. induction actions as [|a actions IH]; intros w Hw; simpl.
  - split_and!; [done | lia | | done]. exists []. by rewrite app_nil_r.
  - destruct (step_shut w a Hw) as (Hw' & Hle & (l1 & Ht1 & Hl1) & Hkeep).
    destruct (IH _ Hw') as (Hw'' & Hle' & (l2 & Ht2 & Hl2) & Hkeep').
    split_and!; [done | lia | | ].
    + exists (l1 ++ l2). rewrite Ht2, Ht1, app_assoc. split; [done|].
      by apply Forall_app.
    + intros id callback Hid Hget. apply Hkeep'; [lia|]. by apply Hkeep.
Qed.

(** C5 does not hold of the code: after [dispose()] the closed flag is
    set, and yet a [send] runs [_rawSend], hands the message to the
    transport under the next id and hands back a fresh promise instead
    of a rejected one; whatever happens afterwards, the call stays in
    the Connection's table and no effect ever settles anything. *)
Theorem C5_send_on_closed_connection_reaches_transport method params :
  let w := (Connection_dispose new_Connection).1 in
  let w' := (Connection_send method params w).1 in
  closed w = true
  ∧ Connection_send method params w = (w', Normal 0%nat)
  ∧ trace w'
    = trace w
      ++ [TransportSend {| rm_sessionId := None; rm_method := method;
                           rm_params := params |} 1]
  ∧ callbacks w' = [(1, pending_call method w)]
  ∧ ∀ actions,
      JsMap.get 1 (callbacks (run w' actions)) = Some (pending_call method w)
      ∧ ∃ effects, trace (run w' actions) = trace w' ++ effects
                   ∧ Forall (λ e, settles e = None) effects.
Proof.
  cbv zeta.
  assert ((Connection_dispose new_Connection).1
          = log [Emit OnConnection ConnectionEmittedEvents_Disconnected NoArg;
                 TransportClose]
              (set_hooks false (set_closed true new_Connection))) as ->
    by (vm_compute; reflexivity).
  rewrite Connection_send_eq.
  split_and!; [reflexivity..|].
  intros actions.
  match goal with
  | |- context [run ?w0 actions] =>
      destruct (run_shut w0 actions) as (_ & _ & Htrace & Hkeep);
        [by repeat split|]
  end.
  split; [|exact Htrace]. apply Hkeep; [simpl; lia | reflexivity].
Qed.

(** ** The session's router against the Connection's *)

(** C7, amended: on an envelope whose non-zero [id] has an entry in
    its table, the session's router does what the Connection's router
    does on such an envelope: it removes the entry and settles the
    callback by the same effect; when the error of the rejection cannot
    be built, because [error.data] does not render, both remove the
    entry, settle nothing and fail with the same error.  On an id
    without an entry the two differ: the Connection returns without
    doing anything, the session calls [assert] on a false value; if the
    helper throws, the router fails with that error, and if it
    returned, the envelope would be emitted as an event of the
    session. *)
Theorem C7_session_router_on_an_id this s object id w :
  store w !! this = Some s →
  o_id object = Some id → id ≠ 0 →
  match JsMap.get id (s_callbacks s) with
  | Some callback =>
      let removed :=
        set_store
          (alter (λ s', set_s_callbacks (JsMap.delete id (s_callbacks s')) s')
             this (store w)) w in
      match settlement callback object with
      | Normal effect =>
          CDPSession_onMessage this object w = (log [effect] removed, Normal tt)
          ∧ ∀ object' w',
              o_id object' = Some id → o_sessionId object' = None →
              ¬ is_attach object' → ¬ is_detach object' →
              o_error object' = o_error object →
              o_result object' = o_result object →
              JsMap.get id (callbacks w') = Some callback →
              Connection_onMessage object' w'
              = (log [effect]
                   (set_callbacks (JsMap.delete id (callbacks w')) w'),
                 Normal tt)
      | Throw err =>
          err = TypeError
          ∧ CDPSession_onMessage this object w = (removed, Throw err)
          ∧ ∀ object' w',
              o_id object' = Some id → o_sessionId object' = None →
              ¬ is_attach object' → ¬ is_detach object' →
              o_error object' = o_error object →
              o_result object' = o_result object →
              JsMap.get id (callbacks w') = Some callback →
              Connection_onMessage object' w'
              = (set_callbacks (JsMap.delete id (callbacks w')) w', Throw err)
      end
  | None =>
      CDPSession_onMessage this object w
      = match assert false with
        | Some e => (w, Throw e)
        | None =>
            (log [Emit (OnSession this) (EventNamed (o_method object))
                    (ArgParams (o_params object))] w,
             Normal tt)
        end
      ∧ ∀ object' w',
          o_id object' = Some id → o_sessionId object' = None →
          ¬ is_attach object' → ¬ is_detach object' →
          JsMap.get id (callbacks w') = None →
          Connection_onMessage object' w' = (w', Normal tt)
  end.
Proof.
  intros Hs Hid Hnz. destruct (JsMap.get id (s_callbacks s)) as [callback|] eqn:Hcb.
  - assert (∀ object', o_error object' = o_error object →
              o_result object' = o_result object →
              settlement callback object' = settlement callback object) as Hsame.
    { intros object' He Hr. unfold settlement. by rewrite He, Hr. }
    cbv zeta. destruct (settlement callback object) as [effect|err] eqn:Hset.
    + split.
      * erewrite CDPSession_onMessage_matched by done. by apply settle_Normal.
      * intros object' w' Hid' Hs' Ha Hd He Hr Hcb'.
        rewrite (Connection_onMessage_matched object' id callback w') by done.
        apply settle_Normal. by rewrite Hsame.
    + split; [by apply settlement_Throw in Hset as [-> _]|]. split.
      * erewrite CDPSession_onMessage_matched by done. by apply settle_Throw.
      * intros object' w' Hid' Hs' Ha Hd He Hr Hcb'.
        rewrite (Connection_onMessage_matched object' id callback w') by done.
        apply settle_Throw. by rewrite Hsame.
  - split; [by eapply CDPSession_onMessage_unmatched|].
    intros object' w' Hid' Hs' Ha Hd Hcb'.
    by eapply Connection_onMessage_unmatched.
Qed.

(** ** createSession *)

(** C8: [createSession] sends the attach command for the target.  When
    the awaited result carries session id [S], the rest of its body
    returns the session that the map holds under [S] at that moment,
    and throws the creation error when the map holds none.  The result
    arrives when the router processes the response to the command: the
    promise of the call is resolved with it and the session map is left
    as it is, so the session returned is the one registered before the
    response. *)
Theorem C8_createSession_returns_the_registered_session targetInfo w :
  Connection_createSession targetInfo w
  = (set_callbacks
       (JsMap.set (lastId w + 1) (pending_call "Target.attachToTarget" w)
          (callbacks w))
       (after_rawSend
          {| rm_sessionId := None; rm_method := "Target.attachToTarget";
             rm_params :=
               Some (JObj [("targetId", JStr (ti_targetId targetInfo));
                           ("flatten", JBool true)]) |} w),
     Normal (promises w))
  ∧ (∀ fields S w',
       field "sessionId" fields = Some (JStr S) →
       Connection_createSession_resume (Normal (Some (JObj fields))) w'
       = (w', match Connection_session S w' with
              | Some session => Normal session
              | None => Throw (Error "CDPSession creation failed.")
              end))
  ∧ ∀ id callback fields S w',
      id ≠ 0 →
      JsMap.get id (callbacks w') = Some callback →
      field "sessionId" fields = Some (JStr S) →
      let object := response id (Some (JObj fields)) None in
      let w'' := (Connection_onMessage object w').1 in
      trace w'' = trace w' ++ [Resolve (cb_promise callback) (Some (JObj fields))]
      ∧ sessions w'' = sessions w'
      ∧ Connection_createSession_resume (Normal (Some (JObj fields))) w''
        = (w'', match Connection_session S w' with
                | Some session => Normal session
                | None => Throw (Error "CDPSession creation failed.")
                end).
Proof.
  assert (∀ fields S w',
    field "sessionId" fields = Some (JStr S) →
    Connection_createSession_resume (Normal (Some (JObj fields))) w'
    = (w', match Connection_session S w' with
           | Some session => Normal session
           | None => Throw (Error "CDPSession creation failed.")
           end)) as Hresume.
  { intros fields S w' Hf. unfold Connection_createSession_resume.
    js_unfold. simpl. rewrite Hf. simpl. unfold Connection_session.
    by destruct (JsMap.get (Some S) (sessions w')). }
  split_and!; [reflexivity | exact Hresume |].
  intros id callback fields S w' Hnz Hget Hf object w''.
  assert (Connection_onMessage object w'
          = (log [Resolve (cb_promise callback) (Some (JObj fields))]
               (set_callbacks (JsMap.delete id (callbacks w')) w'),
             Normal tt)) as Heq.
  { by rewrite (Connection_onMessage_matched object id callback w'). }
  unfold w''. rewrite Heq. split_and!; [reflexivity | reflexivity |].
  by rewrite (Hresume fields S _ Hf).
Qed.

(** ** Worlds the program can be in *)

Lemma reachable_run w actions : reachable w → reachable (run w actions).
Proof.
  revert w. induction actions as [|a actions IH]; intros w Hw; simpl; [done|].
  apply IH. by constructor.
Qed.

Lemma Inv_new : Inv new_Connection.
Proof.
  split; simpl; try done.
  - intros [|r] id cb Hin; unfold pending in Hin; simpl in Hin;
      by apply elem_of_nil in Hin.
  - intros [|r] o2 id c1 c2 Hin; unfold pending in Hin; simpl in Hin;
      by apply elem_of_nil in Hin.
  - intros [|r]; simpl; apply NoDup_nil_2.
  - intros [|r] id cb Hin; unfold pending in Hin; simpl in Hin;
      by apply elem_of_nil in Hin.
  - intros [|r] o2 i1 i2 c1 c2 Hin; unfold pending in Hin; simpl in Hin;
      by apply elem_of_nil in Hin.
  - intros p (e & Hin & _). by apply elem_of_nil in Hin.
  - apply NoDup_nil_2.
  - intros k r Hin. by apply elem_of_nil in Hin.
Qed.

(** A transition that hands out no id and allocates no promise: tables
    may lose entries, and an effect may settle a promise only if the
    entry that held it is gone. *)
Lemma Inv_shrink w w' :
  Inv w →
  lastId w' = lastId w →
  promises w' = promises w →
  sent_ids (trace w') = sent_ids (trace w) →
  (∀ owner id cb, pending w' owner id cb → pending w owner id cb) →
  (∀ owner, NoDup (JsMap.keys (table w' owner))) →
  (∀ p, settled p (trace w') →
        settled p (trace w)
        ∨ ∃ owner id cb, pending w owner id cb ∧ cb_promise cb = p
                         ∧ ∀ cb', ¬ pending w' owner id cb') →
  NoDup (JsMap.keys (sessions w')) →
  (∀ k r, (k, r) ∈ sessions w' →
          ∃ s, store w' !! r = Some s ∧ s_sessionId s = k) →
  Inv w'.
Proof.
  intros HI Hid Hpr Hsent Hsub Hkeys Hset Hsk Hss. split.
  - rewrite Hid. apply HI.
  - rewrite Hsent, Hid. apply HI.
  - intros owner id cb Hp. rewrite Hid. eapply inv_ids; eauto.
  - intros o1 o2 id c1 c2 H1 H2. eapply inv_owner; eauto.
  - done.
  - intros owner id cb Hp. rewrite Hpr. eapply inv_promises; eauto.
  - intros o1 o2 i1 i2 c1 c2 H1 H2. eapply inv_promise_owner; eauto.
  - intros p Hp. rewrite Hpr. destruct (Hset p Hp) as [Hold|Hnew].
    + destruct (inv_settled w HI p Hold) as [Hlt Hne]. split; [done|].
      intros owner id cb Hpend. eapply Hne; eauto.
    + destruct Hnew as (owner & id & cb & Hpend & <- & Hgone). split.
      * eapply inv_promises; eauto.
      * intros owner' id' cb' Hpend' Heq.
        destruct (inv_promise_owner w HI owner' owner id' id cb' cb)
          as [-> ->]; eauto.
        by eapply Hgone.
  - done.
  - done.
Qed.

(** The session map only names session objects of the store, each
    under its own id; this survives any change of the store that keeps
    the objects and their ids. *)
Lemma sessions_named_mono w (registered : JsMap.t (option string) ref)
    (st : list CDPSession) :
  Inv w →
  (∀ k r, (k, r) ∈ registered → (k, r) ∈ sessions w) →
  (∀ r s, store w !! r = Some s →
          ∃ s', st !! r = Some s' ∧ s_sessionId s' = s_sessionId s) →
  ∀ k r, (k, r) ∈ registered → ∃ s, st !! r = Some s ∧ s_sessionId s = k.
Proof.
  intros HI Hsub Hst k r Hin.
  destruct (inv_sessions w HI k r (Hsub _ _ Hin)) as (s & Hs & Hk).
  destruct (Hst r s Hs) as (s' & Hs' & Hk'). exists s'. split; [done|].
  congruence.
Qed.

Lemma sent_ids_app l1 l2 : sent_ids (l1 ++ l2) = sent_ids l1 ++ sent_ids l2.
Proof. apply omap_app. Qed.

Lemma sent_ids_silent l : Forall silent l → sent_ids l = [].
Proof.
  induction 1 as [|e l He _ IH]; [done|]. simpl.
  destruct e; simpl in *; done.
Qed.

Lemma settled_app p l1 l2 : settled p (l1 ++ l2) ↔ settled p l1 ∨ settled p l2.
Proof.
  unfold settled. split.
  - intros (e & [?|?]%elem_of_app & Hs); [left | right]; eauto.
  - intros [(e & ? & ?)|(e & ? & ?)]; exists e; rewrite elem_of_app; eauto.
Qed.

Lemma settled_silent p l : Forall silent l → ¬ settled p l.
Proof.
  intros Hl (e & Hin & Hs). rewrite Forall_forall in Hl.
  specialize (Hl e Hin). by destruct e.
Qed.

Lemma Inv_log_silent w l : Inv w → Forall silent l → Inv (log l w).
Proof.
  intros HI Hl. apply (Inv_shrink w); try done; simpl.
  - by rewrite sent_ids_app, (sent_ids_silent l), app_nil_r.
  - apply HI.
  - intros p [?|Hp]%settled_app; [by left|]. by apply settled_silent in Hp.
  - apply HI.
  - apply HI.
Qed.

Lemma Inv_set_closed w b : Inv w → Inv (set_closed b w).
Proof. intros HI. apply (Inv_shrink w); try done; try apply HI. by left. Qed.

Lemma Inv_set_hooks w b : Inv w → Inv (set_hooks b w).
Proof. intros HI. apply (Inv_shrink w); try done; try apply HI. by left. Qed.

Lemma Inv_sessions_delete w k :
  Inv w → Inv (set_sessions (JsMap.delete k (sessions w)) w).
Proof.
  intros HI. apply (Inv_shrink w); try done; try apply HI; simpl.
  - by left.
  - apply JsMapFacts.NoDup_keys_delete, HI.
  - intros k' r [Hin _]%JsMapFacts.elem_of_delete. by apply HI.
Qed.

Lemma Inv_sessions_clear w :
  Inv w → Inv (set_sessions (JsMap.clear (sessions w)) w).
Proof.
  intros HI. apply (Inv_shrink w); try done; try apply HI; simpl.
  - by left.
  - apply NoDup_nil_2.
  - intros k' r Hin. by apply elem_of_nil in Hin.
Qed.

Lemma table_alter w r g owner :
  table (set_store (alter g r (store w)) w) owner
  = match owner with
    | OnConnection => callbacks w
    | OnSession r' =>
        if decide (r' = r)
        then match store w !! r with
             | Some s => s_callbacks (g s)
             | None => []
             end
        else table w owner
    end.
Proof.
  destruct owner as [|r']; simpl; [done|]. case_decide as Hr.
  - subst r'. rewrite list_lookup_alter_eq. by destruct (store w !! r).
  - by rewrite list_lookup_alter_ne.
Qed.

Lemma store_alter_named w r g :
  (∀ s, s_sessionId (g s) = s_sessionId s) →
  ∀ r' s, store w !! r' = Some s →
    ∃ s', alter g r (store w) !! r' = Some s' ∧ s_sessionId s' = s_sessionId s.
Proof.
  intros Hg r' s Hs. destruct (decide (r' = r)) as [->|Hr].
  - rewrite list_lookup_alter_eq, Hs. simpl. eauto.
  - rewrite list_lookup_alter_ne by done. eauto.
Qed.

(** A session's table loses entries, and the effects settle only
    promises whose entries are gone. *)
Lemma Inv_session_shrink w r s g l :
  Inv w →
  store w !! r = Some s →
  (∀ s', s_sessionId (g s') = s_sessionId s') →
  (∀ id cb, (id, cb) ∈ s_callbacks (g s) → (id, cb) ∈ s_callbacks s) →
  NoDup (JsMap.keys (s_callbacks (g s))) →
  sent_ids l = [] →
  (∀ p, settled p l →
        ∃ id cb, (id, cb) ∈ s_callbacks s ∧ cb_promise cb = p
                 ∧ ∀ cb', (id, cb') ∉ s_callbacks (g s)) →
  Inv (log l (set_store (alter g r (store w)) w)).
Proof.
  intros HI Hs Hg Hsub Hnd Hsent Hset. apply (Inv_shrink w); try done.
  - simpl. by rewrite sent_ids_app, Hsent, app_nil_r.
  - intros owner id cb. unfold pending.
    change (table (log l ?w') owner) with (table w' owner).
    rewrite table_alter. destruct owner as [|r']; [done|].
    case_decide as Hr; [|done]. subst r'. rewrite Hs. simpl. rewrite Hs. auto.
  - intros owner. change (table (log l ?w') owner) with (table w' owner).
    rewrite table_alter. destruct owner as [|r']; [apply (inv_table_keys w HI OnConnection)|].
    case_decide as Hr; [|apply (inv_table_keys w HI (OnSession r'))].
    by rewrite Hs.
  - simpl. intros p [?|Hp]%settled_app; [by left|]. right.
    destruct (Hset p Hp) as (id & cb & Hin & Hpr & Hgone).
    exists (OnSession r), id, cb. split_and!; [| done |].
    + unfold pending. simpl. by rewrite Hs.
    + intros cb'. unfold pending.
      change (table (log l ?w') ?o) with (table w' o).
      rewrite table_alter, decide_True, Hs by done. apply Hgone.
  - apply HI.
  - simpl. eapply sessions_named_mono; [done | done |].
    by apply store_alter_named.
Qed.

(** The same for the Connection's table. *)
Lemma Inv_callbacks_shrink w (m : JsMap.t Z ConnectionCallback) l :
  Inv w →
  (∀ id cb, (id, cb) ∈ m → (id, cb) ∈ callbacks w) →
  NoDup (JsMap.keys m) →
  sent_ids l = [] →
  (∀ p, settled p l →
        ∃ id cb, (id, cb) ∈ callbacks w ∧ cb_promise cb = p
                 ∧ ∀ cb', (id, cb') ∉ m) →
  Inv (log l (set_callbacks m w)).
Proof.
  intros HI Hsub Hnd Hsent Hset. apply (Inv_shrink w); try done.
  - simpl. by rewrite sent_ids_app, Hsent, app_nil_r.
  - intros [|r'] id cb; unfold pending; simpl; auto.
  - intros [|r']; simpl; [done|]. apply (inv_table_keys w HI (OnSession r')).
  - simpl. intros p [?|Hp]%settled_app; [by left|]. right.
    destruct (Hset p Hp) as (id & cb & Hin & Hpr & Hgone).
    by exists OnConnection, id, cb.
  - apply HI.
  - apply HI.
Qed.

Lemma settled_singleton p e : settled p [e] ↔ settles e = Some p.
Proof.
  unfold settled. split.
  - by intros (e' & ->%list_elem_of_singleton & ?).
  - intros ?. exists e. split; [apply list_elem_of_singleton|]; done.
Qed.

Lemma settles_settlement callback object e :
  settlement callback object = Normal e →
  settles e = Some (cb_promise callback).
Proof.
  by intros [[_ ->]|(oe & e' & _ & _ & ->)]%settlement_Normal.
Qed.

Lemma settle_world callback object w :
  (settle callback object w).1 = log (settlement_effects callback object) w.
Proof.
  unfold settle, settlement_effects.
  destruct (settlement callback object); simpl; [done|].
  by rewrite log_nil.
Qed.

Lemma settlement_effects_Normal callback object e :
  settlement callback object = Normal e →
  settlement_effects callback object = [e].
Proof. intros Hs. unfold settlement_effects. by rewrite Hs. Qed.

Lemma settlement_effects_Throw callback object err :
  settlement callback object = Throw err →
  settlement_effects callback object = [].
Proof. intros Hs. unfold settlement_effects. by rewrite Hs. Qed.

Lemma settlement_effects_elem callback object e :
  e ∈ settlement_effects callback object ↔ settlement callback object = Normal e.
Proof.
  unfold settlement_effects. destruct (settlement callback object) as [e'|err].
  - rewrite list_elem_of_singleton. split; [by intros ->|by intros [= ->]].
  - split; [by intros ?%elem_of_nil|done].
Qed.

Lemma sent_ids_settlement callback object :
  sent_ids (settlement_effects callback object) = [].
Proof.
  unfold settlement_effects.
  destruct (settlement callback object) as [e|err] eqn:Hs; [|done].
  by apply settlement_Normal in Hs as [[_ ->]|(oe & e' & _ & _ & ->)].
Qed.

Lemma settled_settlement p callback object :
  settled p (settlement_effects callback object) → p = cb_promise callback.
Proof.
  intros (e & He%settlement_effects_elem & Hp).
  apply settles_settlement in He. congruence.
Qed.

Lemma sent_ids_rejections (cbs : list ConnectionCallback) :
  sent_ids (map (λ cb, Reject (cb_promise cb) (target_closed cb)) cbs) = [].
Proof. induction cbs as [|cb cbs IH]; [done | apply IH]. Qed.

Lemma settled_rejections p (m : JsMap.t Z ConnectionCallback) :
  settled p (map (λ cb, Reject (cb_promise cb) (target_closed cb)) (JsMap.values m)) →
  ∃ id cb, (id, cb) ∈ m ∧ cb_promise cb = p.
Proof.
  intros (e & (cb & -> & Hcb)%list_elem_of_fmap_1 & [= <-]).
  apply JsMapFacts.values_elem_of in Hcb as [id Hin]. eauto.
Qed.

Lemma Inv_connection_settled w id callback object :
  Inv w →
  JsMap.get id (callbacks w) = Some callback →
  Inv (settle callback object
         (set_callbacks (JsMap.delete id (callbacks w)) w)).1.
Proof.
  intros HI Hget. rewrite settle_world.
  apply Inv_callbacks_shrink; [done | | | |].
  - by intros id' cb [? _]%JsMapFacts.elem_of_delete.
  - apply JsMapFacts.NoDup_keys_delete, (inv_table_keys w HI OnConnection).
  - apply sent_ids_settlement.
  - intros p ->%settled_settlement.
    exists id, callback. split_and!; [|done|].
    + by apply JsMapFacts.get_elem_of.
    + intros cb' [_ ?]%JsMapFacts.elem_of_delete. done.
Qed.

Lemma Inv_connection_rejected w :
  Inv w →
  Inv (set_callbacks (JsMap.clear (callbacks w))
         (log (map (λ cb, Reject (cb_promise cb) (target_closed cb))
                 (JsMap.values (callbacks w))) w)).
Proof.
  intros HI.
  change (Inv (log (map (λ cb, Reject (cb_promise cb) (target_closed cb))
                      (JsMap.values (callbacks w)))
                 (set_callbacks [] w))).
  apply Inv_callbacks_shrink; [done | | | |].
  - intros id cb Hin. by apply elem_of_nil in Hin.
  - apply NoDup_nil_2.
  - apply sent_ids_rejections.
  - intros p (id & cb & Hin & Hp)%settled_rejections.
    exists id, cb. split_and!; [done..|]. intros cb'. apply not_elem_of_nil.
Qed.

Lemma Inv_session_settled w r s id callback object :
  Inv w →
  store w !! r = Some s →
  JsMap.get id (s_callbacks s) = Some callback →
  Inv (settle callback object
         (set_store
            (alter (λ s', set_s_callbacks (JsMap.delete id (s_callbacks s')) s')
               r (store w)) w)).1.
Proof.
  intros HI Hs Hget. rewrite settle_world.
  apply (Inv_session_shrink w r s); try done; simpl.
  - by intros id' cb [? _]%JsMapFacts.elem_of_delete.
  - apply JsMapFacts.NoDup_keys_delete.
    pose proof (inv_table_keys w HI (OnSession r)) as Hnd. simpl in Hnd.
    by rewrite Hs in Hnd.
  - apply sent_ids_settlement.
  - intros p ->%settled_settlement.
    exists id, callback. split_and!; [|done|].
    + by apply JsMapFacts.get_elem_of.
    + intros cb' [_ ?]%JsMapFacts.elem_of_delete. done.
Qed.

Lemma Inv_session_closed w r s :
  Inv w →
  store w !! r = Some s →
  Inv (log (closure_effects r s)
         (set_store (alter closed_session r (store w)) w)).
Proof.
  intros HI Hs.
  apply (Inv_session_shrink w r s); try done; simpl.
  - intros id cb Hin. by apply elem_of_nil in Hin.
  - apply NoDup_nil_2.
  - unfold closure_effects. by rewrite sent_ids_app, sent_ids_rejections.
  - unfold closure_effects. intros p [Hp|Hp]%settled_app.
    + apply settled_rejections in Hp as (id & cb & Hin & Hp).
      exists id, cb. split_and!; [done..|]. intros cb'. apply not_elem_of_nil.
    + apply settled_singleton in Hp. done.
Qed.

(** A [send]: one id handed to the transport, one promise allocated,
    one entry added to the table of the sender. *)
Lemma Inv_grow w w' owner0 cb0 msg :
  Inv w →
  lastId w' = lastId w + 1 →
  promises w' = S (promises w) →
  trace w' = trace w ++ [TransportSend msg (lastId w + 1)] →
  cb_promise cb0 = promises w →
  (∀ owner,
     table w' owner
     = if decide (owner = owner0)
       then table w owner ++ [(lastId w + 1, cb0)]
       else table w owner) →
  NoDup (JsMap.keys (sessions w')) →
  (∀ k r, (k, r) ∈ sessions w' →
          ∃ s, store w' !! r = Some s ∧ s_sessionId s = k) →
  Inv w'.
Proof.
  intros HI Hid Hpr Htr Hcb Htab Hsk Hss.
  pose proof (inv_counter w HI) as H0.
  assert (∀ owner id cb,
    pending w' owner id cb →
    pending w owner id cb
    ∨ (owner = owner0 ∧ id = lastId w + 1 ∧ cb = cb0)) as Hpend.
  { intros owner id cb. unfold pending. rewrite Htab. case_decide.
    - intros [?|[= -> ->]%list_elem_of_singleton]%elem_of_app; auto.
    - auto. }
  split.
  - lia.
  - rewrite Htr, sent_ids_app, (inv_sent w HI), Hid. simpl.
    rewrite (seqZ_app 1 (lastId w) 1) by lia. f_equal.
    rewrite seqZ_cons by lia. rewrite seqZ_nil by lia. f_equal. lia.
  - intros owner id cb [Hold|(_ & -> & _)]%Hpend; [|lia].
    apply (inv_ids w HI) in Hold. lia.
  - intros o1 o2 id c1 c2 [H1|(-> & -> & ->)]%Hpend [H2|(-> & Hi & ->)]%Hpend.
    + eapply inv_owner; eauto.
    + apply (inv_ids w HI) in H1. lia.
    + apply (inv_ids w HI) in H2. lia.
    + done.
  - intros owner. rewrite Htab. case_decide; [|apply HI].
    unfold JsMap.keys. rewrite map_app. apply NoDup_app. split_and!.
    + apply (inv_table_keys w HI owner).
    + intros id ([id' cb] & ? & Hin)%list_elem_of_fmap_1 Hid'. simpl in *. subst.
      apply list_elem_of_singleton in Hid'. subst id'.
      apply (inv_ids w HI) in Hin. lia.
    + apply NoDup_singleton.
  - intros owner id cb [Hold|(_ & _ & ->)]%Hpend; [|lia].
    apply (inv_promises w HI) in Hold. lia.
  - intros o1 o2 i1 i2 c1 c2 [H1|(-> & -> & ->)]%Hpend [H2|(-> & -> & ->)]%Hpend Heq.
    + eapply inv_promise_owner; eauto.
    + apply (inv_promises w HI) in H1. lia.
    + apply (inv_promises w HI) in H2. lia.
    + done.
  - intros p Hp. rewrite Htr in Hp. apply settled_app in Hp as [Hp|Hp].
    + destruct (inv_settled w HI p Hp) as [Hlt Hne]. split; [lia|].
      intros owner id cb [Hold|(_ & _ & ->)]%Hpend; [by eapply Hne | lia].
    + by apply settled_singleton in Hp.
  - done.
  - done.
Qed.

Lemma fresh_id_not_pending w owner :
  Inv w → lastId w + 1 ∉ JsMap.keys (table w owner).
Proof.
  intros HI ([id cb] & Hid & Hin)%list_elem_of_fmap_1. simpl in Hid. subst id.
  apply (inv_ids w HI owner) in Hin. lia.
Qed.

Lemma Inv_connection_sent w method msg :
  Inv w →
  Inv (set_callbacks
         (JsMap.set (lastId w + 1) (pending_call method w) (callbacks w))
         (after_rawSend msg w)).
Proof.
  intros HI.
  apply (Inv_grow w _ OnConnection (pending_call method w) msg);
    try done; try apply HI.
  intros [|r]; simpl; [|done].
  apply JsMapFacts.set_fresh, (fresh_id_not_pending w OnConnection HI).
Qed.

Lemma Inv_session_sent w r s method msg :
  Inv w →
  store w !! r = Some s →
  Inv (set_store
         (alter (λ s', set_s_callbacks
                         (JsMap.set (lastId w + 1) (pending_call method w)
                            (s_callbacks s')) s')
            r (store w))
         (after_rawSend msg w)).
Proof.
  intros HI Hs.
  apply (Inv_grow w _ (OnSession r) (pending_call method w) msg);
    try done; try apply HI.
  - intros owner.
    change (table (set_store ?st (after_rawSend msg w)) owner)
      with (table (set_store st w) owner).
    rewrite table_alter. destruct owner as [|r']; [done|].
    destruct (decide (r' = r)) as [->|Hr].
    + rewrite decide_True by done. simpl. rewrite Hs. simpl.
      pose proof (fresh_id_not_pending w (OnSession r) HI) as Hfresh.
      simpl in Hfresh. rewrite Hs in Hfresh.
      by apply JsMapFacts.set_fresh.
    + rewrite decide_False by congruence. done.
  - simpl. eapply sessions_named_mono; [done | done |].
    by apply store_alter_named.
Qed.

Lemma Inv_attached w targetType sessionId l :
  Inv w →
  Forall silent l →
  Inv (log l
         (set_sessions (JsMap.set sessionId (length (store w)) (sessions w))
            (set_store (store w ++ [fresh_session targetType sessionId]) w))).
Proof.
  intros HI Hl. apply (Inv_shrink w); try done; simpl.
  - by rewrite sent_ids_app, (sent_ids_silent l), app_nil_r.
  - intros [|r] id cb; unfold pending; simpl; [done|].
    destruct (store w !! r) as [s|] eqn:Hs.
    + by rewrite (lookup_app_l_Some _ _ _ _ Hs).
    + apply lookup_ge_None in Hs.
      destruct (decide (r = length (store w))) as [->|Hr].
      * rewrite list_lookup_middle by done. simpl. by intros ?%elem_of_nil.
      * rewrite lookup_ge_None_2; [by intros ?%elem_of_nil|].
        rewrite length_app. simpl. lia.
  - intros [|r]; simpl; [apply (inv_table_keys w HI OnConnection)|].
    destruct (store w !! r) as [s|] eqn:Hs.
    + rewrite (lookup_app_l_Some _ _ _ _ Hs).
      pose proof (inv_table_keys w HI (OnSession r)) as Hnd. simpl in Hnd.
      by rewrite Hs in Hnd.
    + apply lookup_ge_None in Hs.
      destruct (decide (r = length (store w))) as [->|Hr].
      * rewrite list_lookup_middle by done. apply NoDup_nil_2.
      * rewrite lookup_ge_None_2; [apply NoDup_nil_2|].
        rewrite length_app. simpl. lia.
  - intros p [?|Hp]%settled_app; [by left|]. by apply settled_silent in Hp.
  - apply JsMapFacts.NoDup_keys_set, HI.
  - intros k r [[-> ->]|Hin]%JsMapFacts.elem_of_set.
    + rewrite list_lookup_middle by done. eauto.
    + destruct (inv_sessions w HI k r Hin) as (s & Hs & Hk).
      exists s. split; [|done]. by apply lookup_app_l_Some.
Qed.

(** ** The notifications, evaluated *)

Lemma notify_silent event session object registered :
  Forall silent (notify event session object registered).
Proof.
  unfold notify. destruct (JsMap.get _ _); by repeat constructor.
Qed.

Lemma structural_part_attach object params targetInfo w :
  is_attach object →
  o_params object = Some params →
  p_targetInfo params = Some targetInfo →
  structural_part object w
  = (let registered :=
       JsMap.set (p_sessionId params) (length (store w)) (sessions w) in
     log (notify "sessionattached" (length (store w)) object registered)
       (set_sessions registered
          (set_store
             (store w ++ [fresh_session (ti_type targetInfo) (p_sessionId params)])
             w)),
     Normal tt).
Proof.
  unfold is_attach. intros Ha Hp Ht. unfold structural_part, notify.
  rewrite decide_True, Hp by done. js_unfold. simpl. rewrite Ht. simpl.
  destruct (JsMap.get (o_sessionId object) _); unfold log, set_trace; simpl;
    [rewrite <- app_assoc|]; reflexivity.
Qed.

Lemma structural_part_attach_malformed object w :
  is_attach object →
  (o_params object = None
   ∨ ∃ params, o_params object = Some params ∧ p_targetInfo params = None) →
  structural_part object w = (w, Throw TypeError).
Proof.
  unfold is_attach. intros Ha Hbad. unfold structural_part.
  rewrite decide_True by done. js_unfold.
  destruct Hbad as [->|(params & -> & Ht)]; simpl; [done|]. by rewrite Ht.
Qed.

Lemma structural_part_detach object params session s w :
  is_detach object →
  o_params object = Some params →
  JsMap.get (p_sessionId params) (sessions w) = Some session →
  store w !! session = Some s →
  structural_part object w
  = (let registered := JsMap.delete (p_sessionId params) (sessions w) in
     log (notify "sessiondetached" session object registered)
       (set_sessions registered
          (log (closure_effects session s)
             (set_store (alter closed_session session (store w)) w))),
     Normal tt).
Proof.
  unfold is_detach. intros Hd Hp Hg Hs. unfold structural_part, notify.
  rewrite decide_False, decide_True, Hp by (done || by rewrite Hd).
  unfold member. unfold mbind at 1 2 3, JS_bind at 1 2 3, mret, JS_ret, world.
  rewrite Hg. unfold mbind at 1, JS_bind at 1.
  rewrite (CDPSession_onClosed_eq session s w Hs).
  js_unfold. simpl.
  destruct (JsMap.get (o_sessionId object) _); unfold log, set_trace; simpl;
    [rewrite <- !app_assoc|]; reflexivity.
Qed.

Lemma structural_part_detach_unknown object params w :
  is_detach object →
  o_params object = Some params →
  JsMap.get (p_sessionId params) (sessions w) = None →
  structural_part object w = (w, Normal tt).
Proof.
  unfold is_detach. intros Hd Hp Hg. unfold structural_part.
  rewrite decide_False, decide_True, Hp by (done || by rewrite Hd).
  js_unfold. simpl. by rewrite Hg.
Qed.

Lemma structural_part_detach_malformed object w :
  is_detach object →
  o_params object = None →
  structural_part object w = (w, Throw TypeError).
Proof.
  unfold is_detach. intros Hd Hp. unfold structural_part.
  rewrite decide_False, decide_True, Hp by (done || by rewrite Hd).
  done.
Qed.

Lemma structural_part_detach_dangling object params session w :
  is_detach object →
  o_params object = Some params →
  JsMap.get (p_sessionId params) (sessions w) = Some session →
  store w !! session = None →
  structural_part object w = (w, Throw TypeError).
Proof.
  unfold is_detach. intros Hd Hp Hg Hs. unfold structural_part.
  rewrite decide_False, decide_True, Hp by (done || by rewrite Hd).
  unfold member. unfold mbind at 1 2 3, JS_bind at 1 2 3, mret, JS_ret, world.
  rewrite Hg. unfold mbind at 1, JS_bind at 1.
  by rewrite (CDPSession_onClosed_dangling session w Hs).
Qed.

Lemma truthy_number_cases (x : option Z) :
  (truthy_number x = false) ∨ (∃ id, x = Some id ∧ id ≠ 0).
Proof.
  destruct x as [id|]; [|by left]. destruct (decide (id = 0)) as [->|Hid].
  - by left.
  - right. eauto.
Qed.

Lemma Connection_onClose_open w :
  closed w = false →
  Connection_onClose w
  = match for_of (JsMap.values (sessions w)) CDPSession_onClosed
            (connection_closed w) with
    | (w', Normal _) =>
        (log [Emit OnConnection ConnectionEmittedEvents_Disconnected NoArg]
           (set_sessions (JsMap.clear (sessions w')) w'),
         Normal tt)
    | (w', Throw e) => (w', Throw e)
    end.
Proof.
  intros Hc. unfold Connection_onClose.
  unfold mbind at 1, JS_bind at 1, world. rewrite Hc.
  unfold mbind at 1 2 3 4, JS_bind at 1 2 3 4, modify, world.
  unfold reject. rewrite for_of_perform.
  unfold mbind at 1 2 3, JS_bind at 1 2 3, modify, world.
  change (sessions (set_callbacks _ _)) with (sessions w).
  lazymatch goal with
  | |- context [for_of _ CDPSession_onClosed ?w0] =>
      change w0 with (connection_closed w)
  end.
  destruct (for_of (JsMap.values (sessions w)) CDPSession_onClosed
              (connection_closed w)) as [w' [[]|e]]; reflexivity.
Qed.

(** ** Induction over what the methods do to the world

    Every method is a sequence of the ten changes of [stable]: a stable
    property is kept by every method, hence by every action that
    attaches sessions under allowed ids only. *)

Section Stable.
Variable ok : Envelope → Prop.
Variable allowed : option string → Prop.
Variable P : World → Prop.
Hypothesis HP : stable_when ok allowed P.

Lemma stable_Connection_send method params w :
  P w → P (Connection_send method params w).1.
Proof. intros Hw. rewrite Connection_send_eq. by apply HP. Qed.

Lemma stable_CDPSession_send this method params w :
  P w → P (CDPSession_send this method params w).1.
Proof.
  intros Hw. destruct (store w !! this) as [s|] eqn:Hs.
  - destruct (s_connection s) as [[]|] eqn:Hc.
    + erewrite CDPSession_send_attached by done. by eapply HP.
    + by erewrite CDPSession_send_detached.
  - by rewrite CDPSession_send_dangling.
Qed.

Lemma stable_CDPSession_detach this w :
  P w → P (CDPSession_detach this w).1.
Proof.
  intros Hw. destruct (store w !! this) as [s|] eqn:Hs.
  - destruct (s_connection s) as [[]|] eqn:Hc.
    + erewrite CDPSession_detach_attached by done.
      by apply stable_Connection_send.
    + by erewrite CDPSession_detach_detached.
  - by rewrite CDPSession_detach_dangling.
Qed.

Lemma stable_CDPSession_onClosed this w :
  P w → this ∈ JsMap.values (sessions w) → P (CDPSession_onClosed this w).1.
Proof.
  intros Hw Hreg. destruct (store w !! this) as [s|] eqn:Hs.
  - erewrite CDPSession_onClosed_eq by done. by apply HP.
  - by rewrite CDPSession_onClosed_dangling.
Qed.

Lemma stable_CDPSession_onMessage this object w :
  ok object → P w → this ∈ JsMap.values (sessions w) →
  P (CDPSession_onMessage this object w).1.
Proof.
  intros Hok Hw Hreg. destruct (store w !! this) as [s|] eqn:Hs.
  - destruct (truthy_number_cases (o_id object)) as [Hf|(id & Hid & Hnz)].
    + erewrite CDPSession_onMessage_event by done.
      destruct (assert true); [done|]. apply HP; [done|].
      by repeat constructor.
    + destruct (JsMap.get id (s_callbacks s)) as [callback|] eqn:Hcb.
      * erewrite CDPSession_onMessage_matched by done. by eapply HP.
      * erewrite CDPSession_onMessage_unmatched by done.
        destruct (assert false); [done|]. apply HP; [done|].
        by repeat constructor.
  - by rewrite CDPSession_onMessage_dangling.
Qed.

Lemma stable_structural_part object w :
  (∀ k, attach_key (Transport_message object) = Some k → allowed k) →
  P w → P (structural_part object w).1.
Proof.
  intros Hk Hw. destruct (decide (is_attach object)) as [Ha|Ha].
  - destruct (o_params object) as [params|] eqn:Hp.
    + destruct (p_targetInfo params) as [targetInfo|] eqn:Ht.
      * erewrite structural_part_attach by done. simpl.
        apply HP; [|apply notify_silent]. apply HP; [|done].
        apply Hk. simpl. by rewrite decide_True, Hp.
      * rewrite structural_part_attach_malformed; [done.. | right; eauto].
    + rewrite structural_part_attach_malformed; [done.. | by left].
  - destruct (decide (is_detach object)) as [Hd|Hd].
    + destruct (o_params object) as [params|] eqn:Hp.
      * destruct (JsMap.get (p_sessionId params) (sessions w))
          as [session|] eqn:Hg.
        -- destruct (store w !! session) as [s|] eqn:Hs.
           ++ erewrite structural_part_detach by done. simpl.
              apply HP; [|apply notify_silent].
              apply (st_unregistered ok allowed P HP
                       (log (closure_effects session s)
                          (set_store (alter closed_session session (store w)) w))).
              apply HP; [done | | done].
              eapply JsMapFacts.elem_of_values, JsMapFacts.get_elem_of, Hg.
           ++ by erewrite structural_part_detach_dangling.
        -- by erewrite structural_part_detach_unknown.
      * by rewrite structural_part_detach_malformed.
    + by rewrite structural_part_other.
Qed.

Lemma stable_routing_part object w :
  ok object → P w → P (routing_part object w).1.
Proof.
  intros Hok Hw. destruct (truthy_string (o_sessionId object)) eqn:Hs.
  - rewrite routing_part_session by done.
    destruct (JsMap.get (o_sessionId object) (sessions w)) as [r|] eqn:Hg;
      [|done].
    apply stable_CDPSession_onMessage; [done..|].
    eapply JsMapFacts.elem_of_values, JsMapFacts.get_elem_of, Hg.
  - destruct (truthy_number_cases (o_id object)) as [Hf|(id & Hid & Hnz)].
    + rewrite routing_part_event by done. apply HP; [done|].
      by repeat constructor.
    + destruct (JsMap.get id (callbacks w)) as [callback|] eqn:Hcb.
      * erewrite routing_part_matched by done. by apply HP.
      * by erewrite routing_part_unmatched.
Qed.

Lemma stable_when_Connection_onMessage object w :
  ok object →
  (∀ k, attach_key (Transport_message object) = Some k → allowed k) →
  P w → P (Connection_onMessage object w).1.
Proof.
  intros Hok Hk Hw. rewrite Connection_onMessage_seq.
  pose proof (stable_structural_part object w Hk Hw) as H1.
  destruct (structural_part object w) as [w' [[]|e]]; simpl in *; [|done].
  by apply stable_routing_part.
Qed.

Lemma sessions_CDPSession_onClosed this w :
  sessions (CDPSession_onClosed this w).1 = sessions w.
Proof.
  destruct (store w !! this) as [s|] eqn:Hs.
  - by erewrite CDPSession_onClosed_eq.
  - by rewrite CDPSession_onClosed_dangling.
Qed.

Lemma stable_closures (rs : list ref) w :
  P w → (∀ r, r ∈ rs → r ∈ JsMap.values (sessions w)) →
  P (for_of rs CDPSession_onClosed w).1.
Proof.
  revert w. induction rs as [|r rs IH]; intros w Hw Hreg; simpl; [done|].
  unfold mbind, JS_bind.
  pose proof (stable_CDPSession_onClosed r w Hw (Hreg r ltac:(left))) as H1.
  pose proof (sessions_CDPSession_onClosed r w) as H2.
  destruct (CDPSession_onClosed r w) as [w' [[]|e]]; simpl in *; [|done].
  apply IH; [done|]. intros r' Hr'. rewrite H2. apply Hreg. by right.
Qed.

Lemma stable_Connection_onClose w : P w → P (Connection_onClose w).1.
Proof.
  intros Hw. destruct (closed w) eqn:Hc.
  - by rewrite Connection_onClose_closed.
  - rewrite Connection_onClose_open by done.
    pose proof (stable_closures (JsMap.values (sessions w))
                  (connection_closed w)
                  (st_connection_closed ok allowed P HP w Hw) (λ r Hr, Hr)) as H1.
    destruct (for_of _ _ _) as [w' [[]|e]]; simpl in *; [|done].
    apply HP; [|by repeat constructor]. by apply HP.
Qed.

Lemma stable_Connection_dispose w : P w → P (Connection_dispose w).1.
Proof.
  intros Hw. unfold Connection_dispose. unfold mbind, JS_bind.
  pose proof (stable_Connection_onClose w Hw) as H1.
  destruct (Connection_onClose w) as [w' [[]|e]]; simpl in *; [|done].
  apply (st_logged ok allowed P HP w' [TransportClose]); [done|].
  by repeat constructor.
Qed.

Lemma stable_when_step w a :
  (∀ object, a = Transport_message object → ok object) →
  (∀ k, attach_key a = Some k → allowed k) → P w → P (step w a).
Proof.
  intros Hok Hk Hw. destruct a; simpl.
  - by apply stable_Connection_send.
  - by apply stable_CDPSession_send.
  - by apply stable_CDPSession_detach.
  - by apply stable_Connection_send.
  - by apply stable_Connection_dispose.
  - destruct (onmessage w); [|done].
    apply stable_when_Connection_onMessage; [by apply Hok | done..].
  - destruct (onclose w); [by apply stable_Connection_onClose | done].
Qed.

Lemma stable_when_run w actions :
  Forall (λ a, ∀ object, a = Transport_message object → ok object) actions →
  Forall (λ a, ∀ k, attach_key a = Some k → allowed k) actions →
  P w → P (run w actions).
Proof.
  intros Hok. revert w.
  induction Hok as [|a actions Ha _ IH]; intros w Hk Hw; simpl; [done|].
  apply Forall_cons in Hk as [Hk Hks].
  by apply IH, stable_when_step.
Qed.
End Stable.

(** The same for a property kept whatever the responses are. *)
Section StableAlways.
Variable allowed : option string → Prop.
Variable P : World → Prop.
Hypothesis HP : stable allowed P.

Lemma stable_Connection_onMessage object w :
  (∀ k, attach_key (Transport_message object) = Some k → allowed k) →
  P w → P (Connection_onMessage object w).1.
Proof. by apply (stable_when_Connection_onMessage _ allowed P HP). Qed.

Lemma stable_step w a :
  (∀ k, attach_key a = Some k → allowed k) → P w → P (step w a).
Proof. by apply (stable_when_step _ allowed P HP). Qed.

Lemma stable_run w actions :
  Forall (λ a, ∀ k, attach_key a = Some k → allowed k) actions →
  P w → P (run w actions).
Proof.
  apply (stable_when_run _ allowed P HP). by apply Forall_forall.
Qed.
End StableAlways.

Lemma Inv_stable : stable (λ _, True) Inv.
Proof.
  split.
  - intros w method msg HI. by apply Inv_connection_sent.
  - intros w r s method msg HI Hs _. by eapply Inv_session_sent.
  - intros w id callback object _ HI Hg. by apply Inv_connection_settled.
  - intros w r s id callback object _ HI _ Hs Hg. by eapply Inv_session_settled.
  - intros w r s HI _ Hs. by apply Inv_session_closed.
  - intros w targetType sessionId _ HI.
    pose proof (Inv_attached w targetType sessionId [] HI ltac:(constructor)) as H.
    by rewrite log_nil in H.
  - intros w k HI. by apply Inv_sessions_delete.
  - intros w HI. by apply Inv_sessions_clear.
  - intros w l HI Hl. by apply Inv_log_silent.
  - intros w HI.
    apply (Inv_connection_rejected (set_hooks false (set_closed true w))).
    by apply Inv_set_hooks, Inv_set_closed.
Qed.

Lemma reachable_Inv w : reachable w → Inv w.
Proof.
  induction 1; [apply Inv_new | by apply (stable_step _ Inv Inv_stable)].
Qed.

(** ** Request ids *)

Lemma StronglySorted_seqZ m n : StronglySorted Z.lt (seqZ m n).
Proof.
  assert (∀ k m', StronglySorted Z.lt (seqZ m' (Z.of_nat k))) as Hnat.
  { induction k as [|k IH]; intros m'.
    - rewrite seqZ_nil by lia. constructor.
    - rewrite seqZ_cons by lia. constructor.
      + replace (Z.pred (Z.of_nat (S k))) with (Z.of_nat k) by lia. apply IH.
      + apply Forall_seqZ. intros; lia. }
  destruct (decide (n ≤ 0)) as [Hn|Hn].
  - rewrite seqZ_nil by done. constructor.
  - replace n with (Z.of_nat (Z.to_nat n)) by lia. apply Hnat.
Qed.

Lemma pending_unique w o1 o2 id c1 c2 :
  Inv w → pending w o1 id c1 → pending w o2 id c2 → o1 = o2 ∧ c1 = c2.
Proof.
  intros HI H1 H2. pose proof (inv_owner w HI _ _ _ _ _ H1 H2) as ->.
  split; [done|]. unfold pending in *.
  apply JsMapFacts.elem_of_get in H1, H2; try apply HI. congruence.
Qed.

(** C1: the counter starts at 0, and in every world the program can
    reach, the ids handed to the transport are, in the order they were
    handed out, 1, 2, ..., up to the counter: strictly increasing and
    pairwise distinct.  [_rawSend]
    returns the counter plus one; a [send] of the Connection and a
    [send] of an attached session both hand out that id and register
    their pending call under it; and no id is pending in two tables
    or for two calls. *)
Theorem C1_ids_are_distinct_and_increasing actions :
  let w := run new_Connection actions in
  let ids := sent_ids (trace w) in
  lastId new_Connection = 0
  ∧ ids = seqZ 1 (lastId w)
  ∧ StronglySorted Z.lt ids
  ∧ NoDup ids
  ∧ (∀ id, head ids = Some id → id = 1)
  ∧ (∀ msg, Connection_rawSend msg w
            = (log [TransportSend msg (lastId w + 1)]
                 (set_lastId (lastId w + 1) w),
               Normal (lastId w + 1)))
  ∧ (∀ method params,
       let w' := (Connection_send method params w).1 in
       sent_ids (trace w') = ids ++ [lastId w + 1]
       ∧ pending w' OnConnection (lastId w + 1) (pending_call method w))
  ∧ (∀ this s method params,
       store w !! this = Some s →
       s_connection s = Some this_connection →
       let w' := (CDPSession_send this method params w).1 in
       sent_ids (trace w') = ids ++ [lastId w + 1]
       ∧ pending w' (OnSession this) (lastId w + 1) (pending_call method w))
  ∧ (∀ o1 o2 id c1 c2,
       pending w o1 id c1 → pending w o2 id c2 → o1 = o2 ∧ c1 = c2).
Proof.
  intros w ids.
  assert (Inv w) as HI.
  { apply reachable_Inv, reachable_run. constructor. }
  assert (ids = seqZ 1 (lastId w)) as Hids by apply HI.
  split_and!.
  - done.
  - done.
  - rewrite Hids. apply StronglySorted_seqZ.
  - rewrite Hids. apply NoDup_seqZ.
  - intros id. rewrite Hids. pose proof (inv_counter w HI) as H0.
    destruct (decide (lastId w = 0)) as [->|Hn]; [done|].
    rewrite seqZ_cons by lia. by intros [= <-].
  - done.
  - intros method params. rewrite Connection_send_eq. simpl. split.
    + by rewrite sent_ids_app.
    + unfold pending. simpl.
      apply JsMapFacts.get_elem_of, JsMapFacts.get_set_eq.
  - intros this s method params Hs Hc.
    erewrite CDPSession_send_attached by done. simpl. split.
    + by rewrite sent_ids_app.
    + unfold pending. simpl. rewrite list_lookup_alter_eq, Hs. simpl.
      apply JsMapFacts.get_elem_of, JsMapFacts.get_set_eq.
  - intros o1 o2 id c1 c2. by apply pending_unique.
Qed.

(** ** Closing the Connection *)

Lemma close_all_lookup rs st r :
  close_all rs st !! r
  = if decide (r ∈ rs) then closed_session <$> st !! r else st !! r.
Proof.
  unfold close_all. revert st. induction rs as [|r0 rs IH]; intros st; simpl.
  - done.
  - rewrite IH. destruct (decide (r = r0)) as [->|Hr].
    + rewrite list_lookup_alter_eq.
      rewrite (decide_True (P := r0 ∈ r0 :: rs)) by left.
      case_decide; [|done]. by destruct (st !! r0).
    + rewrite list_lookup_alter_ne by done.
      destruct (decide (r ∈ rs)).
      * by rewrite decide_True by (by right).
      * rewrite decide_False; [done|]. by intros [?|?]%elem_of_cons.
Qed.

Lemma set_store_same w : set_store (store w) w = w.
Proof. by destruct w. Qed.

Lemma for_of_onClosed rs w :
  NoDup rs →
  (∀ r, r ∈ rs → is_Some (store w !! r)) →
  for_of rs CDPSession_onClosed w
  = (log (closures (store w) rs) (set_store (close_all rs (store w)) w),
     Normal tt).
Proof.
  revert w. induction rs as [|r rs IH]; intros w Hnd Hval; simpl.
  - unfold closures, close_all. simpl. by rewrite log_nil, set_store_same.
  - apply NoDup_cons in Hnd as [Hr Hnd].
    destruct (Hval r) as [s Hs]; [left|].
    unfold mbind, JS_bind. rewrite (CDPSession_onClosed_eq r s w Hs).
    rewrite IH; [|done|].
    + f_equal. unfold closures, close_all. simpl. rewrite Hs.
      replace (map (λ r0, match alter closed_session r (store w) !! r0 with
                          | Some s0 => closure_effects r0 s0
                          | None => []
                          end) rs)
        with (map (λ r0, match store w !! r0 with
                         | Some s0 => closure_effects r0 s0
                         | None => []
                         end) rs).
      * unfold log, set_trace, set_store. simpl. by rewrite app_assoc.
      * apply map_ext_in. intros r0 Hr0%list_elem_of_In.
        rewrite list_lookup_alter_ne; [done|]. by intros ->.
    + intros r0 Hr0. simpl. destruct (Hval r0) as [s0 Hs0]; [by right|].
      destruct (decide (r0 = r)) as [->|Hne].
      * rewrite list_lookup_alter_eq, Hs. by eexists.
      * rewrite list_lookup_alter_ne by done. by eexists.
Qed.

Lemma Inv_sessions_NoDup w : Inv w → NoDup (JsMap.values (sessions w)).
Proof.
  intros HI. pose proof (inv_session_keys w HI) as Hk.
  pose proof (inv_sessions w HI) as Hs.
  unfold JsMap.keys, JsMap.values in *.
  induction (sessions w) as [|[k r] m IH]; simpl in *; [constructor|].
  apply NoDup_cons in Hk as [Hk Hnd]. apply NoDup_cons. split.
  - intros ([k' r'] & Hr & Hin)%list_elem_of_fmap_1. simpl in Hr. subst r'.
    destruct (Hs k r) as (s & Hst & Hid); [left|].
    destruct (Hs k' r) as (s' & Hst' & Hid'); [by right|].
    assert (k' = k) as -> by congruence.
    apply Hk. by apply (list_elem_of_fmap_2 fst) in Hin.
  - apply IH; [done|]. intros k' r' Hin. apply Hs. by right.
Qed.

Lemma Connection_onClose_reachable w :
  Inv w →
  closed w = false →
  Connection_onClose w
  = (log [Emit OnConnection ConnectionEmittedEvents_Disconnected NoArg]
       (set_sessions []
          (log (closures (store w) (JsMap.values (sessions w)))
             (set_store (close_all (JsMap.values (sessions w)) (store w))
                (connection_closed w)))),
     Normal tt).
Proof.
  intros HI Hc. rewrite Connection_onClose_open by done.
  rewrite for_of_onClosed; [done | by apply Inv_sessions_NoDup |].
  intros r (k & Hin)%JsMapFacts.values_elem_of. simpl.
  destruct (inv_sessions w HI k r Hin) as (s & Hs & _). by eexists.
Qed.

(** C3, amended: closing is idempotent, a second invocation returns at
    the guard and changes nothing.  A first invocation, in any world
    the program can reach, rejects every call of the Connection's table
    with the "Target closed" error naming the call's method, clears the
    table, runs the closure routine of every session of the map (which
    rejects the session's calls the same way, empties its table and
    drops its Connection), clears the map and emits the disconnected
    event last.  Afterwards the map, the Connection's table and the
    table of every session that was in the map are empty.  A session
    object that is not in the map, having been replaced under its id,
    is left as it is, with the calls it holds. *)
Theorem C3_onClose_settles_and_empties w :
  reachable w →
  let w' := (Connection_onClose w).1 in
  Connection_onClose w' = (w', Normal tt)
  ∧ (closed w = true → Connection_onClose w = (w, Normal tt))
  ∧ (closed w = false →
     Connection_onClose w = (w', Normal tt)
     ∧ closed w' = true ∧ onmessage w' = false ∧ onclose w' = false
     ∧ trace w'
       = trace w
         ++ map (λ cb, Reject (cb_promise cb) (target_closed cb))
              (JsMap.values (callbacks w))
         ++ closures (store w) (JsMap.values (sessions w))
         ++ [Emit OnConnection ConnectionEmittedEvents_Disconnected NoArg]
     ∧ callbacks w' = []
     ∧ sessions w' = []
     ∧ (∀ k r, (k, r) ∈ sessions w →
          ∃ s, store w !! r = Some s
               ∧ store w' !! r = Some (closed_session s)
               ∧ table w' (OnSession r) = [])
     ∧ (∀ r, r ∉ JsMap.values (sessions w) → store w' !! r = store w !! r)
     ∧ lastId w' = lastId w)
  ∧ (∀ callback,
       ∃ e, target_closed callback = AProtocolError e
            ∧ contains (message e) (cb_method callback)
            ∧ contains (message e) "Target closed").
Proof.
  intros Hreach w'. pose proof (reachable_Inv w Hreach) as HI.
  assert (closed w' = true) as Hclosed'.
  { unfold w'. destruct (closed w) eqn:Hc.
    - by rewrite Connection_onClose_closed.
    - by rewrite Connection_onClose_reachable. }
  split_and!.
  - by apply Connection_onClose_closed.
  - apply Connection_onClose_closed.
  - intros Hc. unfold w'. rewrite Connection_onClose_reachable by done.
    simpl. split_and!; try done.
    + by rewrite <- !app_assoc.
    + intros k r Hin. destruct (inv_sessions w HI k r Hin) as (s & Hs & _).
      exists s. split; [done|].
      assert (close_all (JsMap.values (sessions w)) (store w) !! r
              = Some (closed_session s)) as Hr.
      { rewrite close_all_lookup, decide_True, Hs; [done|].
        by eapply JsMapFacts.elem_of_values. }
      split; [done|]. by rewrite Hr.
    + intros r Hr. by rewrite close_all_lookup, decide_False.
  - intros callback.
    destruct (target_closed_message callback) as (e & He & _ & Hm & Ht).
    by exists e.
Qed.

(** ** What routing leaves alone *)

Lemma closure_free_settlement callback object :
  Forall closure_free (settlement_effects callback object).
Proof.
  apply Forall_forall. intros e He%settlement_effects_elem.
  by apply settlement_Normal in He as [[_ ->]|(oe & e' & _ & _ & ->)].
Qed.

Lemma notify_closure_free event session object registered :
  Forall closure_free (notify event session object registered).
Proof.
  unfold notify. destruct (JsMap.get _ _); by repeat constructor.
Qed.

(** The session's router changes neither the session map nor any
    session object other than its own, and not even its own when the
    table is empty. *)
Lemma CDPSession_onMessage_frame this object w :
  let w' := (CDPSession_onMessage this object w).1 in
  sessions w' = sessions w
  ∧ (∃ rest, trace w' = trace w ++ rest ∧ Forall closure_free rest)
  ∧ ∀ r s, store w !! r = Some s → s_callbacks s = [] ∨ r ≠ this →
           store w' !! r = Some s.
Proof.
  assert (sessions w = sessions w
    ∧ (∃ rest, trace w = trace w ++ rest ∧ Forall closure_free rest)
    ∧ ∀ r s, store w !! r = Some s → s_callbacks s = [] ∨ r ≠ this →
             store w !! r = Some s) as Hsame.
  { split_and!; [done | | done]. exists []. by rewrite app_nil_r. }
  assert (∀ e, closure_free e →
    sessions (log [e] w) = sessions w
    ∧ (∃ rest, trace (log [e] w) = trace w ++ rest ∧ Forall closure_free rest)
    ∧ ∀ r s, store w !! r = Some s → s_callbacks s = [] ∨ r ≠ this →
             store (log [e] w) !! r = Some s) as Hlog.
  { intros e He. split_and!; [done | | done]. exists [e]. by repeat constructor. }
  destruct (store w !! this) as [s0|] eqn:Hs0; simpl.
  - destruct (truthy_number_cases (o_id object)) as [Hf|(id & Hid & Hnz)].
    + erewrite CDPSession_onMessage_event by done.
      destruct (assert true); [done | by apply Hlog].
    + destruct (JsMap.get id (s_callbacks s0)) as [callback|] eqn:Hcb.
      * erewrite CDPSession_onMessage_matched by done.
        rewrite settle_world. simpl.
        split_and!; [done | |].
        -- eexists. split; [done|]. apply closure_free_settlement.
        -- intros r s Hs [Hempty|Hr].
           ++ destruct (decide (r = this)) as [->|Hr].
              ** rewrite Hs0 in Hs. injection Hs as ->.
                 by rewrite Hempty in Hcb.
              ** by rewrite list_lookup_alter_ne.
           ++ by rewrite list_lookup_alter_ne.
      * erewrite CDPSession_onMessage_unmatched by done.
        destruct (assert false); [done | by apply Hlog].
  - by rewrite CDPSession_onMessage_dangling.
Qed.

(** The second half of the router changes the session map not at all,
    and only the session object it delivers to. *)
Lemma routing_part_frame object w :
  let w' := (routing_part object w).1 in
  sessions w' = sessions w
  ∧ (∃ rest, trace w' = trace w ++ rest ∧ Forall closure_free rest)
  ∧ ∀ r s, store w !! r = Some s →
           s_callbacks s = [] ∨ r ∉ JsMap.values (sessions w) →
           store w' !! r = Some s.
Proof.
  simpl. destruct (truthy_string (o_sessionId object)) eqn:Hs.
  - rewrite routing_part_session by done.
    destruct (JsMap.get (o_sessionId object) (sessions w)) as [this|] eqn:Hg.
    + destruct (CDPSession_onMessage_frame this object w) as (H1 & H2 & H3).
      split_and!; [done..|]. intros r s Hr [Hempty|Hunreg].
      * apply H3; auto.
      * apply H3; [done|]. right. intros ->. apply Hunreg.
        eapply JsMapFacts.elem_of_values, JsMapFacts.get_elem_of, Hg.
    + split_and!; [done | | done]. exists []. by rewrite app_nil_r.
  - destruct (truthy_number_cases (o_id object)) as [Hf|(id & Hid & Hnz)].
    + rewrite routing_part_event by done. simpl. split_and!; [done | | done].
      eexists. split; [done|]. by repeat constructor.
    + destruct (JsMap.get id (callbacks w)) as [callback|] eqn:Hcb.
      * erewrite routing_part_matched by done.
        rewrite settle_world. simpl.
        split_and!; [done | | done].
        eexists. split; [done|]. apply closure_free_settlement.
      * erewrite routing_part_unmatched by done.
        split_and!; [done | | done]. exists []. by rewrite app_nil_r.
Qed.

(** Once no session is registered under [S], none is until an attach
    notification carries [S] again. *)
Lemma absent_stable (S : string) :
  stable (λ k, k ≠ Some S) (λ w, Connection_session S w = None).
Proof.
  unfold Connection_session.
  split; try (by intros; rewrite settle_world); simpl; try done.
  - intros w targetType sessionId Hk Hw. by rewrite JsMapFacts.get_set_ne.
  - intros w k Hw. destruct (decide (Some S = k)) as [<-|Hk].
    + apply JsMapFacts.get_delete_eq.
    + by rewrite JsMapFacts.get_delete_ne.
Qed.

(** ** The life of a session *)

Lemma Connection_onMessage_attach object params targetInfo w :
  is_attach object →
  o_params object = Some params →
  p_targetInfo params = Some targetInfo →
  Connection_onMessage object w
  = routing_part object (attached object params targetInfo w).
Proof.
  intros Ha Hp Ht. rewrite Connection_onMessage_seq.
  by erewrite structural_part_attach.
Qed.

Lemma Connection_onMessage_detach object params session s w :
  is_detach object →
  o_params object = Some params →
  JsMap.get (p_sessionId params) (sessions w) = Some session →
  store w !! session = Some s →
  Connection_onMessage object w
  = routing_part object (detached object params session s w).
Proof.
  intros Hd Hp Hg Hs. rewrite Connection_onMessage_seq.
  by erewrite structural_part_detach.
Qed.


(** ** A session replaced under its id *)

Lemma values_set {V : Type} (m : JsMap.t (option string) V) k v v' :
  v' ∈ JsMap.values (JsMap.set k v m) → v' = v ∨ v' ∈ JsMap.values m.
Proof.
  intros (k' & [[_ ->]|Hin]%JsMapFacts.elem_of_set)%JsMapFacts.values_elem_of.
  - by left.
  - right. by eapply JsMapFacts.elem_of_values.
Qed.

Lemma values_delete {V : Type} (m : JsMap.t (option string) V) k v' :
  v' ∈ JsMap.values (JsMap.delete k m) → v' ∈ JsMap.values m.
Proof.
  intros (k' & [Hin _]%JsMapFacts.elem_of_delete)%JsMapFacts.values_elem_of.
  by eapply JsMapFacts.elem_of_values.
Qed.

Lemma stranded_stable old m : stable (λ _, True) (stranded old m).
Proof.
  split.
  - intros w method msg (HI & Hreg & Hs).
    split; [by apply Inv_stable|]. done.
  - intros w r s method msg (HI & Hreg & s0 & Hs0 & Hkeep) Hs Hc.
    split; [by eapply Inv_stable|]. split; [done|]. simpl.
    destruct (decide (old = r)) as [->|Hr].
    + rewrite list_lookup_alter_eq, Hs0. simpl. eexists. split; [done|].
      simpl. intros id cb Hget. specialize (Hkeep id cb Hget).
      rewrite JsMapFacts.get_set_ne; [done|].
      apply JsMapFacts.get_elem_of in Hkeep.
      assert (pending w (OnSession r) id cb) as Hpend.
      { unfold pending. simpl. by rewrite Hs0. }
      apply (inv_ids w HI) in Hpend. lia.
    + rewrite list_lookup_alter_ne by done. eauto.
  - intros w id callback object _ (HI & Hreg & Hs) Hget.
    split; [by apply Inv_stable|]. by rewrite settle_world.
  - intros w r s id callback object _ (HI & Hreg & s0 & Hs0 & Hkeep) Hr Hs Hget.
    split; [by eapply Inv_stable|]. rewrite settle_world.
    split; [done|]. simpl.
    rewrite list_lookup_alter_ne by (by intros ->). eauto.
  - intros w r s (HI & Hreg & s0 & Hs0 & Hkeep) Hr Hs.
    split; [by eapply Inv_stable|]. split; [done|]. simpl.
    rewrite list_lookup_alter_ne by (by intros ->). eauto.
  - intros w targetType sessionId _ (HI & Hreg & s0 & Hs0 & Hkeep).
    split; [by apply Inv_stable|]. simpl. split.
    + intros [->|?]%values_set; [|done].
      apply lookup_lt_Some in Hs0. lia.
    + exists s0. split; [|done]. by apply lookup_app_l_Some.
  - intros w k (HI & Hreg & Hs).
    split; [by apply Inv_stable|]. split; [|done]. simpl.
    by intros ?%values_delete.
  - intros w (HI & Hreg & Hs).
    split; [by apply Inv_stable|]. split; [|done]. simpl. apply not_elem_of_nil.
  - intros w l (HI & Hreg & Hs) Hl.
    split; [by apply Inv_stable|]. done.
  - intros w (HI & Hreg & Hs).
    split; [by apply Inv_stable|]. done.
Qed.

Lemma stranded_unsettled old m w id cb :
  stranded old m w → JsMap.get id m = Some cb →
  ¬ settled (cb_promise cb) (trace w).
Proof.
  intros (HI & _ & s & Hs & Hkeep) Hget Hset.
  destruct (inv_settled w HI _ Hset) as [_ Hne].
  apply (Hne (OnSession old) id cb); [|done].
  unfold pending. simpl. rewrite Hs.
  by apply JsMapFacts.get_elem_of, Hkeep.
Qed.

(** C10: in a world the program can reach, an attach notification that
    carries an id [S] under which a session is registered already
    registers a new session object under [S]; the object registered
    before is left as it was, its closure routine is not run: its
    table and its Connection are untouched, no disconnected event is
    emitted on it and none of its calls is settled.  Whatever happens
    afterwards, that object is never in the session map again, each of
    its calls stays in its table, and no effect ever settles one of
    them. *)
Theorem C10_replaced_session_keeps_its_calls_forever
    w object params targetInfo S old s :
  reachable w →
  is_attach object →
  o_params object = Some params →
  p_sessionId params = Some S →
  p_targetInfo params = Some targetInfo →
  Connection_session S w = Some old →
  store w !! old = Some s →
  let fresh := length (store w) in
  let w1 := (Connection_onMessage object w).1 in
  Connection_session S w1 = Some fresh
  ∧ fresh ≠ old
  ∧ store w1 !! fresh = Some (fresh_session (ti_type targetInfo) (Some S))
  ∧ store w1 !! old = Some s
  ∧ (∃ effects,
       trace w1 = trace w ++ effects
       ∧ Emit (OnSession old) CDPSessionEmittedEvents_Disconnected NoArg ∉ effects)
  ∧ ∀ actions id cb,
      JsMap.get id (s_callbacks s) = Some cb →
      let w2 := run w1 actions in
      (old ∉ JsMap.values (sessions w2))
      ∧ (∃ s2, store w2 !! old = Some s2
               ∧ JsMap.get id (s_callbacks s2) = Some cb)
      ∧ ¬ settled (cb_promise cb) (trace w2).
Proof.
  intros Hreach Ha Hp HS Ht Hold Hs fresh w1.
  pose proof (reachable_Inv w Hreach) as HI.
  unfold Connection_session in Hold.
  assert (w1 = (routing_part object (attached object params targetInfo w)).1)
    as Hw1.
  { unfold w1. by erewrite Connection_onMessage_attach. }
  destruct (routing_part_frame object (attached object params targetInfo w))
    as (Hsess & (rest & Htr & Hrest) & Hst).
  rewrite <- Hw1 in Hsess, Htr, Hst.
  assert (fresh ≠ old) as Hne.
  { apply lookup_lt_Some in Hs. unfold fresh. lia. }
  assert (old ∉ JsMap.values (sessions (attached object params targetInfo w)))
    as Hunreg.
  { simpl. rewrite HS.
    intros (k & Hin)%JsMapFacts.values_elem_of.
    apply JsMapFacts.elem_of_set_NoDup in Hin as [[_ ?]|[Hin Hk]];
      [done | | apply HI].
    destruct (inv_sessions w HI k old Hin) as (s' & Hs' & Hk').
    destruct (inv_sessions w HI (Some S) old) as (s'' & Hs'' & Hk'').
    { by apply JsMapFacts.get_elem_of. }
    congruence. }
  assert (store w1 !! old = Some s) as Hkept.
  { apply Hst; [|by right]. simpl. by apply lookup_app_l_Some. }
  assert (stranded old (s_callbacks s) w1) as Hstranded.
  { split_and!.
    - unfold w1. by apply (stable_Connection_onMessage _ Inv Inv_stable).
    - by rewrite Hsess.
    - by exists s. }
  split_and!.
  - unfold Connection_session. rewrite Hsess. simpl. rewrite HS.
    apply JsMapFacts.get_set_eq.
  - done.
  - apply Hst; [|by left]. simpl. rewrite HS. by apply list_lookup_middle.
  - done.
  - eexists. split.
    + rewrite Htr. simpl. by rewrite <- app_assoc.
    + intros [Hin|Hin]%elem_of_app.
      * pose proof (notify_closure_free "sessionattached" (length (store w))
                      object
                      (JsMap.set (p_sessionId params) (length (store w))
                         (sessions w))) as Hfree.
        rewrite Forall_forall in Hfree. by apply Hfree in Hin.
      * rewrite Forall_forall in Hrest. by apply Hrest in Hin.
  - intros actions id cb Hget w2.
    assert (stranded old (s_callbacks s) w2) as Hw2.
    { apply (stable_run _ _ (stranded_stable old (s_callbacks s))); [|done].
      by apply Forall_forall. }
    split_and!.
    + apply Hw2.
    + destruct Hw2 as (_ & _ & s2 & Hs2 & Hkeep). exists s2. auto.
    + by eapply stranded_unsettled.
Qed.

(** ** What the methods leave alone

    A relation between worlds that is reflexive and transitive is kept
    by a method as soon as it is kept by the steps the method is made
    of: the proof follows the text of the method. *)

Section Keeps.
Context (R : World → World → Prop) `{!PreOrder R}.

Lemma keeps_ret {A : Type} (a : A) : keeps R (mret a).
Proof. intros w. reflexivity. Qed.

Lemma keeps_throw {A : Type} (e : JsError) : keeps R (throw (A := A) e).
Proof. intros w. reflexivity. Qed.

Lemma keeps_world : keeps R world.
Proof. intros w. reflexivity. Qed.

Lemma keeps_member {A : Type} (o : option A) : keeps R (member o).
Proof. intros w. destruct o; reflexivity. Qed.

Lemma keeps_bind {A B : Type} (m : JS A) (k : A → JS B) :
  keeps R m → (∀ a, keeps R (k a)) → keeps R (m ≫= k).
Proof.
  intros Hm Hk w. unfold mbind, JS_bind. specialize (Hm w).
  destruct (m w) as [w' [a|e]]; simpl in *; [|done].
  etrans; [done | apply Hk].
Qed.

Lemma keeps_modify (f : World → World) :
  (∀ w, R w (f w)) → keeps R (modify f).
Proof. intros Hf w. apply Hf. Qed.

Lemma keeps_for_of {A : Type} (xs : list A) (body : A → JS unit) :
  (∀ x, keeps R (body x)) → keeps R (for_of xs body).
Proof.
  intros Hbody. induction xs as [|x xs IH]; simpl.
  - apply keeps_ret.
  - apply keeps_bind; [apply Hbody | done].
Qed.

Lemma keeps_call_assert (value : bool) : keeps R (call_assert value).
Proof. intros w. unfold call_assert. destruct (assert value); reflexivity. Qed.

Lemma keeps_this_session (this : ref) : keeps R (this_session this).
Proof.
  unfold this_session. apply keeps_bind; [apply keeps_world|].
  intros w. apply keeps_member.
Qed.
End Keeps.

(** Follow the text of a method: binds, branches, loops; [known] closes
    the calls and the steps for which the relation is known. *)
Ltac keeps_structure known :=
  repeat first
    [ progress intros
    | known
    | apply keeps_ret | apply keeps_throw | apply keeps_world
    | apply keeps_member | apply keeps_call_assert | apply keeps_this_session
    | apply keeps_bind | apply keeps_for_of
    | case_decide | case_match
    | lazymatch goal with |- PreOrder _ => apply _ end ].

#[local] Instance unchanged_preorder {B : Type} (f : World → B) :
  PreOrder (unchanged f).
Proof.
  split.
  - by intros w.
  - intros w1 w2 w3 H12 H23. unfold unchanged in *. congruence.
Qed.

#[local] Instance settling_preorder : PreOrder settling.
Proof.
  split.
  - intros w. split; try done; [|eauto].
    exists []. by rewrite app_nil_r.
  - intros w1 w2 w3 H12 H23. split.
    + rewrite (sg_lastId _ _ H23). apply H12.
    + rewrite (sg_promises _ _ H23). apply H12.
    + destruct (sg_trace _ _ H12) as (l1 & Ht1 & Hl1).
      destruct (sg_trace _ _ H23) as (l2 & Ht2 & Hl2).
      exists (l1 ++ l2). rewrite Ht2, Ht1, app_assoc. split; [done|].
      by rewrite sent_ids_app, Hl1, Hl2.
    + intros owner id cb Hp. by apply H12, H23.
    + intros r s Hs.
      destruct (sg_store _ _ H12 r s Hs) as (s2 & Hs2 & Hi2 & Ht2).
      destruct (sg_store _ _ H23 r s2 Hs2) as (s3 & Hs3 & Hi3 & Ht3).
      exists s3. split_and!; [done | congruence..].
Qed.

Lemma settling_log (l : list Effect) w : sent_ids l = [] → settling w (log l w).
Proof. intros Hl. split; try done; eauto. Qed.

Lemma settling_perform (e : Effect) :
  sent_ids [e] = [] → keeps settling (perform e).
Proof. intros He w. by apply (settling_log [e]). Qed.

Lemma settling_set_callbacks (m : JsMap.t Z ConnectionCallback) w :
  (∀ id cb, (id, cb) ∈ m → (id, cb) ∈ callbacks w) →
  settling w (set_callbacks m w).
Proof.
  intros Hm. split; try done; [| | eauto].
  - exists []. by rewrite app_nil_r.
  - intros [|r] id cb; unfold pending; simpl; auto.
Qed.

Lemma settling_fields w w' :
  trace w' = trace w → store w' = store w → callbacks w' = callbacks w →
  lastId w' = lastId w → promises w' = promises w →
  settling w w'.
Proof.
  intros Ht Hs Hc Hl Hp. split; try done.
  - exists []. by rewrite app_nil_r.
  - intros [|r] id cb; unfold pending; simpl; by rewrite ?Hc, ?Hs.
  - intros r s Hr. exists s. by rewrite Hs.
Qed.

Lemma settling_update_session (this : ref) (g : CDPSession → CDPSession) :
  (∀ s, s_sessionId (g s) = s_sessionId s) →
  (∀ s, s_targetType (g s) = s_targetType s) →
  (∀ s id cb, (id, cb) ∈ s_callbacks (g s) → (id, cb) ∈ s_callbacks s) →
  keeps settling (update_session this g).
Proof.
  intros Hi Ht Hc w. unfold update_session, modify. simpl. split; try done.
  - exists []. by rewrite app_nil_r.
  - intros owner id cb. unfold pending. rewrite table_alter.
    destruct owner as [|r]; [done|]. case_decide as Hr; [|done]. subst r.
    simpl. destruct (store w !! this) as [s|]; [apply Hc | done].
  - intros r s Hs. simpl. destruct (decide (r = this)) as [->|Hr].
    + rewrite list_lookup_alter_eq, Hs. simpl. eauto.
    + rewrite list_lookup_alter_ne by done. eauto.
Qed.

Lemma settling_new_CDPSession (targetType : string) (sessionId : option string) :
  keeps settling (new_CDPSession targetType sessionId).
Proof.
  intros w. unfold new_CDPSession. simpl. split; try done.
  - exists []. by rewrite app_nil_r.
  - intros [|r] id cb; unfold pending; simpl; [done|].
    destruct (store w !! r) as [s|] eqn:Hs.
    + by rewrite (lookup_app_l_Some _ _ _ _ Hs).
    + apply lookup_ge_None in Hs.
      destruct (decide (r = length (store w))) as [->|Hr].
      * rewrite list_lookup_middle by done. simpl. by intros ?%elem_of_nil.
      * rewrite lookup_ge_None_2; [by intros ?%elem_of_nil|].
        rewrite length_app. simpl. lia.
  - intros r s Hs. exists s. split; [|done]. simpl. by apply lookup_app_l_Some.
Qed.

(** The steps of the routers and of the closure routines. *)
Ltac settling_step :=
  first
    [ by apply settling_perform
    | apply settling_new_CDPSession
    | apply settling_update_session; simpl;
        [done | done
        | intros ? ? ?; unfold JsMap.clear;
          first [ done
                | by intros [? _]%JsMapFacts.elem_of_delete
                | by intros ?%elem_of_nil ] ]
    | apply keeps_modify; intros ?;
        first [ by apply settling_fields
              | apply settling_set_callbacks; simpl; intros ? ?;
                unfold JsMap.clear;
                first [ by intros [? _]%JsMapFacts.elem_of_delete
                      | by intros ?%elem_of_nil ] ] ].

Lemma settling_CDPSession_onMessage this object :
  keeps settling (CDPSession_onMessage this object).
Proof.
  unfold CDPSession_onMessage, emit, resolve, reject. cbv zeta.
  destruct (o_id object) as [id|]; simpl; keeps_structure settling_step.
Qed.

Lemma settling_CDPSession_onClosed this :
  keeps settling (CDPSession_onClosed this).
Proof.
  unfold CDPSession_onClosed, emit, reject. keeps_structure settling_step.
Qed.

Lemma settling_Connection_onMessage object :
  keeps settling (Connection_onMessage object).
Proof.
  unfold Connection_onMessage, emit, resolve, reject.
  destruct (o_id object) as [id|]; simpl;
    keeps_structure
      ltac:(first [ apply settling_CDPSession_onClosed
                  | apply settling_CDPSession_onMessage
                  | settling_step ]).
Qed.

Lemma settling_Connection_onClose : keeps settling Connection_onClose.
Proof.
  unfold Connection_onClose, emit, reject.
  keeps_structure
    ltac:(first [ apply settling_CDPSession_onClosed | settling_step ]).
Qed.

Lemma settling_Connection_dispose : keeps settling Connection_dispose.
Proof.
  unfold Connection_dispose.
  keeps_structure
    ltac:(first [ apply settling_Connection_onClose | settling_step ]).
Qed.

(** ** Actions: a send, or a step that this relation describes *)

Lemma step_sends_or_settles w a :
  settling w (step w a)
  ∨ (∃ method params,
       step w a
       = set_callbacks
           (JsMap.set (lastId w + 1) (pending_call method w) (callbacks w))
           (after_rawSend
              {| rm_sessionId := None; rm_method := method;
                 rm_params := params |} w))
  ∨ (∃ this s method params,
       store w !! this = Some s
       ∧ s_connection s = Some this_connection
       ∧ step w a
         = set_store
             (alter (λ s', set_s_callbacks
                             (JsMap.set (lastId w + 1) (pending_call method w)
                                (s_callbacks s')) s')
                this (store w))
             (after_rawSend
                {| rm_sessionId := s_sessionId s; rm_method := method;
                   rm_params := params |} w)).
Proof.
  destruct a as [method params | this method params | this | targetInfo
                | | object | ]; simpl.
  - right. left. by exists method, params.
  - destruct (store w !! this) as [s|] eqn:Hs.
    + destruct (s_connection s) as [[]|] eqn:Hc.
      * right. right. exists this, s, method, params.
        by erewrite CDPSession_send_attached.
      * left. by erewrite CDPSession_send_detached.
    + left. by rewrite CDPSession_send_dangling.
  - destruct (store w !! this) as [s|] eqn:Hs.
    + destruct (s_connection s) as [[]|] eqn:Hc.
      * right. left. erewrite CDPSession_detach_attached by done. by eexists _, _.
      * left. by erewrite CDPSession_detach_detached.
    + left. by rewrite CDPSession_detach_dangling.
  - right. left. by eexists _, _.
  - left. apply settling_Connection_dispose.
  - left. destruct (onmessage w); [apply settling_Connection_onMessage | done].
  - left. destruct (onclose w); [apply settling_Connection_onClose | done].
Qed.

(** ** Which request a pending call waits for *)

Lemma answers_requests_settling w w' :
  answers_requests w → settling w w' → answers_requests w'.
Proof.
  intros Hw Hsg owner id cb Hp. pose proof (sg_pending _ _ Hsg _ _ _ Hp) as Hp0.
  destruct (Hw owner id cb Hp0) as (msg & Hin & Hm & Hsid).
  destruct (sg_trace _ _ Hsg) as (rest & Htr & _).
  exists msg. split_and!; [| done |].
  - rewrite Htr. apply elem_of_app. by left.
  - rewrite Hsid. destruct owner as [|r]; [done|]. simpl.
    unfold pending in Hp0. simpl in Hp0.
    destruct (store w !! r) as [s|] eqn:Hs; [|by apply elem_of_nil in Hp0].
    destruct (sg_store _ _ Hsg r s Hs) as (s' & -> & Hi & _). done.
Qed.

Lemma answers_requests_step w a :
  answers_requests w → answers_requests (step w a).
Proof.
  intros Hw.
  destruct (step_sends_or_settles w a)
    as [Hsg|[(method & params & ->)|(this & s & method & params & Hs & Hc & ->)]].
  - by eapply answers_requests_settling.
  - intros owner id cb. unfold pending, request_of.
    destruct owner as [|r]; simpl.
    + intros [[-> ->]|Hin]%JsMapFacts.elem_of_set.
      * eexists. split.
        { apply elem_of_app. right. apply list_elem_of_singleton. reflexivity. }
        split; reflexivity.
      * destruct (Hw OnConnection id cb Hin) as (msg & Hmsg & Hm & Hsid).
        exists msg. split_and!; [|done..]. apply elem_of_app. by left.
    + intros Hin.
      destruct (Hw (OnSession r) id cb Hin) as (msg & Hmsg & Hm & Hsid).
      exists msg. split_and!; [|done..]. apply elem_of_app. by left.
  - intros owner id cb. unfold pending, request_of.
    change (table (set_store ?st (after_rawSend ?m w)) owner)
      with (table (set_store st w) owner).
    rewrite table_alter. destruct owner as [|r]; simpl.
    + intros Hin.
      destruct (Hw OnConnection id cb Hin) as (msg & Hmsg & Hm & Hsid).
      exists msg. split_and!; [|done..]. apply elem_of_app. by left.
    + destruct (decide (r = this)) as [->|Hr].
      * rewrite Hs, list_lookup_alter_eq, Hs. simpl.
        intros [[-> ->]|Hin]%JsMapFacts.elem_of_set.
        -- eexists. split.
           { apply elem_of_app. right. apply list_elem_of_singleton.
             reflexivity. }
           split; reflexivity.
        -- destruct (Hw (OnSession this) id cb) as (msg & Hmsg & Hm & Hsid).
           { unfold pending. simpl. by rewrite Hs. }
           exists msg. split_and!; [|done|].
           ++ apply elem_of_app. by left.
           ++ rewrite Hsid. simpl. by rewrite Hs.
      * rewrite list_lookup_alter_ne by done. intros Hin.
        destruct (Hw (OnSession r) id cb Hin) as (msg & Hmsg & Hm & Hsid).
        exists msg. split_and!; [|done..]. apply elem_of_app. by left.
Qed.

Lemma reachable_answers_requests w : reachable w → answers_requests w.
Proof.
  induction 1 as [|w a _ IH].
  - intros [|r] id cb Hin; unfold pending in Hin; simpl in Hin;
      by apply elem_of_nil in Hin.
  - by apply answers_requests_step.
Qed.

Lemma sent_once (effects : list Effect) (id : Z) (m1 m2 : RawMessage) :
  NoDup (sent_ids effects) →
  TransportSend m1 id ∈ effects → TransportSend m2 id ∈ effects → m1 = m2.
Proof.
  induction effects as [|e effects IH]; [by intros _ ?%elem_of_nil|].
  assert (∀ m, TransportSend m id ∈ effects → id ∈ sent_ids effects) as Hin.
  { intros m Hm. unfold sent_ids. apply list_elem_of_omap.
    by exists (TransportSend m id). }
  intros Hnd [H1|H1]%elem_of_cons [H2|H2]%elem_of_cons.
  - congruence.
  - subst e. simpl in Hnd. apply NoDup_cons in Hnd as [Hnd _].
    destruct Hnd. by eapply Hin.
  - subst e. simpl in Hnd. apply NoDup_cons in Hnd as [Hnd _].
    destruct Hnd. by eapply Hin.
  - apply IH; [|done..]. destruct e; simpl in Hnd; try done.
    by apply NoDup_cons in Hnd as [_ ?].
Qed.

(** At any moment, each pending call waits for exactly one request
    that went to the transport: the one sent under the id of the call.
    That request has the method recorded in the call, which is the
    method every rejection of the call will name; it carries no
    session id when the call is in the Connection's table, and the id
    of the session when the call is in the table of a session. *)
Theorem pending_call_waits_for_its_request actions owner id cb :
  let w := run new_Connection actions in
  pending w owner id cb →
  ∃ msg, request_of w owner id cb msg
         ∧ ∀ msg', TransportSend msg' id ∈ trace w → msg' = msg.
Proof.
  intros w Hp.
  assert (reachable w) as Hreach by (apply reachable_run; constructor).
  destruct (reachable_answers_requests w Hreach owner id cb Hp)
    as (msg & Hmsg).
  exists msg. split; [done|]. intros msg' Hin'.
  apply (sent_once (trace w) id); [|done | apply Hmsg].
  rewrite (inv_sent w (reachable_Inv w Hreach)). apply NoDup_seqZ.
Qed.

(** ** Which method a rejection names *)

Lemma names_method_target_closed cb : names_method (target_closed cb) (cb_method cb).
Proof. eexists _, "Target closed.". by split. Qed.

Lemma names_method_createProtocolError error method object_error e :
  createProtocolError error method object_error = Normal e →
  names_method (AProtocolError e) method.
Proof.
  intros (_ & suffix & Hm & _)%createProtocolError_message.
  exists e, (e_message object_error +:+ suffix). by split.
Qed.

Lemma rejects_pending_refl w : rejects_pending w w.
Proof.
  exists []. split; [by rewrite app_nil_r|]. by intros p err ?%elem_of_nil.
Qed.

Lemma rejects_pending_trans w1 w2 w3 :
  settling w1 w2 → rejects_pending w1 w2 → rejects_pending w2 w3 →
  rejects_pending w1 w3.
Proof.
  intros Hsg (l1 & Ht1 & H1) (l2 & Ht2 & H2). exists (l1 ++ l2). split.
  - by rewrite Ht2, Ht1, app_assoc.
  - intros p err [Hin|Hin]%elem_of_app; [by apply H1|].
    destruct (H2 p err Hin) as (owner & id & cb & Hp & Hrest).
    exists owner, id, cb. split; [|done]. by apply (sg_pending _ _ Hsg).
Qed.

(** No rejection among the effects. *)
Lemma rejects_pending_log w (l : list Effect) :
  (∀ p err, Reject p err ∉ l) → rejects_pending w (log l w).
Proof. intros Hl. exists l. split; [done|]. intros p err Hin. by destruct (Hl p err). Qed.

(** The trace is what counts. *)
Lemma rejects_pending_same w w1 w2 :
  trace w2 = trace w1 → rejects_pending w w1 → rejects_pending w w2.
Proof. intros Ht (rest & Hr & H). exists rest. by rewrite Ht. Qed.

Lemma rejects_pending_settlement w w' owner id callback object :
  pending w owner id callback →
  trace w' = trace w ++ settlement_effects callback object →
  rejects_pending w w'.
Proof.
  intros Hp Ht. exists (settlement_effects callback object). split; [done|].
  intros p err Heq%settlement_effects_elem. exists owner, id, callback.
  apply settlement_Normal in Heq as [[_ [=]]|(oe & e & _ & Hc & [= -> ->])].
  split_and!; [done..|]. by eapply names_method_createProtocolError.
Qed.

Lemma rejects_pending_rejections w w' owner (m : JsMap.t Z ConnectionCallback)
    (l : list Effect) :
  table w owner = m →
  trace w'
  = trace w ++ map (λ cb, Reject (cb_promise cb) (target_closed cb))
                 (JsMap.values m) ++ l →
  (∀ p err, Reject p err ∉ l) →
  rejects_pending w w'.
Proof.
  intros Hm Ht Hl. eexists. split; [done|].
  intros p err [Hin|Hin]%elem_of_app; [|by destruct (Hl p err)].
  apply list_elem_of_fmap_1 in Hin as (cb & [= -> ->] & Hcb).
  apply JsMapFacts.values_elem_of in Hcb as [id Hcb].
  exists owner, id, cb. split_and!; [|done|].
  - unfold pending. by rewrite Hm.
  - apply names_method_target_closed.
Qed.

Lemma notify_no_rejection event session object registered p err :
  Reject p err ∉ notify event session object registered.
Proof.
  unfold notify. destruct (JsMap.get _ _).
  - by intros [?|[?|?%elem_of_nil]%elem_of_cons]%elem_of_cons.
  - by intros [?|?%elem_of_nil]%elem_of_cons.
Qed.

Lemma rejects_pending_CDPSession_onMessage this object w :
  rejects_pending w (CDPSession_onMessage this object w).1.
Proof.
  destruct (store w !! this) as [s|] eqn:Hs.
  - destruct (truthy_number_cases (o_id object)) as [Hf|(id & Hid & Hnz)].
    + erewrite CDPSession_onMessage_event by done.
      destruct (assert true); [apply rejects_pending_refl|].
      apply rejects_pending_log. by intros p err ?%list_elem_of_singleton.
    + destruct (JsMap.get id (s_callbacks s)) as [callback|] eqn:Hcb.
      * erewrite CDPSession_onMessage_matched by done.
        apply (rejects_pending_settlement w _ (OnSession this) id callback object);
          [|by rewrite settle_world].
        unfold pending. simpl. rewrite Hs. by apply JsMapFacts.get_elem_of.
      * erewrite CDPSession_onMessage_unmatched by done.
        destruct (assert false); [apply rejects_pending_refl|].
        apply rejects_pending_log. by intros p err ?%list_elem_of_singleton.
  - rewrite CDPSession_onMessage_dangling by done. apply rejects_pending_refl.
Qed.

Lemma rejects_pending_routing_part object w :
  rejects_pending w (routing_part object w).1.
Proof.
  destruct (truthy_string (o_sessionId object)) eqn:Hs.
  - rewrite routing_part_session by done.
    destruct (JsMap.get (o_sessionId object) (sessions w)) as [r|];
      [apply rejects_pending_CDPSession_onMessage | apply rejects_pending_refl].
  - destruct (truthy_number_cases (o_id object)) as [Hf|(id & Hid & Hnz)].
    + rewrite routing_part_event by done.
      apply rejects_pending_log. by intros p err ?%list_elem_of_singleton.
    + destruct (JsMap.get id (callbacks w)) as [callback|] eqn:Hcb.
      * erewrite routing_part_matched by done.
        apply (rejects_pending_settlement w _ OnConnection id callback object);
          [|by rewrite settle_world].
        by apply JsMapFacts.get_elem_of.
      * erewrite routing_part_unmatched by done. apply rejects_pending_refl.
Qed.

Lemma rejects_pending_structural_part object w :
  rejects_pending w (structural_part object w).1.
Proof.
  destruct (decide (is_attach object)) as [Ha|Ha].
  - destruct (o_params object) as [params|] eqn:Hp.
    + destruct (p_targetInfo params) as [targetInfo|] eqn:Ht.
      * erewrite structural_part_attach by done. cbv zeta.
        eexists. split; [done|]. intros p err Hin.
        by apply notify_no_rejection in Hin.
      * rewrite structural_part_attach_malformed; [|done | right; eauto].
        apply rejects_pending_refl.
    + rewrite structural_part_attach_malformed; [|done | by left].
      apply rejects_pending_refl.
  - destruct (decide (is_detach object)) as [Hd|Hd].
    + destruct (o_params object) as [params|] eqn:Hp.
      * destruct (JsMap.get (p_sessionId params) (sessions w))
          as [session|] eqn:Hg.
        -- destruct (store w !! session) as [s|] eqn:Hs.
           ++ erewrite structural_part_detach by done. cbv zeta.
              apply (rejects_pending_rejections w _ (OnSession session)
                       (s_callbacks s)
                       (Emit (OnSession session)
                          CDPSessionEmittedEvents_Disconnected NoArg
                        :: notify "sessiondetached" session object
                             (JsMap.delete (p_sessionId params) (sessions w)))).
              ** simpl. by rewrite Hs.
              ** unfold closure_effects. simpl. by rewrite <- !app_assoc.
              ** intros p err [?|Hin]%elem_of_cons; [done|].
                 by apply notify_no_rejection in Hin.
           ++ erewrite structural_part_detach_dangling by done.
              apply rejects_pending_refl.
        -- erewrite structural_part_detach_unknown by done.
           apply rejects_pending_refl.
      * rewrite structural_part_detach_malformed by done.
        apply rejects_pending_refl.
    + rewrite structural_part_other by done. apply rejects_pending_refl.
Qed.

Lemma settling_structural_part object : keeps settling (structural_part object).
Proof.
  unfold structural_part, emit.
  keeps_structure
    ltac:(first [ apply settling_CDPSession_onClosed | settling_step ]).
Qed.

Lemma rejects_pending_Connection_onMessage object w :
  rejects_pending w (Connection_onMessage object w).1.
Proof.
  rewrite Connection_onMessage_seq.
  pose proof (settling_structural_part object w) as Hsg.
  pose proof (rejects_pending_structural_part object w) as H1.
  destruct (structural_part object w) as [w1 [[]|e]]; simpl in *; [|done].
  apply (rejects_pending_trans w w1); [done.. |].
  apply rejects_pending_routing_part.
Qed.

Lemma closures_rejected (st : list CDPSession) (rs : list ref) p err :
  Reject p err ∈ closures st rs →
  ∃ r s cb, r ∈ rs ∧ st !! r = Some s ∧ cb ∈ JsMap.values (s_callbacks s)
            ∧ p = cb_promise cb ∧ err = target_closed cb.
Proof.
  unfold closures. induction rs as [|r rs IH]; simpl.
  - by intros ?%elem_of_nil.
  - intros [Hin|Hin]%elem_of_app.
    + destruct (st !! r) as [s|] eqn:Hs; [|by apply elem_of_nil in Hin].
      unfold closure_effects in Hin.
      apply elem_of_app in Hin as [Hin|Hin].
      * apply list_elem_of_fmap_1 in Hin as (cb & [= -> ->] & Hcb).
        exists r, s, cb. split_and!; [left | done..].
      * by apply list_elem_of_singleton in Hin.
    + destruct (IH Hin) as (r' & s & cb & Hr' & Hrest).
      exists r', s, cb. split; [by right | done].
Qed.

Lemma rejects_pending_Connection_onClose w :
  Inv w → rejects_pending w (Connection_onClose w).1.
Proof.
  intros HI. destruct (closed w) eqn:Hc.
  - rewrite Connection_onClose_closed by done. apply rejects_pending_refl.
  - rewrite Connection_onClose_reachable by done. eexists. split.
    + simpl. rewrite <- !app_assoc. reflexivity.
    + intros p err [Hin|[Hin|Hin]%elem_of_app]%elem_of_app.
      * apply list_elem_of_fmap_1 in Hin as (cb & [= -> ->] & Hcb).
        apply JsMapFacts.values_elem_of in Hcb as [id Hcb].
        exists OnConnection, id, cb. split_and!; [done..|].
        apply names_method_target_closed.
      * apply closures_rejected in Hin as (r & s & cb & _ & Hs & Hcb & -> & ->).
        apply JsMapFacts.values_elem_of in Hcb as [id Hcb].
        exists (OnSession r), id, cb. split_and!; [|done|].
        -- unfold pending. simpl. by rewrite Hs.
        -- apply names_method_target_closed.
      * by apply list_elem_of_singleton in Hin.
Qed.

Lemma rejects_pending_step w a : Inv w → rejects_pending w (step w a).
Proof.
  intros HI.
  destruct a as [method params | this method params | this | targetInfo
                | | object | ]; unfold step.
  - rewrite Connection_send_eq. eexists. split; [done|].
    by intros p err ?%list_elem_of_singleton.
  - destruct (store w !! this) as [s|] eqn:Hs.
    + destruct (s_connection s) as [[]|] eqn:Hconn.
      * erewrite CDPSession_send_attached by done. eexists. split; [done|].
        by intros p err ?%list_elem_of_singleton.
      * erewrite CDPSession_send_detached by done. apply rejects_pending_refl.
    + rewrite CDPSession_send_dangling by done. apply rejects_pending_refl.
  - destruct (store w !! this) as [s|] eqn:Hs.
    + destruct (s_connection s) as [[]|] eqn:Hconn.
      * erewrite CDPSession_detach_attached by done.
        rewrite Connection_send_eq. eexists. split; [done|].
        by intros p err ?%list_elem_of_singleton.
      * erewrite CDPSession_detach_detached by done. apply rejects_pending_refl.
    + rewrite CDPSession_detach_dangling by done. apply rejects_pending_refl.
  - unfold Connection_createSession. rewrite Connection_send_eq.
    eexists. split; [done|]. by intros p err ?%list_elem_of_singleton.
  - pose proof (rejects_pending_Connection_onClose w HI) as H1.
    pose proof (settling_Connection_onClose w) as Hsg.
    unfold Connection_dispose, mbind, JS_bind.
    destruct (Connection_onClose w) as [w1 [[]|e]]; simpl in *; [|done].
    apply (rejects_pending_trans w w1); [done..|].
    apply (rejects_pending_log w1 [TransportClose]).
    by intros p err ?%list_elem_of_singleton.
  - destruct (onmessage w);
      [apply rejects_pending_Connection_onMessage | apply rejects_pending_refl].
  - destruct (onclose w);
      [by apply rejects_pending_Connection_onClose | apply rejects_pending_refl].
Qed.

Lemma numbered_step w a : numbered w → numbered (step w a).
Proof.
  intros [Hn Hp].
  destruct (step_sends_or_settles w a)
    as [Hsg|[(method & params & ->)|(this & s & method & params & Hs & Hc & ->)]].
  - split.
    + by rewrite (sg_promises _ _ Hsg), (sg_lastId _ _ Hsg).
    + intros owner id cb Hpend. by apply (Hp owner), (sg_pending _ _ Hsg).
  - split; [simpl; lia|]. intros owner id cb. unfold pending.
    destruct owner as [|r]; simpl; [|apply (Hp (OnSession r))].
    intros [[-> ->]|Hin]%JsMapFacts.elem_of_set;
      [simpl; lia | by apply (Hp OnConnection)].
  - split; [simpl; lia|]. intros owner id cb. unfold pending.
    change (table (set_store ?st (after_rawSend ?m w)) owner)
      with (table (set_store st w) owner).
    rewrite table_alter. destruct owner as [|r]; [apply (Hp OnConnection)|].
    case_decide as Hr; [|apply (Hp (OnSession r))]. subst r. rewrite Hs. simpl.
    intros [[-> ->]|Hin]%JsMapFacts.elem_of_set; [simpl; lia|].
    apply (Hp (OnSession this)). unfold pending. simpl. by rewrite Hs.
Qed.

Lemma reachable_numbered w : reachable w → numbered w.
Proof.
  induction 1 as [|w a _ IH]; [|by apply numbered_step].
  split; [done|]. intros [|r] id cb Hin; unfold pending in Hin; simpl in Hin;
    by apply elem_of_nil in Hin.
Qed.

Lemma reachable_rejections_named w : reachable w → rejections_named w.
Proof.
  induction 1 as [|w a Hw IH]; [by intros p err ?%elem_of_nil|].
  pose proof (reachable_Inv w Hw) as HI.
  destruct (rejects_pending_step w a HI) as (rest & Ht & Hrest).
  intros p err Hin. rewrite Ht in Hin |- *.
  apply elem_of_app in Hin as [Hin|Hin].
  - destruct (IH p err Hin) as (msg & Hmsg & Hname). exists msg.
    split; [|done]. apply elem_of_app. by left.
  - destruct (Hrest p err Hin) as (owner & id & cb & Hpend & <- & Hname).
    destruct (reachable_answers_requests w Hw owner id cb Hpend)
      as (msg & Hmsg & Hmethod & _).
    destruct (reachable_numbered w Hw) as [_ Hnum].
    exists msg. split.
    + apply elem_of_app. left.
      by replace (Z.of_nat (cb_promise cb) + 1) with id
        by (rewrite (Hnum owner id cb Hpend); lia).
    + by rewrite Hmethod.
Qed.

(** Every rejection is attributed to the right request.  Promises and
    requests are numbered alike (promise [p] is created by the [send]
    that hands request [p + 1] to the transport); whenever a router or
    a closure routine rejects promise [p], the error is a
    [ProtocolError] whose text starts with "Protocol error (method): ",
    where [method] is the method of request [p + 1]. *)
Theorem rejection_names_the_method_of_its_request actions p err :
  let w := run new_Connection actions in
  Reject p err ∈ trace w →
  ∃ msg e text,
    TransportSend msg (Z.of_nat p + 1) ∈ trace w
    ∧ err = AProtocolError e
    ∧ message e = "Protocol error (" +:+ rm_method msg +:+ "): " +:+ text.
Proof.
  intros w Hin.
  assert (reachable w) as Hreach by (apply reachable_run; constructor).
  destruct (reachable_rejections_named w Hreach p err Hin)
    as (msg & Hmsg & e & text & He & Htext).
  by exists msg, e, text.
Qed.

(** ** The closed flag *)

Ltac unchanged_step :=
  first [ apply keeps_modify; intros ?; reflexivity
        | apply keeps_modify; intros ?; unfold unchanged; reflexivity ].

Lemma flags_CDPSession_onMessage this object :
  keeps (unchanged flags) (CDPSession_onMessage this object).
Proof.
  unfold CDPSession_onMessage, emit, resolve, reject, perform, update_session.
  cbv zeta. keeps_structure unchanged_step.
Qed.

Lemma flags_CDPSession_onClosed this :
  keeps (unchanged flags) (CDPSession_onClosed this).
Proof.
  unfold CDPSession_onClosed, emit, reject, perform, update_session.
  keeps_structure unchanged_step.
Qed.

Lemma flags_new_CDPSession targetType sessionId :
  keeps (unchanged flags) (new_CDPSession targetType sessionId).
Proof. by intros w. Qed.

(** The router reads and writes neither [#closed] nor the hooks. *)
Lemma flags_Connection_onMessage object :
  keeps (unchanged flags) (Connection_onMessage object).
Proof.
  unfold Connection_onMessage, emit, resolve, reject, perform.
  keeps_structure
    ltac:(first [ apply flags_CDPSession_onClosed
                | apply flags_CDPSession_onMessage
                | apply flags_new_CDPSession
                | unchanged_step ]).
Qed.

Lemma closed_for_good_same w w' :
  flags w' = flags w → sessions w' = sessions w →
  closed_for_good w → closed_for_good w'.
Proof.
  unfold closed_for_good, shut, flags. intros [= -> -> ->] ->. done.
Qed.

Lemma closed_for_good_onClose w :
  Inv w → closed_for_good w → closed_for_good (Connection_onClose w).1.
Proof.
  intros HI Hw. destruct (closed w) eqn:Hc.
  - by rewrite Connection_onClose_closed.
  - rewrite Connection_onClose_reachable by done. by intros _.
Qed.

Lemma closed_for_good_step w a :
  Inv w → closed_for_good w → closed_for_good (step w a).
Proof.
  intros HI Hw.
  destruct a as [method params | this method params | this | targetInfo
                | | object | ]; unfold step.
  - rewrite Connection_send_eq. by apply (closed_for_good_same w).
  - destruct (store w !! this) as [s|] eqn:Hs.
    + destruct (s_connection s) as [[]|] eqn:Hconn.
      * erewrite CDPSession_send_attached by done.
        by apply (closed_for_good_same w).
      * by erewrite CDPSession_send_detached.
    + by rewrite CDPSession_send_dangling.
  - destruct (store w !! this) as [s|] eqn:Hs.
    + destruct (s_connection s) as [[]|] eqn:Hconn.
      * erewrite CDPSession_detach_attached by done.
        rewrite Connection_send_eq. by apply (closed_for_good_same w).
      * by erewrite CDPSession_detach_detached.
    + by rewrite CDPSession_detach_dangling.
  - unfold Connection_createSession. rewrite Connection_send_eq.
    by apply (closed_for_good_same w).
  - pose proof (closed_for_good_onClose w HI Hw) as Hclose.
    unfold Connection_dispose, mbind, JS_bind.
    destruct (Connection_onClose w) as [w' [[]|e]]; simpl in *; [|done].
    by apply (closed_for_good_same w').
  - destruct (onmessage w) eqn:Hm; [|done].
    pose proof (flags_Connection_onMessage object w) as Hflags.
    unfold unchanged, flags in Hflags. injection Hflags as Hc _ _.
    intros Hc'. rewrite Hc in Hc'. destruct (Hw Hc') as [(_ & Hm' & _) _].
    congruence.
  - destruct (onclose w); [by apply closed_for_good_onClose | done].
Qed.

Lemma reachable_closed_for_good w : reachable w → closed_for_good w.
Proof.
  induction 1 as [|w a Hw IH]; [done|].
  apply closed_for_good_step; [by apply reachable_Inv | done].
Qed.

(** In every world the program reaches, [dispose] returns normally;
    it sends nothing, its last act is to close the transport, and it
    leaves the Connection closed, its hooks off the transport and its
    session map empty.  On a Connection that is open it also empties
    the Connection's table; on one that has closed already it does
    nothing but close the transport once more.  Whatever the callers
    and the transport do afterwards, [_closed] stays true and the
    session map stays empty. *)
Theorem dispose_closes_for_good actions :
  let w := run new_Connection actions in
  let w' := (Connection_dispose w).1 in
  Connection_dispose w = (w', Normal tt)
  ∧ (∃ effects, trace w' = trace w ++ effects ++ [TransportClose]
                ∧ sent_ids effects = [])
  ∧ shut w'
  ∧ sessions w' = []
  ∧ lastId w' = lastId w
  ∧ (closed w = false → callbacks w' = [])
  ∧ (closed w = true → w' = log [TransportClose] w)
  ∧ ∀ later,
      let w'' := run w' later in
      Connection_closed w'' = (w'', Normal true)
      ∧ sessions w'' = []
      ∧ Connection_dispose w'' = (log [TransportClose] w'', Normal tt).
Proof.
  intros w w'.
  assert (reachable w) as Hreach by (apply reachable_run; constructor).
  pose proof (reachable_Inv w Hreach) as HI.
  assert (reachable w') as Hreach'.
  { apply (reachable_step w Call_dispose Hreach). }
  assert (shut w' ∧ sessions w' = []) as [Hshut Hnil].
  { apply (reachable_closed_for_good w' Hreach'). unfold w'.
    destruct (closed w) eqn:Hc.
    - by rewrite Connection_dispose_closed.
    - unfold Connection_dispose, mbind, JS_bind.
      by rewrite Connection_onClose_reachable. }
  split_and!; try done.
  - unfold w', Connection_dispose, mbind, JS_bind.
    destruct (closed w) eqn:Hc.
    + by rewrite Connection_onClose_closed.
    + by rewrite Connection_onClose_reachable.
  - unfold w', Connection_dispose, mbind, JS_bind.
    pose proof (settling_Connection_onClose w) as Hsg.
    destruct (sg_trace _ _ Hsg) as (effects & Htr & Hsent).
    assert (∃ v, Connection_onClose w = ((Connection_onClose w).1, Normal v))
      as [[] Hret].
    { destruct (closed w) eqn:Hc.
      - rewrite Connection_onClose_closed by done. by exists tt.
      - rewrite Connection_onClose_reachable by done. by exists tt. }
    rewrite Hret. simpl. exists effects. split; [|done].
    by rewrite Htr, <- app_assoc.
  - apply (sg_lastId _ _ (settling_Connection_dispose w)).
  - intros Hc. unfold w', Connection_dispose, mbind, JS_bind.
    by rewrite Connection_onClose_reachable.
  - intros Hc. unfold w'. by rewrite Connection_dispose_closed.
  - intros later w''.
    destruct (run_shut w' later Hshut) as ((Hc'' & _) & _).
    assert (reachable w'') as Hreach'' by by apply reachable_run.
    destruct (reachable_closed_for_good w'' Hreach'' Hc'') as [_ Hnil''].
    split_and!; [| done |].
    + unfold Connection_closed. js_unfold. unfold w'' in *. by rewrite Hc''.
    + by apply Connection_dispose_closed.
Qed.

(** ** Sessions of the session map *)

Lemma bindings_alter (g : CDPSession → CDPSession) (this : ref) w :
  (∀ s, s_connection (g s) = s_connection s) →
  bindings (set_store (alter g this (store w)) w) = bindings w.
Proof.
  intros Hg. unfold bindings. simpl. f_equal.
  apply list_eq. intros i. rewrite !list_lookup_fmap.
  destruct (decide (i = this)) as [->|Hi].
  - rewrite list_lookup_alter_eq. destruct (store w !! this); simpl; [|done].
    by rewrite Hg.
  - by rewrite list_lookup_alter_ne.
Qed.

Ltac bindings_step :=
  first [ apply keeps_modify; intros ?; reflexivity
        | apply keeps_modify; intros ?; unfold unchanged; reflexivity
        | apply keeps_modify; intros ?; by apply bindings_alter ].

Lemma bindings_CDPSession_onMessage this object :
  keeps (unchanged bindings) (CDPSession_onMessage this object).
Proof.
  unfold CDPSession_onMessage, emit, resolve, reject, perform, update_session.
  cbv zeta. keeps_structure bindings_step.
Qed.

(** The second half of the router registers no session, removes none
    and closes none. *)
Lemma bindings_routing_part object :
  keeps (unchanged bindings) (routing_part object).
Proof.
  unfold routing_part, emit, resolve, reject, perform.
  keeps_structure
    ltac:(first [ apply bindings_CDPSession_onMessage | bindings_step ]).
Qed.

Lemma live_bindings w w' : bindings w' = bindings w → live w → live w'.
Proof.
  unfold bindings. intros [= Hsess Hst] Hw k r Hin. rewrite Hsess in Hin.
  destruct (Hw k r Hin) as (s & Hs & Hc).
  assert ((s_connection <$> store w') !! r = Some (Some this_connection)) as Hr.
  { by rewrite Hst, list_lookup_fmap, Hs, <- Hc. }
  rewrite list_lookup_fmap in Hr.
  destruct (store w' !! r) as [s'|]; [|done]. injection Hr as Hr. eauto.
Qed.

Lemma live_structural_part object w :
  Inv w → live w → live (structural_part object w).1.
Proof.
  intros HI Hw. destruct (decide (is_attach object)) as [Ha|Ha].
  - destruct (o_params object) as [params|] eqn:Hp.
    + destruct (p_targetInfo params) as [targetInfo|] eqn:Ht.
      * erewrite structural_part_attach by done. unfold live. simpl.
        intros k r [[-> ->]|Hin]%JsMapFacts.elem_of_set.
        -- rewrite list_lookup_middle by done. eauto.
        -- destruct (Hw k r Hin) as (s & Hs & Hc). exists s.
           split; [|done]. by apply lookup_app_l_Some.
      * rewrite structural_part_attach_malformed; [done.. | right; eauto].
    + rewrite structural_part_attach_malformed; [done.. | by left].
  - destruct (decide (is_detach object)) as [Hd|Hd].
    + destruct (o_params object) as [params|] eqn:Hp.
      * destruct (JsMap.get (p_sessionId params) (sessions w))
          as [session|] eqn:Hg.
        -- destruct (store w !! session) as [s|] eqn:Hs.
           ++ erewrite structural_part_detach by done. unfold live. simpl.
              intros k r [Hin Hk]%JsMapFacts.elem_of_delete.
              destruct (Hw k r Hin) as (s' & Hs' & Hc').
              exists s'. split; [|done].
              rewrite list_lookup_alter_ne; [done|]. intros ->.
              destruct (inv_sessions w HI _ _ Hin) as (s1 & Hs1 & Hk1).
              destruct (inv_sessions w HI _ _ (JsMapFacts.get_elem_of _ _ _ Hg))
                as (s2 & Hs2 & Hk2).
              congruence.
           ++ by erewrite structural_part_detach_dangling.
        -- by erewrite structural_part_detach_unknown.
      * by rewrite structural_part_detach_malformed.
    + by rewrite structural_part_other.
Qed.

Lemma live_step w a : Inv w → live w → live (step w a).
Proof.
  intros HI Hw.
  destruct a as [method params | this method params | this | targetInfo
                | | object | ]; unfold step.
  - by rewrite Connection_send_eq.
  - destruct (store w !! this) as [s|] eqn:Hs.
    + destruct (s_connection s) as [[]|] eqn:Hconn.
      * erewrite CDPSession_send_attached by done.
        apply (live_bindings w); [|done].
        by apply (bindings_alter _ this (after_rawSend _ w)).
      * by erewrite CDPSession_send_detached.
    + by rewrite CDPSession_send_dangling.
  - destruct (store w !! this) as [s|] eqn:Hs.
    + destruct (s_connection s) as [[]|] eqn:Hconn.
      * erewrite CDPSession_detach_attached by done.
        by rewrite Connection_send_eq.
      * by erewrite CDPSession_detach_detached.
    + by rewrite CDPSession_detach_dangling.
  - unfold Connection_createSession. by rewrite Connection_send_eq.
  - unfold Connection_dispose, mbind, JS_bind. destruct (closed w) eqn:Hc.
    + by rewrite Connection_onClose_closed.
    + rewrite Connection_onClose_reachable by done. simpl.
      by intros k r ?%elem_of_nil.
  - destruct (onmessage w); [|done]. rewrite Connection_onMessage_seq.
    pose proof (live_structural_part object w HI Hw) as H1.
    destruct (structural_part object w) as [w1 [[]|e]]; simpl in *; [|done].
    apply (live_bindings w1); [|done]. apply bindings_routing_part.
  - destruct (onclose w); [|done]. destruct (closed w) eqn:Hc.
    + by rewrite Connection_onClose_closed.
    + rewrite Connection_onClose_reachable by done. simpl.
      by intros k r ?%elem_of_nil.
Qed.

Lemma reachable_live w : reachable w → live w.
Proof.
  induction 1 as [|w a Hw IH].
  - by intros k r ?%elem_of_nil.
  - apply live_step; [by apply reachable_Inv | done].
Qed.

(** In every world the program reaches, the session that
    [Connection.session] yields for an id [S] has [S] as its [id()],
    is bound to the Connection ([connection()] and [fromSession] yield
    it), and accepts a [send]: the request goes to the transport with
    session id [S] under the next id of the Connection, and the promise
    handed back is a new one, not a rejected one. *)
Theorem registered_session_is_live actions S r :
  let w := run new_Connection actions in
  Connection_session S w = Some r →
  CDPSession_id r w = (w, Normal (Some S))
  ∧ CDPSession_connection r w = (w, Normal (Some this_connection))
  ∧ Connection_fromSession r w = (w, Normal (Some this_connection))
  ∧ ∀ method params,
      let w' := (CDPSession_send r method params w).1 in
      CDPSession_send r method params w = (w', Normal (Pending (promises w)))
      ∧ trace w'
        = trace w
          ++ [TransportSend {| rm_sessionId := Some S; rm_method := method;
                               rm_params := params |} (lastId w + 1)]
      ∧ pending w' (OnSession r) (lastId w + 1) (pending_call method w).
Proof.
  intros w Hreg.
  assert (reachable w) as Hreach by (apply reachable_run; constructor).
  pose proof (reachable_Inv w Hreach) as HI.
  apply JsMapFacts.get_elem_of in Hreg.
  destruct (inv_sessions w HI _ _ Hreg) as (s & Hs & Hk).
  destruct (reachable_live w Hreach _ _ Hreg) as (s' & Hs' & Hc).
  assert (s' = s) as -> by congruence.
  split_and!.
  - unfold CDPSession_id. js_unfold. simpl. rewrite Hs. simpl. by rewrite Hk.
  - unfold CDPSession_connection. js_unfold. simpl. rewrite Hs. simpl.
    by rewrite Hc.
  - unfold Connection_fromSession, CDPSession_connection. js_unfold. simpl.
    rewrite Hs. simpl. by rewrite Hc.
  - intros method params w'. unfold w'.
    rewrite (CDPSession_send_attached r s) by done. rewrite Hk. simpl.
    split_and!; [done..|].
    unfold pending. simpl. rewrite list_lookup_alter_eq, Hs. simpl.
    apply JsMapFacts.get_elem_of, JsMapFacts.get_set_eq.
Qed.

(** ** The fate of a promise *)

Lemma settled_settlements p l : settled p l ↔ p ∈ settlements l.
Proof.
  unfold settled, settlements. rewrite list_elem_of_omap. naive_solver.
Qed.

Lemma settlements_app l1 l2 :
  settlements (l1 ++ l2) = settlements l1 ++ settlements l2.
Proof. apply omap_app. Qed.

Lemma settlements_silent l : Forall silent l → settlements l = [].
Proof.
  induction 1 as [|e l He _ IH]; [done|]. simpl.
  destruct e; simpl in *; done.
Qed.

Lemma settlements_settlement callback object :
  settlements (settlement_effects callback object) = [cb_promise callback]
  ∨ settlement_effects callback object = [].
Proof.
  unfold settlement_effects.
  destruct (settlement callback object) as [e|err] eqn:He; [left|by right].
  apply settles_settlement in He. simpl. by rewrite He.
Qed.

Lemma settlements_rejections (cbs : list ConnectionCallback) :
  settlements (map (λ cb, Reject (cb_promise cb) (target_closed cb)) cbs)
  = cb_promise <$> cbs.
Proof.
  induction cbs as [|cb cbs IH]; [done|].
  rewrite fmap_cons. simpl. f_equal. exact IH.
Qed.

Lemma settlements_closure_effects r s :
  settlements (closure_effects r s) = cb_promise <$> JsMap.values (s_callbacks s).
Proof.
  unfold closure_effects. rewrite settlements_app, settlements_rejections.
  simpl. by rewrite app_nil_r.
Qed.

Lemma NoDup_values_inj {K V B : Type} (f : V → B) (m : JsMap.t K V) :
  NoDup (JsMap.keys m) →
  (∀ i1 c1 i2 c2, (i1, c1) ∈ m → (i2, c2) ∈ m → f c1 = f c2 → i1 = i2) →
  NoDup (f <$> JsMap.values m).
Proof.
  unfold JsMap.keys, JsMap.values.
  induction m as [|[k v] m IH]; simpl; [constructor|].
  intros [Hk Hnd]%NoDup_cons Hinj. apply NoDup_cons. split.
  - intros (c & Hc & ([k' c'] & Hc' & Hin)%list_elem_of_fmap_1)%list_elem_of_fmap_1.
    simpl in Hc'. subst c'. apply Hk.
    assert (k = k') as ->.
    { apply (Hinj k v k' c); [left | by right | done]. }
    by apply (list_elem_of_fmap_2 fst) in Hin.
  - apply IH; [done|]. intros i1 c1 i2 c2 H1 H2. apply Hinj; by right.
Qed.

Lemma table_promises_NoDup w owner :
  Inv w → NoDup (cb_promise <$> JsMap.values (table w owner)).
Proof.
  intros HI. apply NoDup_values_inj; [apply HI|].
  intros i1 c1 i2 c2 H1 H2 Heq.
  by destruct (inv_promise_owner w HI owner owner i1 i2 c1 c2 H1 H2 Heq).
Qed.

Lemma table_promises_pending w owner p :
  p ∈ cb_promise <$> JsMap.values (table w owner) →
  ∃ id cb, pending w owner id cb ∧ cb_promise cb = p.
Proof.
  intros (cb & -> & (id & Hin)%JsMapFacts.values_elem_of)%list_elem_of_fmap_1.
  by exists id, cb.
Qed.

Lemma NoDup_settlements_extend w l :
  Inv w →
  NoDup (settlements (trace w)) →
  NoDup (settlements l) →
  (∀ p, p ∈ settlements l →
        ∃ owner id cb, pending w owner id cb ∧ cb_promise cb = p) →
  NoDup (settlements (trace w ++ l)).
Proof.
  intros HI Hnd Hl Hpend. rewrite settlements_app. apply NoDup_app.
  split_and!; [done | | done].
  intros p Hp%settled_settlements (owner & id & cb & Hin & <-)%Hpend.
  destruct (inv_settled w HI _ Hp) as [_ Hne]. by eapply Hne.
Qed.

Lemma settled_once_stable :
  stable (λ _, True) (λ w, Inv w ∧ NoDup (settlements (trace w))).
Proof.
  split.
  - intros w method msg [HI Hnd]. split; [by apply Inv_stable|]. simpl.
    rewrite settlements_app. simpl. by rewrite app_nil_r.
  - intros w r s method msg [HI Hnd] Hs Hc. split; [by eapply Inv_stable|].
    simpl. rewrite settlements_app. simpl. by rewrite app_nil_r.
  - intros w id callback object _ [HI Hnd] Hget.
    split; [by apply Inv_stable|]. rewrite settle_world. simpl.
    destruct (settlements_settlement callback object) as [Hone|Hnone];
      [|by rewrite Hnone, app_nil_r].
    apply NoDup_settlements_extend; [done.. | |]; rewrite Hone.
    + apply NoDup_singleton.
    + intros p ->%list_elem_of_singleton.
      exists OnConnection, id, callback. split; [|done].
      by apply JsMapFacts.get_elem_of.
  - intros w r s id callback object _ [HI Hnd] Hreg Hs Hget.
    split; [by eapply Inv_stable|]. rewrite settle_world. simpl.
    destruct (settlements_settlement callback object) as [Hone|Hnone];
      [|by rewrite Hnone, app_nil_r].
    apply NoDup_settlements_extend; [done.. | |]; rewrite Hone.
    + apply NoDup_singleton.
    + intros p ->%list_elem_of_singleton.
      exists (OnSession r), id, callback. split; [|done].
      unfold pending. simpl. rewrite Hs. by apply JsMapFacts.get_elem_of.
  - intros w r s [HI Hnd] Hreg Hs.
    split; [by eapply Inv_stable|]. simpl.
    pose proof (table_promises_NoDup w (OnSession r) HI) as Htab.
    simpl in Htab. rewrite Hs in Htab.
    apply NoDup_settlements_extend; [done.. | |];
      rewrite settlements_closure_effects; [done|].
    intros p Hp. exists (OnSession r).
    apply (table_promises_pending w (OnSession r)). simpl. by rewrite Hs.
  - intros w targetType sessionId _ [HI Hnd]. split; [by apply Inv_stable|]. done.
  - intros w k [HI Hnd]. split; [by apply Inv_stable|]. done.
  - intros w [HI Hnd]. split; [by apply Inv_stable|]. done.
  - intros w l [HI Hnd] Hl. split; [by apply Inv_stable|]. simpl.
    by rewrite settlements_app, (settlements_silent l), app_nil_r.
  - intros w [HI Hnd]. split; [by apply Inv_stable|]. simpl.
    apply NoDup_settlements_extend; [done.. | |];
      rewrite settlements_rejections.
    + apply (table_promises_NoDup w OnConnection HI).
    + intros p Hp. exists OnConnection.
      by apply (table_promises_pending w OnConnection).
Qed.

(** Over the whole life of a Connection no promise is settled twice:
    the promises resolved or rejected by the routers and by the closure
    routines, taken in the order of the effects, are pairwise
    distinct. *)
Theorem no_promise_is_settled_twice actions :
  NoDup (settlements (trace (run new_Connection actions))).
Proof.
  apply (stable_run _ _ settled_once_stable).
  - by apply Forall_forall.
  - split; [apply Inv_new | constructor].
Qed.

(** A transition that creates no promise: a call that was pending is
    still pending or has just been settled. *)
Lemma accounted_settling w w' l :
  accounted w →
  promises w' = promises w →
  trace w' = trace w ++ l →
  (∀ owner id cb, pending w owner id cb →
     pending w' owner id cb ∨ settled (cb_promise cb) l) →
  accounted w'.
Proof.
  intros Hw Hpr Htr Hkeep p Hp. rewrite Hpr in Hp. rewrite Htr.
  destruct (Hw p Hp) as [Hs|(owner & id & cb & Hpend & <-)].
  - left. apply settled_app. by left.
  - destruct (Hkeep owner id cb Hpend) as [Hpend'|Hs].
    + right. by exists owner, id, cb.
    + left. apply settled_app. by right.
Qed.

(** A [send]: the promise it creates waits in a table. *)
Lemma accounted_sent w w' owner id cb l :
  accounted w →
  promises w' = S (promises w) →
  trace w' = trace w ++ l →
  (∀ owner' id' cb', pending w owner' id' cb' → pending w' owner' id' cb') →
  pending w' owner id cb → cb_promise cb = promises w →
  accounted w'.
Proof.
  intros Hw Hpr Htr Hkeep Hnew Hcb p Hp. rewrite Hpr in Hp. rewrite Htr.
  destruct (decide (p = promises w)) as [->|Hne].
  - right. by exists owner, id, cb.
  - destruct (Hw p ltac:(lia)) as [Hs|(owner' & id' & cb' & Hpend & <-)].
    + left. apply settled_app. by left.
    + right. exists owner', id', cb'. auto.
Qed.

Lemma settled_rejection (cbs : list ConnectionCallback) cb :
  cb ∈ cbs →
  settled (cb_promise cb)
    (map (λ cb, Reject (cb_promise cb) (target_closed cb)) cbs).
Proof.
  intros Hin. exists (Reject (cb_promise cb) (target_closed cb)).
  split; [|done].
  by apply (list_elem_of_fmap_2 (λ cb, Reject (cb_promise cb) (target_closed cb))).
Qed.

Lemma accounted_stable :
  stable_when printable (λ _, True) (λ w, Inv w ∧ accounted w).
Proof.
  split.
  - intros w method msg [HI Hw]. split; [by apply Inv_stable|].
    apply (accounted_sent w _ OnConnection (lastId w + 1)
             (pending_call method w) [TransportSend msg (lastId w + 1)]);
      try done.
    + intros [|r] id cb; unfold pending; simpl; [|done].
      rewrite JsMapFacts.set_fresh
        by apply (fresh_id_not_pending w OnConnection HI).
      intros Hin. apply elem_of_app. by left.
    + unfold pending. simpl.
      apply JsMapFacts.get_elem_of, JsMapFacts.get_set_eq.
  - intros w r s method msg [HI Hw] Hs Hc. split; [by eapply Inv_stable|].
    apply (accounted_sent w _ (OnSession r) (lastId w + 1)
             (pending_call method w) [TransportSend msg (lastId w + 1)]);
      try done.
    + intros owner id cb. unfold pending.
      change (table (set_store ?st (after_rawSend msg w)) owner)
        with (table (set_store st w) owner).
      rewrite table_alter. destruct owner as [|r']; [done|].
      case_decide as Hr; [|done]. subst r'. simpl. rewrite Hs. simpl.
      pose proof (fresh_id_not_pending w (OnSession r) HI) as Hfresh.
      simpl in Hfresh. rewrite Hs in Hfresh.
      rewrite JsMapFacts.set_fresh by done.
      intros Hin. apply elem_of_app. by left.
    + unfold pending. simpl. rewrite list_lookup_alter_eq, Hs. simpl.
      apply JsMapFacts.get_elem_of, JsMapFacts.get_set_eq.
  - intros w id callback object Hok [HI Hw] Hget. split; [by apply Inv_stable|].
    destruct (settlement_printable callback object Hok) as [effect Heffect].
    rewrite (settle_Normal _ _ effect) by done.
    apply (accounted_settling w _ [effect]); try done.
    intros [|r] id' cb; unfold pending; simpl; [|by left].
    intros Hin. destruct (decide (id' = id)) as [->|Hne].
    + right. apply settled_singleton.
      apply JsMapFacts.elem_of_get in Hin;
        [|apply (inv_table_keys w HI OnConnection)].
      assert (cb = callback) as -> by congruence.
      by eapply settles_settlement.
    + left. by apply JsMapFacts.elem_of_delete.
  - intros w r s id callback object Hok [HI Hw] Hreg Hs Hget.
    split; [by eapply Inv_stable|].
    destruct (settlement_printable callback object Hok) as [effect Heffect].
    rewrite (settle_Normal _ _ effect) by done. cbn [fst].
    apply (accounted_settling w _ [effect]); try done.
    intros owner id' cb. unfold pending.
    change (table (log ?l ?w') owner) with (table w' owner).
    rewrite table_alter. destruct owner as [|r']; [by left|].
    case_decide as Hr; [|by left]. subst r'. simpl. rewrite Hs. simpl.
    intros Hin. destruct (decide (id' = id)) as [->|Hne].
    + right. apply settled_singleton.
      pose proof (inv_table_keys w HI (OnSession r)) as Hnd.
      simpl in Hnd. rewrite Hs in Hnd.
      apply JsMapFacts.elem_of_get in Hin; [|done].
      assert (cb = callback) as -> by congruence.
      by eapply settles_settlement.
    + left. by apply JsMapFacts.elem_of_delete.
  - intros w r s [HI Hw] Hreg Hs. split; [by eapply Inv_stable|].
    apply (accounted_settling w _ (closure_effects r s)); try done.
    intros owner id cb. unfold pending.
    change (table (log ?l ?w') owner) with (table w' owner).
    rewrite table_alter. destruct owner as [|r']; [by left|].
    case_decide as Hr; [|by left]. subst r'. simpl. rewrite Hs.
    intros Hin. right. unfold closure_effects. apply settled_app. left.
    apply settled_rejection. by eapply JsMapFacts.elem_of_values.
  - intros w targetType sessionId _ [HI Hw]. split; [by apply Inv_stable|].
    apply (accounted_settling w _ []); try done; simpl.
    + by rewrite app_nil_r.
    + intros [|r] id cb; unfold pending; simpl; [by left|].
      destruct (store w !! r) as [s|] eqn:Hs; [|by intros ?%elem_of_nil].
      rewrite (lookup_app_l_Some _ _ _ _ Hs). by left.
  - intros w k [HI Hw]. split; [by apply Inv_stable|].
    apply (accounted_settling w _ []); try done; simpl.
    + by rewrite app_nil_r.
    + by left.
  - intros w [HI Hw]. split; [by apply Inv_stable|].
    apply (accounted_settling w _ []); try done; simpl.
    + by rewrite app_nil_r.
    + by left.
  - intros w l [HI Hw] Hl. split; [by apply Inv_stable|].
    apply (accounted_settling w _ l); try done. by left.
  - intros w [HI Hw]. split; [by apply Inv_stable|].
    apply (accounted_settling w _
             (map (λ cb, Reject (cb_promise cb) (target_closed cb))
                (JsMap.values (callbacks w)))); try done.
    intros [|r] id cb; unfold pending; simpl; [|by left].
    intros Hin. right. apply settled_rejection.
    by eapply JsMapFacts.elem_of_values.
Qed.

(** No call is lost as long as the responses are printable: each
    error they carry has no data, or data that renders.  In every world
    the program reaches through such actions, each promise that a
    [send] has created is in exactly one of two states: either an
    effect has settled it and no table holds it any more, or no effect
    has settled it and exactly one entry of one table holds it. *)
Theorem no_call_is_lost actions p :
  Forall printable_action actions →
  let w := run new_Connection actions in
  (p < promises w)%nat →
  (settled p (trace w)
   ∧ ∀ owner id cb, pending w owner id cb → cb_promise cb ≠ p)
  ∨ (¬ settled p (trace w)
     ∧ ∃ owner id cb,
         pending w owner id cb ∧ cb_promise cb = p
         ∧ ∀ owner' id' cb',
             pending w owner' id' cb' → cb_promise cb' = p →
             owner' = owner ∧ id' = id ∧ cb' = cb).
Proof.
  intros Hok w Hp.
  assert (Inv w ∧ accounted w) as [HI Hw].
  { apply (stable_when_run _ _ _ accounted_stable).
    - eapply Forall_impl; [exact Hok|]. by intros a Ha object ->.
    - by apply Forall_forall.
    - split; [apply Inv_new|]. intros p' Hp'. simpl in Hp'. lia. }
  destruct (Hw p Hp) as [Hs|(owner & id & cb & Hpend & Hcb)].
  - left. split; [done|]. by apply (inv_settled w HI).
  - right. split.
    + intros Hs. destruct (inv_settled w HI p Hs) as [_ Hne]. by eapply Hne.
    + exists owner, id, cb. split_and!; [done..|].
      intros owner' id' cb' Hpend' Hcb'.
      destruct (inv_promise_owner w HI owner' owner id' id cb' cb)
        as [-> ->]; [done.. | congruence |].
      split_and!; [done..|]. by destruct (pending_unique w owner owner id cb' cb).
Qed.

(** A transition that creates no promise and settles only pending
    calls leaves a lost promise lost. *)
Lemma lost_settling p w w' l :
  lost p w → Inv w' →
  promises w' = promises w →
  trace w' = trace w ++ l →
  (∀ owner id cb, pending w' owner id cb → pending w owner id cb) →
  (∀ q, settled q l →
        ∃ owner id cb, pending w owner id cb ∧ cb_promise cb = q) →
  lost p w'.
Proof.
  intros (HI & Hlt & Hns & Hnp) HI' Hpr Htr Hsub Hset.
  split_and!; [done | by rewrite Hpr | |].
  - rewrite Htr. intros [?|Hq]%settled_app; [done|].
    destruct (Hset p Hq) as (owner & id & cb & Hp & Hcb).
    by apply (Hnp owner id cb).
  - intros owner id cb Hp. apply (Hnp owner id cb). by apply Hsub.
Qed.

(** A [send] creates the next promise, not a lost one. *)
Lemma lost_sent p w w' l :
  lost p w → Inv w' →
  promises w' = S (promises w) →
  trace w' = trace w ++ l →
  (∀ q, ¬ settled q l) →
  (∀ owner id cb, pending w' owner id cb →
     pending w owner id cb ∨ cb_promise cb = promises w) →
  lost p w'.
Proof.
  intros (HI & Hlt & Hns & Hnp) HI' Hpr Htr Hl Hsub.
  split_and!; [done | rewrite Hpr; lia | |].
  - rewrite Htr. intros [?|Hq]%settled_app; [done|]. by apply (Hl p).
  - intros owner id cb [Hp|Hp]%Hsub; [by apply (Hnp owner id cb) | lia].
Qed.

Lemma lost_stable p : stable (λ _, True) (lost p).
Proof.
  split.
  - intros w method msg Hw. pose proof Hw as (HI & _).
    apply (lost_sent p w _ [TransportSend msg (lastId w + 1)]);
      [done | by apply Inv_stable | done | done | |].
    + by intros q Hq%settled_singleton.
    + intros [|r] id cb; unfold pending; simpl; [|by left].
      intros [[-> ->]|?]%JsMapFacts.elem_of_set; [by right | by left].
  - intros w r s method msg Hw Hs Hc. pose proof Hw as (HI & _).
    apply (lost_sent p w _ [TransportSend msg (lastId w + 1)]);
      [done | by eapply Inv_stable | done | done | |].
    + by intros q Hq%settled_singleton.
    + intros owner id cb. unfold pending.
      change (table (set_store ?st (after_rawSend msg w)) owner)
        with (table (set_store st w) owner).
      rewrite table_alter. destruct owner as [|r']; [by left|].
      case_decide as Hr; [|by left]. subst r'. simpl. rewrite Hs. simpl.
      intros [[-> ->]|?]%JsMapFacts.elem_of_set; [by right | by left].
  - intros w id callback object _ Hw Hget. pose proof Hw as (HI & _).
    apply (lost_settling p w _ (settlement_effects callback object));
      [done | by apply Inv_stable | by rewrite settle_world..| |].
    + rewrite settle_world.
      intros [|r] id' cb; unfold pending; simpl; [|done].
      by intros [? _]%JsMapFacts.elem_of_delete.
    + intros q ->%settled_settlement. exists OnConnection, id, callback.
      split; [by apply JsMapFacts.get_elem_of | done].
  - intros w r s id callback object _ Hw Hreg Hs Hget. pose proof Hw as (HI & _).
    apply (lost_settling p w _ (settlement_effects callback object));
      [done | by eapply Inv_stable | by rewrite settle_world..| |].
    + rewrite settle_world. intros owner id' cb. unfold pending.
      change (table (log ?l ?w') owner) with (table w' owner).
      rewrite table_alter. destruct owner as [|r']; [done|].
      case_decide as Hr; [|done]. subst r'. simpl. rewrite Hs. simpl.
      by intros [? _]%JsMapFacts.elem_of_delete.
    + intros q ->%settled_settlement. exists (OnSession r), id, callback.
      split; [|done]. unfold pending. simpl. rewrite Hs.
      by apply JsMapFacts.get_elem_of.
  - intros w r s Hw Hreg Hs. pose proof Hw as (HI & _).
    apply (lost_settling p w _ (closure_effects r s));
      [done | by eapply Inv_stable | done | done | |].
    + intros owner id cb. unfold pending.
      change (table (log ?l ?w') owner) with (table w' owner).
      rewrite table_alter. destruct owner as [|r']; [done|].
      case_decide as Hr; [|done]. subst r'. rewrite Hs. simpl.
      by intros ?%elem_of_nil.
    + unfold closure_effects. intros q [Hq|Hq]%settled_app.
      * apply settled_rejections in Hq as (id & cb & Hin & Hcb).
        exists (OnSession r), id, cb. split; [|done].
        unfold pending. simpl. by rewrite Hs.
      * by apply settled_singleton in Hq.
  - intros w targetType sessionId _ Hw. pose proof Hw as (HI & _).
    apply (lost_settling p w _ []);
      [done | by apply Inv_stable | done | by rewrite app_nil_r | |].
    + intros [|r] id cb; unfold pending; simpl; [done|].
      destruct (decide (r < length (store w))%nat) as [Hr|Hr].
      * by rewrite lookup_app_l.
      * rewrite lookup_app_r by lia.
        destruct (r - length (store w))%nat as [|n]; simpl;
          by intros ?%elem_of_nil.
    + by intros q (e & ?%elem_of_nil & _).
  - intros w k Hw. pose proof Hw as (HI & _).
    apply (lost_settling p w _ []);
      [done | by apply Inv_stable | done | by rewrite app_nil_r | done |].
    by intros q (e & ?%elem_of_nil & _).
  - intros w Hw. pose proof Hw as (HI & _).
    apply (lost_settling p w _ []);
      [done | by apply Inv_stable | done | by rewrite app_nil_r | done |].
    by intros q (e & ?%elem_of_nil & _).
  - intros w l Hw Hl. pose proof Hw as (HI & _).
    apply (lost_settling p w _ l);
      [done | by apply Inv_stable | done | done | done |].
    intros q Hq. by apply settled_silent in Hq.
  - intros w Hw. pose proof Hw as (HI & _).
    apply (lost_settling p w _
             (map (λ cb, Reject (cb_promise cb) (target_closed cb))
                (JsMap.values (callbacks w))));
      [done | by apply Inv_stable | done | done | |].
    + intros [|r] id cb; unfold pending; simpl; [|done].
      by intros ?%elem_of_nil.
    + intros q (id & cb & Hin & Hcb)%settled_rejections.
      by exists OnConnection, id, cb.
Qed.


(** ** Messages addressed to a session *)

Lemma truthy_string_Some (S : string) : S ≠ "" → truthy_string (Some S) = true.
Proof. intros HS. simpl. apply negb_true_iff. by apply String.eqb_neq. Qed.

Lemma Connection_onMessage_session object S w :
  o_sessionId object = Some S → S ≠ "" →
  ¬ is_attach object → ¬ is_detach object →
  Connection_onMessage object w
  = match Connection_session S w with
    | Some session => CDPSession_onMessage session object w
    | None => (w, Normal tt)
    end.
Proof.
  intros HS Hne Ha Hd.
  rewrite Connection_onMessage_seq, structural_part_other by done.
  rewrite routing_part_session by (rewrite HS; by apply truthy_string_Some).
  by rewrite HS.
Qed.


(** An envelope that carries a session id under which no session is
    registered, and is not one of the two reserved notifications, is
    dropped: the router returns and the world is as before, whatever
    [id], result or error the envelope holds.  A call of the Connection
    pending under that [id] stays pending. *)
Theorem envelope_for_unknown_session_is_dropped object S w :
  o_sessionId object = Some S → S ≠ "" →
  ¬ is_attach object → ¬ is_detach object →
  Connection_session S w = None →
  Connection_onMessage object w = (w, Normal tt).
Proof.
  intros HS Hne Ha Hd Hreg.
  rewrite (Connection_onMessage_session object S) by done. by rewrite Hreg.
Qed.

(** An envelope without [id] that is not one of the two reserved
    notifications is a protocol event, and it is emitted exactly once,
    under its method name and with its [params]: on the session
    registered under its [sessionId] when it carries one, on the
    Connection when it carries none (or the empty string); an event
    for a session that is not registered is dropped.  Nothing else in
    the world changes.  The session's router calls [assert] on a true
    value first; the helper is taken to return then. *)
Theorem event_goes_to_one_emitter object w :
  reachable w →
  truthy_number (o_id object) = false →
  ¬ is_attach object → ¬ is_detach object →
  assert true = None →
  Connection_onMessage object w
  = (match o_sessionId object with
     | Some sid =>
         if decide (sid = "") then log [protocol_event object] w
         else match Connection_session sid w with
              | Some session =>
                  log [Emit (OnSession session) (EventNamed (o_method object))
                         (ArgParams (o_params object))] w
              | None => w
              end
     | None => log [protocol_event object] w
     end,
     Normal tt).
Proof.
  intros Hreach Hid Ha Hd Hassert.
  pose proof (reachable_Inv w Hreach) as HI.
  destruct (o_sessionId object) as [S|] eqn:HS.
  - case_decide as Hempty.
    + rewrite Connection_onMessage_seq, structural_part_other by done.
      apply routing_part_event; [|done]. by rewrite HS, Hempty.
    + rewrite (Connection_onMessage_session object S) by done.
      destruct (Connection_session S w) as [session|] eqn:Hreg; [|done].
      destruct (inv_sessions w HI _ _ (JsMapFacts.get_elem_of _ _ _ Hreg))
        as (s & Hs & _).
      rewrite (CDPSession_onMessage_event session s) by done.
      by rewrite Hassert.
  - rewrite Connection_onMessage_seq, structural_part_other by done.
    apply routing_part_event; [|done]. by rewrite HS.
Qed.

(** ** Notifications the router cannot read *)

(** On an attach notification without [params] or without
    [params.targetInfo], and on a detach notification without [params],
    the router fails with a [TypeError] before it has changed anything:
    no session is created or closed, nothing is emitted, and the
    envelope is not routed, so that a call pending under the [id] of
    the envelope stays pending. *)
Theorem malformed_notification_changes_nothing object w :
  malformed object →
  Connection_onMessage object w = (w, Throw TypeError).
Proof.
  intros [[Ha Hbad]|[Hd Hp]]; rewrite Connection_onMessage_seq.
  - by rewrite structural_part_attach_malformed.
  - by rewrite structural_part_detach_malformed.
Qed.

(** A detach notification (without outer [sessionId] and without [id])
    removes the session it names on its first arrival only: in the
    world it leaves behind no session is registered under that id, and
    a second arrival does nothing but emit the notification as a
    protocol event of the Connection. *)
Theorem detach_notification_is_idempotent object params w :
  reachable w →
  is_detach object →
  o_params object = Some params →
  o_sessionId object = None →
  truthy_number (o_id object) = false →
  let w1 := (Connection_onMessage object w).1 in
  JsMap.get (p_sessionId params) (sessions w1) = None
  ∧ Connection_onMessage object w1 = (log [protocol_event object] w1, Normal tt).
Proof.
  intros Hreach Hd Hp HS Hid w1. pose proof (reachable_Inv w Hreach) as HI.
  assert (truthy_string (o_sessionId object) = false) as Hfalsy by by rewrite HS.
  assert (JsMap.get (p_sessionId params) (sessions w1) = None) as Hgone.
  { unfold w1.
    destruct (JsMap.get (p_sessionId params) (sessions w)) as [session|] eqn:Hg.
    - destruct (inv_sessions w HI _ _ (JsMapFacts.get_elem_of _ _ _ Hg))
        as (s & Hs & _).
      erewrite Connection_onMessage_detach by done.
      rewrite routing_part_event by done. simpl.
      apply JsMapFacts.get_delete_eq.
    - rewrite Connection_onMessage_seq.
      erewrite structural_part_detach_unknown by done.
      by rewrite routing_part_event. }
  split; [done|].
  rewrite Connection_onMessage_seq.
  erewrite structural_part_detach_unknown by done.
  by rewrite routing_part_event.
Qed.

(** ** Detaching a session *)

Lemma closed_as_alter this targetType w r g :
  (∀ s, s_connection s = None → s_connection (g s) = None) →
  (∀ s, s_targetType (g s) = s_targetType s) →
  closed_as this targetType w →
  closed_as this targetType (set_store (alter g r (store w)) w).
Proof.
  intros Hc Ht (s & Hs & Hconn & Htype). unfold closed_as. simpl.
  destruct (decide (this = r)) as [->|Hr].
  - rewrite list_lookup_alter_eq, Hs. simpl. exists (g s).
    split_and!; [done | by apply Hc | by rewrite Ht].
  - rewrite list_lookup_alter_ne by done. by exists s.
Qed.

(** No method writes [#connection] but the constructor and the
    closure routine: a closed session stays closed. *)
Lemma closed_as_stable this targetType :
  stable (λ _, True) (closed_as this targetType).
Proof.
  split; try done.
  - intros w r s method msg Hw _ _.
    by apply (closed_as_alter this targetType (after_rawSend msg w)).
  - intros w id callback object _ Hw _. by rewrite settle_world.
  - intros w r s id callback object _ Hw _ _ _. rewrite settle_world.
    by apply (closed_as_alter this targetType w).
  - intros w r s Hw _ _.
    by apply (closed_as_alter this targetType w).
  - intros w targetType' sessionId _ (s & Hs & Hconn & Htype).
    exists s. split; [|done]. simpl. by apply lookup_app_l_Some.
Qed.

(** Once the closure routine of a session has run, the session is
    closed for good: whatever the callers and the transport do
    afterwards, [send] on it hands back the rejected promise that names
    the method and the target type, [detach] on it throws the "already
    detached" error, [connection()] is [undefined], and none of the
    three changes the world. *)
Theorem closed_session_stays_closed this s w actions method params :
  store w !! this = Some s →
  s_connection s = None →
  let w' := run w actions in
  CDPSession_send this method params w'
  = (w', Normal (Promise_reject (session_closed_error method (s_targetType s))))
  ∧ CDPSession_detach this w'
    = (w', Throw (already_detached_error (s_targetType s)))
  ∧ CDPSession_connection this w' = (w', Normal None)
  ∧ Connection_fromSession this w' = (w', Normal None).
Proof.
  intros Hs Hc w'.
  assert (closed_as this (s_targetType s) w') as (s' & Hs' & Hc' & Ht').
  { apply (stable_run _ _ (closed_as_stable this (s_targetType s))).
    - by apply Forall_forall.
    - by exists s. }
  split_and!.
  - rewrite (CDPSession_send_detached this s') by done. by rewrite Ht'.
  - rewrite (CDPSession_detach_detached this s') by done. by rewrite Ht'.
  - unfold CDPSession_connection. js_unfold. simpl. rewrite Hs'. simpl.
    by rewrite Hc'.
  - unfold Connection_fromSession, CDPSession_connection. js_unfold. simpl.
    rewrite Hs'. simpl. by rewrite Hc'.
Qed.


End Properties.

(** * Properties of the service clients *)

(** ** Two more facts about maps *)

Lemma JsMap_set_set {K V : Type} `{EqDecision K} (m : JsMap.t K V) k v v' :
  JsMap.set k v (JsMap.set k v' m) = JsMap.set k v m.
Proof.
  induction m as [|[k' u] m IH]; simpl.
  - by rewrite decide_True.
  - destruct (decide (k = k')) as [->|Hk]; simpl.
    + by rewrite decide_True.
    + rewrite decide_False by done. by rewrite IH.
Qed.

Lemma JsMap_set_same {K V : Type} `{EqDecision K} (m : JsMap.t K V) k v :
  JsMap.get k m = Some v → JsMap.set k v m = m.
Proof.
  induction m as [|[k' u] m IH]; simpl; [done|].
  destruct (decide (k = k')) as [->|Hk].
  - by intros [= ->].
  - intros Hg. by rewrite IH.
Qed.

(** ** [JSON.stringify] tells credentials apart *)

Lemma unescape_escape (c : ascii) (t : string) :
  unescape (escape c +:+ t)
  = '(text, after) ← unescape t; Some (String c text, after).
Proof. destruct c as [[] [] [] [] [] [] [] []]; reflexivity. Qed.

Lemma unescape_escape_all (s rest : string) :
  unescape (escape_all s +:+ String double_quote rest) = Some (s, rest).
Proof.
  induction s as [|c s IH]; [done|].
  change (escape_all (String c s)) with (escape c +:+ escape_all s).
  by rewrite append_assoc, unescape_escape, IH.
Qed.

Lemma QuoteJSONString_append (s rest : string) :
  QuoteJSONString s +:+ rest
  = String double_quote (escape_all s +:+ String double_quote rest).
Proof.
  unfold QuoteJSONString.
  change (String double_quote ?x +:+ rest) with (String double_quote (x +:+ rest)).
  by rewrite append_assoc.
Qed.

Lemma QuoteJSONString_inj (a b r r' : string) :
  QuoteJSONString a +:+ r = QuoteJSONString b +:+ r' → a = b ∧ r = r'.
Proof.
  rewrite !QuoteJSONString_append. intros [= H].
  apply (f_equal unescape) in H. rewrite !unescape_escape_all in H.
  by injection H.
Qed.

Lemma append_inj_l (pre x y : string) : pre +:+ x = pre +:+ y → x = y.
Proof.
  induction pre as [|c pre IH]; [done|].
  change (String c (pre +:+ x) = String c (pre +:+ y) → x = y).
  intros [= H]. by apply IH.
Qed.

(** The text of a credential pair, member by member. *)
Lemma JSON_stringify_Some (c : CredentialPair) :
  JSON_stringify (Some c)
  = Some ("{" +:+ QuoteJSONString "accessKeyId" +:+ ":"
          +:+ QuoteJSONString (accessKeyId c)
          +:+ "," +:+ QuoteJSONString "secretAccessKey" +:+ ":"
          +:+ QuoteJSONString (secretAccessKey c)
          +:+ match sessionToken c with
              | Some token =>
                  "," +:+ QuoteJSONString "sessionToken" +:+ ":"
                  +:+ QuoteJSONString token +:+ "}"
              | None => "}"
              end).
Proof.
  unfold JSON_stringify, JSON_member. f_equal. f_equal.
  destruct (sessionToken c) as [token|]; simpl String.concat;
    by rewrite !append_assoc.
Qed.

Lemma JSON_stringify_inj (c c' : option CredentialPair) :
  JSON_stringify c = JSON_stringify c' → c = c'.
Proof.
  destruct c as [[a b t]|], c' as [[a' b' t']|]; try done.
  rewrite !JSON_stringify_Some. simpl accessKeyId. simpl secretAccessKey.
  simpl sessionToken. intros H. apply (inj Some) in H.
  apply append_inj_l, append_inj_l, append_inj_l, QuoteJSONString_inj
    in H as [-> H].
  apply append_inj_l, append_inj_l, append_inj_l, QuoteJSONString_inj
    in H as [-> H].
  destruct t as [t|], t' as [t'|]; try done.
  apply append_inj_l, append_inj_l, append_inj_l, QuoteJSONString_inj
    in H as [-> _].
  done.
Qed.

(** Different credentials index different properties; [undefined]
    indexes the property "undefined", which is no JSON text. *)
Lemma credentials_key_inj (c c' : option CredentialPair) :
  ToPropertyKey (JSON_stringify c) = ToPropertyKey (JSON_stringify c') →
  c = c'.
Proof.
  destruct c as [c|], c' as [c'|]; try done.
  intros H. apply JSON_stringify_inj. rewrite !JSON_stringify_Some in *.
  unfold ToPropertyKey in H. cbn [default from_option id] in H. by rewrite H.
Qed.

(** ** The cache, evaluated *)

Section LambdaProperties.
Context {lambda_imports : LambdaImports}.

(** Run a function body on a process of which some lookups are known. *)
Ltac node_eval :=
  repeat (progress (
    cbn beta iota zeta;
    cbn [_clients set__clients set_journal set_constructed constructed
         journal env default from_option id JsMap.get];
    rewrite ?JsMapFacts.get_set_eq;
    repeat match goal with
           | H : JsMap.get _ _ = _ |- _ => progress rewrite H
           end)).

Lemma getServiceClient_eq region service p :
  getServiceClient region service p
  = let key := ToPropertyKey (getCredentialsKey p) in
    let p1 := set__clients (prepared region key (_clients p)) p in
    match cached p region key service with
    | Some client => (p1, Normal (Some client))
    | None =>
        match checkCredentials (env p) with
        | Some e => (noted [CheckCredentials] p1, Throw e)
        | None =>
            let client := length (constructed p) in
            (set__clients (stored region key service client (_clients p))
               (noted [CheckCredentials; Construct client]
                  (set_constructed
                     (constructed p
                      ++ [ {| client_class := Client_of service;
                              client_region := region;
                              client_credentials := getCredentials p |} ])
                     p)),
             Normal (Some client))
        end
    end.
Proof.
  cbv zeta. unfold getServiceClient, cached, prepared, stored, noted.
  unfold call_checkCredentials, defined, assign, note, raise, process, new_Client.
  unfold mbind, option_bind, Node_bind, mret, Node_ret, JsMap.empty.
  change (getCredentialsKey (set__clients ?v p)) with (getCredentialsKey p).
  assert (set__clients (_clients p) p = p) as Hsame by by destruct p.
  destruct (JsMap.get region (_clients p)) as [by_key|] eqn:Hr.
  - destruct (JsMap.get (ToPropertyKey (getCredentialsKey p)) by_key)
      as [by_service|] eqn:Hk.
    + destruct (JsMap.get service by_service) as [client|] eqn:Hs.
      * node_eval.
        rewrite (JsMap_set_same by_key _ by_service Hk).
        by rewrite (JsMap_set_same (_clients p) region by_key Hr), Hsame.
      * node_eval.
        rewrite (JsMap_set_same by_key _ by_service Hk).
        rewrite (JsMap_set_same (_clients p) region by_key Hr), Hsame.
        destruct (checkCredentials (env p)) as [e|]; [done|].
        node_eval. by rewrite <- app_assoc.
    + node_eval. destruct (checkCredentials (env p)) as [e|]; [done|].
      node_eval. rewrite !JsMap_set_set. by rewrite <- app_assoc.
  - node_eval. rewrite !JsMap_set_set.
    destruct (checkCredentials (env p)) as [e|]; [done|].
    node_eval. rewrite !JsMap_set_set. by rewrite <- app_assoc.
Qed.

Lemma cached_prepared region key p q r k s :
  _clients q = prepared region key (_clients p) →
  cached q r k s = cached p r k s.
Proof.
  intros Hq. unfold cached, prepared in *. rewrite Hq. clear Hq.
  destruct (decide (r = region)) as [->|Hr].
  - rewrite JsMapFacts.get_set_eq. simpl.
    destruct (decide (k = key)) as [->|Hk].
    + rewrite JsMapFacts.get_set_eq. simpl.
      destruct (JsMap.get region (_clients p)) as [by_key|]; simpl; [|done].
      by destruct (JsMap.get key by_key).
    + rewrite JsMapFacts.get_set_ne by done.
      by destruct (JsMap.get region (_clients p)).
  - by rewrite JsMapFacts.get_set_ne.
Qed.

Lemma cached_stored region key service client p q r k s :
  _clients q = stored region key service client (_clients p) →
  cached q r k s
  = if decide (r = region ∧ k = key ∧ s = service) then Some client
    else cached p r k s.
Proof.
  intros Hq. unfold cached, stored in *. rewrite Hq. clear Hq.
  destruct (decide (r = region)) as [->|Hr].
  - rewrite JsMapFacts.get_set_eq. simpl.
    destruct (decide (k = key)) as [->|Hk].
    + rewrite JsMapFacts.get_set_eq. simpl.
      destruct (decide (s = service)) as [->|Hs].
      * rewrite JsMapFacts.get_set_eq. by rewrite decide_True.
      * rewrite JsMapFacts.get_set_ne by done.
        rewrite decide_False by (by intros (? & ? & ?)).
        destruct (JsMap.get region (_clients p)) as [by_key|]; simpl; [|done].
        by destruct (JsMap.get key by_key).
    + rewrite JsMapFacts.get_set_ne by done.
      rewrite decide_False by (by intros (? & ? & ?)).
      by destruct (JsMap.get region (_clients p)).
  - rewrite JsMapFacts.get_set_ne by done.
    by rewrite decide_False by (by intros (? & ? & ?)).
Qed.

(** With the client in place, the two objects above it are in place. *)
Lemma prepared_cached region key service client p :
  cached p region key service = Some client →
  prepared region key (_clients p) = _clients p.
Proof.
  unfold cached, prepared.
  destruct (JsMap.get region (_clients p)) as [by_key|] eqn:Hr; [|done].
  simpl. destruct (JsMap.get key by_key) as [by_service|] eqn:Hk; [|done].
  simpl. intros _. rewrite (JsMap_set_same by_key key by_service Hk).
  by apply JsMap_set_same.
Qed.

Lemma getServiceClient_hit region service client p :
  cached p region (ToPropertyKey (getCredentialsKey p)) service = Some client →
  getServiceClient region service p = (p, Normal (Some client)).
Proof.
  intros Hc. rewrite getServiceClient_eq. cbv zeta. rewrite Hc.
  rewrite (prepared_cached _ _ _ _ _ Hc). by destruct p.
Qed.

(** After a call that returned, the client is in the cache under the
    region, the key of the credentials and the service. *)
Lemma getServiceClient_cached region service p p1 result :
  getServiceClient region service p = (p1, Normal result) →
  ∃ client,
    result = Some client
    ∧ env p1 = env p
    ∧ cached p1 region (ToPropertyKey (getCredentialsKey p)) service
      = Some client.
Proof.
  rewrite getServiceClient_eq. cbv zeta.
  destruct (cached p region _ service) as [client|] eqn:Hc.
  - intros [= <- <-]. exists client. split_and!; [done..|].
    by rewrite (cached_prepared region (ToPropertyKey (getCredentialsKey p)) p).
  - destruct (checkCredentials (env p)) as [e|]; [done|].
    intros [= <- <-]. eexists. split_and!; [done..|].
    rewrite (cached_stored region (ToPropertyKey (getCredentialsKey p)) service
               (length (constructed p)) p) by done.
    by rewrite decide_True.
Qed.

(** Nothing is ever taken out of the cache, and no entry is replaced. *)
Lemma cached_getServiceClient region service p r k s client :
  cached p r k s = Some client →
  cached (getServiceClient region service p).1 r k s = Some client.
Proof.
  intros Hc. rewrite getServiceClient_eq. cbv zeta.
  destruct (cached p region _ service) as [hit|] eqn:Hhit; simpl.
  - by rewrite (cached_prepared region (ToPropertyKey (getCredentialsKey p)) p).
  - destruct (checkCredentials (env p)) as [e|]; simpl.
    + by rewrite (cached_prepared region (ToPropertyKey (getCredentialsKey p)) p).
    + rewrite (cached_stored region (ToPropertyKey (getCredentialsKey p))
                 service (length (constructed p)) p) by done.
      case_decide as Heq; [|done]. destruct Heq as (-> & -> & ->). congruence.
Qed.

Lemma getAccountId_eq region p :
  getAccountId region p
  = match validateAwsRegion region with
    | Some e => (p, Throw e)
    | None =>
        match getServiceClient region sts p with
        | (p1, Normal (Some client)) =>
            (noted [ClientSend client GetCallerIdentityCommand] p1,
             Normal client)
        | (p1, Normal None) => (p1, Throw TypeError)
        | (p1, Throw e) => (p1, Throw e)
        end
    end.
Proof.
  unfold getAccountId, call_validateAwsRegion, getStsClient.
  destruct (validateAwsRegion region) as [e|]; [done|].
  unfold mbind, Node_bind, mret, Node_ret. simpl.
  by destruct (getServiceClient region sts p) as [p1 [[client|]|e]].
Qed.

Lemma cached_lambda_step p a r k s client :
  cached p r k s = Some client → cached (lambda_step p a) r k s = Some client.
Proof.
  intros Hc. destruct a as [region service | region | name value | name];
    unfold lambda_step; [by apply cached_getServiceClient | | done..].
  rewrite getAccountId_eq. destruct (validateAwsRegion region); [done|].
  pose proof (cached_getServiceClient region sts p r k s client Hc) as H1.
  by destruct (getServiceClient region sts p) as [p1 [[c|]|e]].
Qed.

Lemma cached_lambda_run p actions r k s client :
  cached p r k s = Some client →
  cached (lambda_run p actions) r k s = Some client.
Proof.
  revert p. induction actions as [|a actions IH]; intros p Hc; [done|].
  simpl. by apply IH, cached_lambda_step.
Qed.

(** ** Every cached client fits its keys *)

Lemma cache_sound_same p q :
  _clients q = _clients p → constructed q = constructed p →
  cache_sound p → cache_sound q.
Proof.
  intros Hc Hm Hp region key service client. unfold cached.
  rewrite Hc, Hm. apply Hp.
Qed.

Lemma cache_sound_prepared region key p q :
  _clients q = prepared region key (_clients p) →
  constructed q = constructed p →
  cache_sound p → cache_sound q.
Proof.
  intros Hc Hm Hp r k s client.
  rewrite (cached_prepared region key p q) by done. rewrite Hm. apply Hp.
Qed.

Lemma cache_sound_getServiceClient region service p :
  cache_sound p → cache_sound (getServiceClient region service p).1.
Proof.
  intros Hp. rewrite getServiceClient_eq. cbv zeta.
  destruct (cached p region _ service) as [hit|] eqn:Hhit; simpl.
  - by apply (cache_sound_prepared region
                (ToPropertyKey (getCredentialsKey p)) p).
  - destruct (checkCredentials (env p)) as [e|]; simpl.
    + by apply (cache_sound_prepared region
                  (ToPropertyKey (getCredentialsKey p)) p).
    + intros r k s client.
      rewrite (cached_stored region (ToPropertyKey (getCredentialsKey p))
                 service (length (constructed p)) p) by done.
      simpl. case_decide as Heq.
      * destruct Heq as (-> & -> & ->). intros [= <-].
        rewrite list_lookup_middle by done. eexists. by split_and!.
      * intros Hc. destruct (Hp r k s client Hc) as (c & Hin & Hrest).
        exists c. split; [|done]. by apply lookup_app_l_Some.
Qed.

Lemma cache_sound_lambda_step p a : cache_sound p → cache_sound (lambda_step p a).
Proof.
  intros Hp. destruct a as [region service | region | name value | name];
    unfold lambda_step.
  - by apply cache_sound_getServiceClient.
  - rewrite getAccountId_eq. destruct (validateAwsRegion region); [done|].
    pose proof (cache_sound_getServiceClient region sts p Hp) as H1.
    by destruct (getServiceClient region sts p) as [p1 [[c|]|e]].
  - by apply (cache_sound_same p).
  - by apply (cache_sound_same p).
Qed.

Lemma cache_sound_lambda_run e actions :
  cache_sound (lambda_run (new_Process e) actions).
Proof.
  assert (∀ p, cache_sound p → cache_sound (lambda_run p actions)) as Hrun.
  { induction actions as [|a actions IH]; intros p Hp; [done|].
    simpl. by apply IH, cache_sound_lambda_step. }
  apply Hrun. intros region key service client Hc. done.
Qed.

Lemma Client_of_inj service service' :
  Client_of service = Client_of service' → service = service'.
Proof. by destruct service, service'. Qed.

Lemma getServiceClient_hands_out p region service :
  cache_sound p →
  hands_out p region (Client_of service) (getServiceClient region service p).
Proof.
  intros Hsound.
  pose proof (cache_sound_getServiceClient region service p Hsound) as Hsound'.
  destruct (getServiceClient region service p) as [p' [[client|]|err]] eqn:Hcall;
    simpl in *.
  - destruct (getServiceClient_cached _ _ _ _ _ Hcall) as (c' & [= <-] & _ & Hc).
    destruct (Hsound' _ _ _ _ Hc) as (c & Hin & Hclass & Hregion & Hkey).
    exists c. split_and!; [done..|]. apply credentials_key_inj. by rewrite Hkey.
  - by destruct (getServiceClient_cached _ _ _ _ _ Hcall) as (c' & [=] & _).
  - rewrite getServiceClient_eq in Hcall. cbv zeta in Hcall.
    destruct (cached p region _ service) as [hit|]; [done|].
    destruct (checkCredentials (env p)) as [e'|]; [|done].
    by injection Hcall as <- <-.
Qed.

(** ** What the cache hands out *)

(** Whatever has happened in the process before (calls for clients,
    calls of [getAccountId], writes to the environment),
    [getServiceClient] either fails with the error of
    [checkCredentials], having found nothing in the cache and having
    constructed nothing, or hands back a client object of the class of
    the service, constructed for the region asked for and with the
    credentials that the environment holds now, also when the client
    comes out of the cache.  That object is cached for these three
    keys and for no others; it is never [undefined]. *)
Theorem getServiceClient_fits_the_credentials e actions region service :
  let p := lambda_run (new_Process e) actions in
  let key := ToPropertyKey (getCredentialsKey p) in
  match getServiceClient region service p with
  | (p', Normal (Some client)) =>
      (∃ c, constructed p' !! client = Some c
            ∧ client_class c = Client_of service
            ∧ client_region c = region
            ∧ client_credentials c = getCredentials p)
      ∧ cached p' region key service = Some client
      ∧ ∀ region' key' service',
          cached p' region' key' service' = Some client →
          region' = region ∧ key' = key ∧ service' = service
  | (p', Normal None) => False
  | (p', Throw err) =>
      checkCredentials (env p) = Some err
      ∧ cached p region key service = None
      ∧ constructed p' = constructed p
      ∧ journal p' = journal p ++ [CheckCredentials]
  end.
Proof.
  intros p key.
  pose proof (cache_sound_lambda_run e actions) as Hsound. fold p in Hsound.
  pose proof (cache_sound_getServiceClient region service p Hsound) as Hsound'.
  destruct (getServiceClient region service p) as [p' [[client|]|err]] eqn:Hcall.
  - destruct (getServiceClient_cached _ _ _ _ _ Hcall) as (c' & [= <-] & _ & Hc).
    simpl in Hsound'.
    destruct (Hsound' _ _ _ _ Hc) as (c & Hin & Hclass & Hregion & Hkey).
    split_and!; [|done|].
    + exists c. split_and!; [done..|].
      apply credentials_key_inj. by rewrite Hkey.
    + intros region' key' service' Hc'.
      destruct (Hsound' _ _ _ _ Hc') as (c2 & Hin2 & Hclass2 & Hregion2 & Hkey2).
      assert (c2 = c) as -> by congruence.
      split_and!; [congruence | |].
      * unfold key. congruence.
      * apply Client_of_inj. congruence.
  - by destruct (getServiceClient_cached _ _ _ _ _ Hcall) as (c' & [=] & _).
  - rewrite getServiceClient_eq in Hcall. cbv zeta in Hcall. fold key in Hcall.
    destruct (cached p region key service) as [hit|]; [done|].
    destruct (checkCredentials (env p)) as [e'|]; [|done].
    by injection Hcall as <- <-.
Qed.

(** A client that [getServiceClient] has handed back is handed back
    again, for the same region and service, for as long as the
    credentials that the environment holds are the same, whatever
    happened in between (other calls, and writes to the environment
    that were undone): the call then finds the client in the cache,
    does not call [checkCredentials], constructs nothing and leaves
    the process as it is. *)
Theorem getServiceClient_is_memoized region service p p1 client actions :
  getServiceClient region service p = (p1, Normal (Some client)) →
  let p2 := lambda_run p1 actions in
  getCredentials p2 = getCredentials p →
  getServiceClient region service p2 = (p2, Normal (Some client)).
Proof.
  intros Hcall p2 Hsame.
  destruct (getServiceClient_cached _ _ _ _ _ Hcall) as (c & [= <-] & _ & Hc).
  apply getServiceClient_hit. unfold getCredentialsKey. rewrite Hsame.
  by apply cached_lambda_run.
Qed.

(** The key under which [getServiceClient] caches tells credentials
    apart: two states of the process whose credentials give the same
    property name (the JSON text of the pair, or "undefined" when
    there are none) hold the same credentials, whichever variables of
    the environment they came from. *)
Theorem getCredentialsKey_tells_credentials_apart p p' :
  ToPropertyKey (getCredentialsKey p) = ToPropertyKey (getCredentialsKey p') →
  getCredentials p = getCredentials p'.
Proof.
  unfold getCredentialsKey.
  destruct (getCredentials p) as [c|], (getCredentials p') as [c'|]; try done.
  intros Hkey. apply JSON_stringify_inj.
  rewrite !JSON_stringify_Some in *. unfold ToPropertyKey in Hkey.
  cbn [default from_option id] in Hkey. by rewrite Hkey.
Qed.

(** Each of the six wrappers hands out a client of the class it is
    named after, for the region asked for and with the credentials
    that the environment holds now, or fails with the error of
    [checkCredentials]. *)
Theorem client_wrappers_hand_out_their_classes e actions region :
  let p := lambda_run (new_Process e) actions in
  hands_out p region CloudWatchLogsClient (getCloudWatchLogsClient region p)
  ∧ hands_out p region S3Client (getS3Client region p)
  ∧ hands_out p region LambdaClient (getLambdaClient region p)
  ∧ hands_out p region IAMClient (getIamClient region p)
  ∧ hands_out p region STSClient (getStsClient region p)
  ∧ hands_out p region ServiceQuotasClient (getServiceQuotasClient region p).
Proof.
  intros p. pose proof (cache_sound_lambda_run e actions) as Hsound.
  fold p in Hsound.
  split_and!.
  - apply (getServiceClient_hands_out p region cloudwatch Hsound).
  - apply (getServiceClient_hands_out p region s3 Hsound).
  - apply (getServiceClient_hands_out p region lambda Hsound).
  - apply (getServiceClient_hands_out p region iam Hsound).
  - apply (getServiceClient_hands_out p region sts Hsound).
  - apply (getServiceClient_hands_out p region servicequotas Hsound).
Qed.

(** [getCredentials]: inside a lambda there are none; otherwise the
    pair of the two REMOTION_AWS variables goes before the pair of the
    two AWS variables, and only the latter takes the session token
    along; a pair counts only when both of its variables are set and
    not empty, so that the credentials handed out never hold an empty
    key id or an empty secret. *)
Theorem getCredentials_precedence p :
  let e := env p in
  let remotion :=
    truthy_string (JsMap.get "REMOTION_AWS_ACCESS_KEY_ID" e)
    && truthy_string (JsMap.get "REMOTION_AWS_SECRET_ACCESS_KEY" e) in
  let aws :=
    truthy_string (JsMap.get "AWS_ACCESS_KEY_ID" e)
    && truthy_string (JsMap.get "AWS_SECRET_ACCESS_KEY" e) in
  (isInsideLambda e = true → getCredentials p = None)
  ∧ (isInsideLambda e = false → remotion = true →
     ∃ id secret,
       JsMap.get "REMOTION_AWS_ACCESS_KEY_ID" e = Some id
       ∧ JsMap.get "REMOTION_AWS_SECRET_ACCESS_KEY" e = Some secret
       ∧ getCredentials p
         = Some {| accessKeyId := id; secretAccessKey := secret;
                   sessionToken := None |})
  ∧ (isInsideLambda e = false → remotion = false → aws = true →
     ∃ id secret,
       JsMap.get "AWS_ACCESS_KEY_ID" e = Some id
       ∧ JsMap.get "AWS_SECRET_ACCESS_KEY" e = Some secret
       ∧ getCredentials p
         = Some {| accessKeyId := id; secretAccessKey := secret;
                   sessionToken := JsMap.get "AWS_SESSION_TOKEN" e |})
  ∧ (remotion = false → aws = false → getCredentials p = None)
  ∧ ∀ c, getCredentials p = Some c →
         accessKeyId c ≠ "" ∧ secretAccessKey c ≠ "".
Proof.
  cbv zeta. unfold getCredentials.
  assert (∀ o : option string,
            truthy_string o = true → ∃ v, o = Some v ∧ v ≠ "") as Htruthy.
  { intros [v|]; [|done]. simpl. intros Hv%negb_true_iff%String.eqb_neq.
    by exists v. }
  split_and!.
  - by intros ->.
  - intros -> Hr. rewrite Hr.
    apply andb_true_iff in Hr as [(id & -> & _)%Htruthy (secret & -> & _)%Htruthy].
    by exists id, secret.
  - intros -> -> Ha. rewrite Ha.
    apply andb_true_iff in Ha as [(id & -> & _)%Htruthy (secret & -> & _)%Htruthy].
    by exists id, secret.
  - intros -> ->. by destruct (isInsideLambda (env p)).
  - intros c. destruct (isInsideLambda (env p)); [done|].
    destruct (truthy_string (JsMap.get "REMOTION_AWS_ACCESS_KEY_ID" (env p))
              && truthy_string
                   (JsMap.get "REMOTION_AWS_SECRET_ACCESS_KEY" (env p)))
      eqn:Hr.
    + apply andb_true_iff in Hr
        as [(id & -> & ?)%Htruthy (secret & -> & ?)%Htruthy].
      by intros [= <-].
    + destruct (truthy_string (JsMap.get "AWS_ACCESS_KEY_ID" (env p))
                && truthy_string (JsMap.get "AWS_SECRET_ACCESS_KEY" (env p)))
        eqn:Ha; [|done].
      apply andb_true_iff in Ha
        as [(id & -> & ?)%Htruthy (secret & -> & ?)%Htruthy].
      by intros [= <-].
Qed.

(** [getAccountId] validates the region before anything else: on a
    region that [validateAwsRegion] refuses it throws that error and
    has looked up, constructed and sent nothing.  On a region that
    passes, it sends exactly one [GetCallerIdentityCommand], on the STS
    client of that region for the credentials that the environment
    holds now, unless [checkCredentials] refused to let that client be
    constructed.  What it hands back in the end is the [Account] of the
    response, which is then not empty; a response without an account id
    is the error 'Cannot get account ID', and a failure of the command
    is passed on. *)
Theorem getAccountId_asks_the_sts_client e actions region :
  let p := lambda_run (new_Process e) actions in
  match validateAwsRegion region with
  | Some err => getAccountId region p = (p, Throw err)
  | None =>
      match getAccountId region p with
      | (p', Normal client) =>
          (∃ c, constructed p' !! client = Some c
                ∧ client_class c = STSClient
                ∧ client_region c = region
                ∧ client_credentials c = getCredentials p)
          ∧ (∃ p1, getStsClient region p = (p1, Normal (Some client))
                   ∧ p' = noted [ClientSend client GetCallerIdentityCommand] p1)
      | (p', Throw err) =>
          checkCredentials (env p) = Some err
          ∧ journal p' = journal p ++ [CheckCredentials]
      end
  end
  ∧ (∀ settled id,
       getAccountId_resume settled = Normal id →
       id ≠ "" ∧ ∃ resp, settled = Normal resp ∧ Account resp = Some id)
  ∧ (∀ resp,
       Account resp = None ∨ Account resp = Some "" →
       getAccountId_resume (Normal resp) = Throw (Error "Cannot get account ID"))
  ∧ (∀ err, getAccountId_resume (Throw err) = Throw err).
Proof.
  intros p. split_and!.
  - rewrite getAccountId_eq. destruct (validateAwsRegion region) as [err|]; [done|].
    pose proof (getServiceClient_hands_out p region sts
                  (cache_sound_lambda_run e actions)) as Hfit.
    unfold getStsClient.
    destruct (getServiceClient region sts p) as [p1 [[client|]|err]];
      simpl in Hfit; [| done | done].
    destruct Hfit as (c & Hin & Hclass & Hregion & Hcred).
    split; [by exists c | by exists p1].
  - intros [resp|err] id; simpl; [|done].
    destruct (Account resp) as [account|] eqn:Ha; simpl; [|done].
    destruct (String.eqb account "") eqn:Hempty; simpl; [done|].
    intros [= <-]. split; [by apply String.eqb_neq|]. by exists resp.
  - intros resp [Ha|Ha]; simpl; by rewrite Ha.
  - done.
Qed.

End LambdaProperties.

(** * Examples: the theorems at concrete inputs *)

Lemma C1_witness :
  let w := run (imports := stock) new_Connection
             (two_pending ++ [Call_send "Page.reload" None]) in
  sent_ids (trace w) = seqZ 1 (lastId w) ∧ sent_ids (trace w) = [1; 2; 3].
Proof.
  cbv zeta. split; [|vm_compute; reflexivity].
  exact (proj1 (proj2 (C1_ids_are_distinct_and_increasing (imports := stock)
                         (two_pending ++ [Call_send "Page.reload" None])))).
Defined.

(** The spec's example for C2: the request with id 9 was sent for
    "Foo.bar" and the answer is an error "boom"; and the same answer
    with data that does not render. *)
Lemma C2_witness :
  let object :=
    response 9 None (Some {| e_message := "boom"; e_data := None; e_code := -1 |}) in
  let unprintable :=
    response 9 None
      (Some {| e_message := "boom"; e_data := Some (JObj [("toString", JNum 1)]);
               e_code := -1 |}) in
  let callback :=
    {| cb_promise := 8%nat; cb_error := blank_ProtocolError;
       cb_method := "Foo.bar" |} in
  let removed :=
    set_callbacks (JsMap.delete 9 (callbacks world_nine_sent)) world_nine_sent in
  JsMap.get 9 (callbacks world_nine_sent) = Some callback
  ∧ (∃ e, Connection_onMessage (imports := stock) object world_nine_sent
          = (log [Reject 8%nat (AProtocolError e)] removed, Normal tt)
          ∧ message e = "Protocol error (Foo.bar): boom")
  ∧ Connection_onMessage (imports := stock) unprintable world_nine_sent
    = (removed, Throw TypeError).
Proof.
  cbv zeta. split; [reflexivity|]. split.
  - destruct (C2_response_settles_the_matching_call (imports := stock)
                (response 9 None
                   (Some {| e_message := "boom"; e_data := None; e_code := -1 |}))
                9
                {| cb_promise := 8%nat; cb_error := blank_ProtocolError;
                   cb_method := "Foo.bar" |}
                world_nine_sent eq_refl ltac:(lia) eq_refl
                ltac:(discriminate) ltac:(discriminate) eq_refl)
      as (_ & _ & _ & Herror & _).
    destruct (Herror {| e_message := "boom"; e_data := None; e_code := -1 |}
                eq_refl ltac:(discriminate))
      as (e & suffix & Heq & Hmessage & -> & _).
    exists e. split; [exact Heq | exact Hmessage].
  - destruct (C2_response_settles_the_matching_call (imports := stock)
                (response 9 None
                   (Some {| e_message := "boom";
                            e_data := Some (JObj [("toString", JNum 1)]);
                            e_code := -1 |}))
                9
                {| cb_promise := 8%nat; cb_error := blank_ProtocolError;
                   cb_method := "Foo.bar" |}
                world_nine_sent eq_refl ltac:(lia) eq_refl
                ltac:(discriminate) ltac:(discriminate) eq_refl)
      as (_ & _ & _ & _ & Hthrow).
    exact (Hthrow _ _ eq_refl eq_refl eq_refl).
Defined.

(** C2 as stated fails on an envelope that answers call 1 and is at the
    same time the detach notification of session "S1": the call with
    id 2, pending in the session's table, is rejected by that message
    and leaves its table. *)
Lemma C2_counterexample :
  let object := detachedFromTarget (Some 1) None "S1" in
  let w := world_two_pending in
  let w' := (Connection_onMessage (imports := stock) object w).1 in
  let call1 := {| cb_promise := 0%nat; cb_error := blank_ProtocolError;
                  cb_method := "Foo.bar" |} in
  let call2 := {| cb_promise := 1%nat; cb_error := blank_ProtocolError;
                  cb_method := "Page.enable" |} in
  o_id object = Some 1
  ∧ o_sessionId object = None
  ∧ JsMap.get 1 (callbacks w) = Some call1
  ∧ table w (OnSession 0%nat) = [(2, call2)]
  ∧ table w' (OnSession 0%nat) = []
  ∧ Reject 1%nat (target_closed call2) ∈ trace w'
  ∧ Connection_onMessage (imports := stock) object w
    ≠ (log [Resolve (cb_promise call1) (o_result object)]
         (set_callbacks (JsMap.delete 1 (callbacks w)) w),
       Normal tt).
Proof.
  cbv zeta. split_and!; try reflexivity.
  - apply list_elem_of_In. vm_compute. auto 10.
  - intros H. apply (f_equal (λ r, length (trace r.1))) in H.
    vm_compute in H. discriminate.
Defined.

Lemma C9_witness :
  let object := response 7 (Some (JObj [("x", JNum 1)])) None in
  JsMap.get 7 (callbacks world_two_pending) = None
  ∧ Connection_onMessage (imports := stock) object world_two_pending
    = (world_two_pending, Normal tt).
Proof.
  cbv zeta. split; [reflexivity|].
  apply (C9_unmatched_response_is_ignored (imports := stock)
           (response 7 (Some (JObj [("x", JNum 1)])) None) 7 world_two_pending).
  - reflexivity.
  - lia.
  - reflexivity.
  - unfold is_attach. simpl. discriminate.
  - unfold is_detach. simpl. discriminate.
  - reflexivity.
Defined.

(** C9 as stated fails on an envelope with an unmatched id whose method
    is the attach notification: a session is registered and an event is
    emitted; and on an envelope whose id is 0: it is emitted as an
    event. *)
Lemma C9_counterexample :
  let attach := attachedToTarget (Some 5) None "S1" "page" in
  let zero := {| o_id := Some 0; o_sessionId := None;
                 o_method := Some "Network.dataReceived"; o_params := None;
                 o_result := None; o_error := None |} in
  let w := new_Connection in
  o_id attach = Some 5
  ∧ o_sessionId attach = None
  ∧ JsMap.get 5 (callbacks w) = None
  ∧ sessions w = []
  ∧ sessions (Connection_onMessage (imports := stock) attach w).1 = [(Some "S1", 0%nat)]
  ∧ trace (Connection_onMessage (imports := stock) attach w).1
    = [Emit OnConnection (EventNamed (Some "sessionattached")) (ArgSession 0%nat)]
  ∧ Connection_onMessage (imports := stock) attach w ≠ (w, Normal tt)
  ∧ o_id zero = Some 0
  ∧ JsMap.get 0 (callbacks w) = None
  ∧ trace (Connection_onMessage (imports := stock) zero w).1
    = [Emit OnConnection (EventNamed (Some "Network.dataReceived")) (ArgParams None)].
Proof.
  cbv zeta. split_and!; try reflexivity.
  intros H. apply (f_equal (λ r, length (trace r.1))) in H.
  vm_compute in H. discriminate.
Defined.

Lemma C4_witness :
  let s := {| s_sessionId := Some "S1"; s_targetType := "page";
              s_callbacks := []; s_connection := None |} in
  store world_detached !! 0%nat = Some s
  ∧ s_connection s = None
  ∧ ∃ text,
      CDPSession_send (imports := stock) 0%nat "Page.enable" None world_detached
      = (world_detached, Normal (Promise_reject (Error text)))
      ∧ contains text "Page.enable"
      ∧ contains text "Session closed".
Proof.
  cbv zeta. split; [reflexivity|]. split; [reflexivity|].
  apply (C4_send_on_detached_session_is_rejected (imports := stock) 0%nat
           {| s_sessionId := Some "S1"; s_targetType := "page";
              s_callbacks := []; s_connection := None |}
           "Page.enable" None world_detached); reflexivity.
Defined.

(** C3 at a world with one call pending on the Connection and one on a
    live session: both are rejected, everything is emptied. *)
Lemma C3_witness :
  let w := world_two_pending in
  let w' := (Connection_onClose w).1 in
  reachable (imports := stock) w
  ∧ closed w = false
  ∧ Connection_onClose w' = (w', Normal tt)
  ∧ callbacks w' = []
  ∧ sessions w' = []
  ∧ table w' (OnSession 0%nat) = []
  ∧ drop (length (trace w)) (trace w')
    = [ Reject 0%nat
          (AProtocolError
             {| message := "Protocol error (Foo.bar): Target closed.";
                originalMessage := None |});
        Reject 1%nat
          (AProtocolError
             {| message := "Protocol error (Page.enable): Target closed.";
                originalMessage := None |});
        Emit (OnSession 0%nat) CDPSessionEmittedEvents_Disconnected NoArg;
        Emit OnConnection ConnectionEmittedEvents_Disconnected NoArg ].
Proof.
  cbv zeta.
  assert (reachable (imports := stock) world_two_pending) as Hreach.
  { apply (reachable_run (imports := stock)). constructor. }
  destruct (C3_onClose_settles_and_empties (imports := stock)
              world_two_pending Hreach) as (Hidem & _ & Hopen & _).
  destruct (Hopen eq_refl) as (_ & _ & _ & _ & _ & Hcb & Hsess & _).
  split_and!; [done | reflexivity | exact Hidem | exact Hcb | exact Hsess
              | reflexivity | reflexivity].
Defined.

(** C3 as stated fails in a world where session "S1" has sent a call
    and was then replaced by a second attach notification for "S1":
    closing the Connection empties the map and the Connection's table,
    and leaves the first session object with its call, which no effect
    has settled. *)
Lemma C3_counterexample :
  let attach := attachedToTarget None None "S1" "page" in
  let w := run (imports := stock) new_Connection
             [Transport_message attach;
              Call_session_send 0%nat "Page.enable" None;
              Transport_message attach] in
  let w' := (Connection_onClose w).1 in
  let call := {| cb_promise := 0%nat; cb_error := blank_ProtocolError;
                 cb_method := "Page.enable" |} in
  reachable (imports := stock) w
  ∧ closed w = false
  ∧ Connection_onClose w = (w', Normal tt)
  ∧ closed w' = true
  ∧ sessions w' = []
  ∧ callbacks w' = []
  ∧ table w' (OnSession 0%nat) = [(1, call)]
  ∧ table w' (OnSession 0%nat) ≠ []
  ∧ ¬ settled 0%nat (trace w').
Proof.
  cbv zeta. split_and!.
  - apply (reachable_run (imports := stock)). constructor.
  - vm_compute. reflexivity.
  - vm_compute. reflexivity.
  - vm_compute. reflexivity.
  - vm_compute. reflexivity.
  - vm_compute. reflexivity.
  - vm_compute. reflexivity.
  - intros H. vm_compute in H. discriminate.
  - intros Hin%settled_settlements%list_elem_of_In.
    vm_compute in Hin. exact Hin.
Defined.



(** The request with id 2 was sent on session "S1"; its result arrives. *)
Lemma C7_witness :
  let object := {| o_id := Some 2; o_sessionId := Some "S1"; o_method := None;
                   o_params := None; o_result := Some (JObj [("x", JNum 1)]);
                   o_error := None |} in
  let s := {| s_sessionId := Some "S1"; s_targetType := "page";
              s_callbacks :=
                [(2, {| cb_promise := 1%nat; cb_error := blank_ProtocolError;
                        cb_method := "Page.enable" |})];
              s_connection := Some this_connection |} in
  store world_two_pending !! 0%nat = Some s
  ∧ o_id object = Some 2
  ∧ CDPSession_onMessage (imports := stock) 0%nat object world_two_pending
    = (log [Resolve 1%nat (Some (JObj [("x", JNum 1)]))]
         (set_store
            [ {| s_sessionId := Some "S1"; s_targetType := "page";
                 s_callbacks := []; s_connection := Some this_connection |} ]
            world_two_pending),
       Normal tt).
Proof.
  cbv zeta. split; [reflexivity|]. split; [reflexivity|].
  pose proof (C7_session_router_on_an_id (imports := stock) 0%nat
                {| s_sessionId := Some "S1"; s_targetType := "page";
                   s_callbacks :=
                     [(2, {| cb_promise := 1%nat; cb_error := blank_ProtocolError;
                             cb_method := "Page.enable" |})];
                   s_connection := Some this_connection |}
                {| o_id := Some 2; o_sessionId := Some "S1"; o_method := None;
                   o_params := None; o_result := Some (JObj [("x", JNum 1)]);
                   o_error := None |}
                2 world_two_pending eq_refl eq_refl ltac:(lia)) as H.
  simpl in H. exact (proj1 H).
Defined.

(** C7 as stated fails on an envelope addressed to session "S1" whose
    id 7 matches no pending call: the Connection ignores such an
    envelope, the session's router hands [false] to [assert].  With a
    helper that throws, the router fails; whatever the helper does, the
    router does not return with the world unchanged. *)
Lemma C7_counterexample :
  let w := world_two_pending in
  let object := {| o_id := Some 7; o_sessionId := Some "S1"; o_method := None;
                   o_params := None; o_result := None; o_error := None |} in
  JsMap.get 7 (callbacks w) = None
  ∧ table w (OnSession 0%nat)
    = [(2, {| cb_promise := 1%nat; cb_error := blank_ProtocolError;
              cb_method := "Page.enable" |})]
  ∧ Connection_onMessage (imports := stock) (response 7 None None) w
    = (w, Normal tt)
  ∧ CDPSession_onMessage (imports := stock) 0%nat object w = (w, Throw (Error ""))
  ∧ Connection_onMessage (imports := stock) object w = (w, Throw (Error ""))
  ∧ ∀ imports : Imports,
      CDPSession_onMessage (imports := imports) 0%nat object w ≠ (w, Normal tt).
Proof.
  cbv zeta. split_and!; try reflexivity.
  intros imports H.
  rewrite (CDPSession_onMessage_unmatched (imports := imports) 0%nat
             {| s_sessionId := Some "S1"; s_targetType := "page";
                s_callbacks :=
                  [(2, {| cb_promise := 1%nat; cb_error := blank_ProtocolError;
                          cb_method := "Page.enable" |})];
                s_connection := Some this_connection |}
             {| o_id := Some 7; o_sessionId := Some "S1"; o_method := None;
                o_params := None; o_result := None; o_error := None |}
             7 world_two_pending eq_refl eq_refl ltac:(lia) eq_refl) in H.
  destruct (assert false); [discriminate|].
  apply (f_equal (λ r, length (trace r.1))) in H. vm_compute in H. discriminate.
Defined.

(** [createSession] is called, the attach notification for "S1" comes
    in, then the response to the command: the promise of the command is
    resolved and the rest of [createSession] returns the session.  When
    the response comes in before the notification, it throws. *)
Lemma C8_witness :
  let target := {| ti_targetId := "T1"; ti_type := "page" |} in
  let fields := [("sessionId", JStr "S1")] in
  let w1 := run (imports := stock) new_Connection
              [Call_createSession target;
               Transport_message (attachedToTarget None None "S1" "page")] in
  let w2 := (Connection_onMessage (imports := stock)
               (response 1 (Some (JObj fields)) None) w1).1 in
  let early := run (imports := stock) new_Connection [Call_createSession target] in
  field "sessionId" fields = Some (JStr "S1")
  ∧ JsMap.get 1 (callbacks w1)
    = Some {| cb_promise := 0%nat; cb_error := blank_ProtocolError;
              cb_method := "Target.attachToTarget" |}
  ∧ trace w2 = trace w1 ++ [Resolve 0%nat (Some (JObj fields))]
  ∧ Connection_createSession_resume (Normal (Some (JObj fields))) w2
    = (w2, Normal 0%nat)
  ∧ Connection_createSession_resume (Normal (Some (JObj fields))) early
    = (early, Throw (Error "CDPSession creation failed.")).
Proof.
  cbv zeta.
  destruct (C8_createSession_returns_the_registered_session (imports := stock)
              {| ti_targetId := "T1"; ti_type := "page" |} new_Connection)
    as (_ & Hresume & Hresponse).
  destruct (Hresponse 1
              {| cb_promise := 0%nat; cb_error := blank_ProtocolError;
                 cb_method := "Target.attachToTarget" |}
              [("sessionId", JStr "S1")] "S1"
              (run (imports := stock) new_Connection
                 [Call_createSession {| ti_targetId := "T1"; ti_type := "page" |};
                  Transport_message (attachedToTarget None None "S1" "page")]))
    as (Htrace & _ & Hreturn); [lia | reflexivity | reflexivity |].
  split_and!; [reflexivity | reflexivity | exact Htrace | exact Hreturn |].
  apply (Hresume [("sessionId", JStr "S1")] "S1"). reflexivity.
Defined.

(** Session "S1" has call 2 pending when a second attach notification
    for "S1" arrives; afterwards even closing the Connection does not
    settle that call. *)
Lemma C10_witness :
  let w := world_two_pending in
  let object := attachedToTarget None None "S1" "page" in
  let call2 := {| cb_promise := 1%nat; cb_error := blank_ProtocolError;
                  cb_method := "Page.enable" |} in
  let s := {| s_sessionId := Some "S1"; s_targetType := "page";
              s_callbacks := [(2, call2)];
              s_connection := Some this_connection |} in
  let w1 := (Connection_onMessage (imports := stock) object w).1 in
  let w2 := run (imports := stock) w1 [Call_dispose] in
  reachable (imports := stock) w
  ∧ Connection_session "S1" w = Some 0%nat
  ∧ store w !! 0%nat = Some s
  ∧ Connection_session "S1" w1 = Some 1%nat
  ∧ store w1 !! 0%nat = Some s
  ∧ closed w2 = true
  ∧ (∃ s2, store w2 !! 0%nat = Some s2 ∧ JsMap.get 2 (s_callbacks s2) = Some call2)
  ∧ ¬ settled 1%nat (trace w2).
Proof.
  cbv zeta.
  assert (reachable (imports := stock) world_two_pending) as Hreach.
  { apply (reachable_run (imports := stock)). constructor. }
  destruct (C10_replaced_session_keeps_its_calls_forever (imports := stock)
              world_two_pending
              (attachedToTarget None None "S1" "page")
              {| p_sessionId := Some "S1";
                 p_targetInfo := Some {| ti_targetId := "T1"; ti_type := "page" |};
                 p_rest := [] |}
              {| ti_targetId := "T1"; ti_type := "page" |} "S1" 0%nat
              {| s_sessionId := Some "S1"; s_targetType := "page";
                 s_callbacks :=
                   [(2, {| cb_promise := 1%nat; cb_error := blank_ProtocolError;
                           cb_method := "Page.enable" |})];
                 s_connection := Some this_connection |}
              Hreach)
    as (Hnew & _ & _ & Hkept & _ & Hforever); try reflexivity.
  destruct (Hforever [Call_dispose] 2
              {| cb_promise := 1%nat; cb_error := blank_ProtocolError;
                 cb_method := "Page.enable" |} eq_refl)
    as (_ & Hstill & Hnever).
  split_and!; [exact Hreach | reflexivity | reflexivity | exact Hnew
              | exact Hkept | reflexivity | exact Hstill | exact Hnever].
Defined.

(** ** Sessions, detaching and the fate of calls, at concrete inputs *)


(** A late answer for session "S1" after the session was detached. *)
Lemma unknown_session_witness :
  let object :=
    {| o_id := Some 1; o_sessionId := Some "S1"; o_method := None;
       o_params := None; o_result := Some JNull; o_error := None |} in
  Connection_session "S1" world_detached = None
  ∧ Connection_onMessage (imports := stock) object world_detached
    = (world_detached, Normal tt).
Proof.
  cbv zeta. split; [reflexivity|].
  apply (envelope_for_unknown_session_is_dropped (imports := stock) _ "S1");
    try reflexivity; discriminate.
Defined.

(** An attach notification without [params] that carries the id of
    the call pending on the Connection. *)
Lemma malformed_notification_witness :
  let object :=
    {| o_id := Some 1; o_sessionId := None;
       o_method := Some "Target.attachedToTarget"; o_params := None;
       o_result := None; o_error := None |} in
  malformed object
  ∧ JsMap.get 1 (callbacks world_two_pending)
    = Some {| cb_promise := 0%nat; cb_error := blank_ProtocolError;
              cb_method := "Foo.bar" |}
  ∧ Connection_onMessage (imports := stock) object world_two_pending
    = (world_two_pending, Throw TypeError).
Proof.
  cbv zeta.
  assert (malformed
            {| o_id := Some 1; o_sessionId := None;
               o_method := Some "Target.attachedToTarget"; o_params := None;
               o_result := None; o_error := None |}) as Hbad.
  { left. split; [reflexivity | by left]. }
  split_and!; [exact Hbad | reflexivity |].
  exact (malformed_notification_changes_nothing (imports := stock) _
           world_two_pending Hbad).
Defined.

(** The detach notification of session "S1", twice. *)
Lemma detach_notification_witness :
  let object := detachedFromTarget None None "S1" in
  let w := world_two_pending in
  let w1 := (Connection_onMessage (imports := stock) object w).1 in
  reachable (imports := stock) w
  ∧ Connection_session "S1" w = Some 0%nat
  ∧ Connection_session "S1" w1 = None
  ∧ Connection_onMessage (imports := stock) object w1
    = (log [protocol_event object] w1, Normal tt).
Proof.
  cbv zeta.
  assert (reachable (imports := stock) world_two_pending) as Hreach.
  { apply (reachable_run (imports := stock)). constructor. }
  destruct (detach_notification_is_idempotent (imports := stock)
              (detachedFromTarget None None "S1")
              {| p_sessionId := Some "S1"; p_targetInfo := None; p_rest := [] |}
              world_two_pending Hreach)
    as (Hgone & Hsecond); try reflexivity.
  split_and!; [exact Hreach | reflexivity | exact Hgone | exact Hsecond].
Defined.

(** Session "S1" was detached; a new session is attached under the
    same id; the old session object still refuses. *)
Lemma closed_session_witness :
  let s := {| s_sessionId := Some "S1"; s_targetType := "page";
              s_callbacks := []; s_connection := None |} in
  let w := world_detached in
  let w' := run (imports := stock) w
              [Transport_message (attachedToTarget None None "S1" "page")] in
  store w !! 0%nat = Some s
  ∧ Connection_session "S1" w' = Some 1%nat
  ∧ CDPSession_send (imports := stock) 0%nat "Page.enable" None w'
    = (w', Normal (Promise_reject
                     (Error "Protocol error (Page.enable): Session closed. Most likely the page has been closed.")))
  ∧ CDPSession_detach (imports := stock) 0%nat w'
    = (w', Throw (Error "Session already detached. Most likely the page has been closed.")).
Proof.
  cbv zeta.
  destruct (closed_session_stays_closed (imports := stock) 0%nat
              {| s_sessionId := Some "S1"; s_targetType := "page";
                 s_callbacks := []; s_connection := None |}
              world_detached
              [Transport_message (attachedToTarget None None "S1" "page")]
              "Page.enable" None eq_refl eq_refl)
    as (Hsend & Hdetach & _).
  split_and!; [reflexivity | reflexivity | exact Hsend | exact Hdetach].
Defined.


(** Call 2 of session "S1" waits for the request sent under id 2. *)
Lemma pending_call_witness :
  let call2 := {| cb_promise := 1%nat; cb_error := blank_ProtocolError;
                  cb_method := "Page.enable" |} in
  let w := run (imports := stock) new_Connection two_pending in
  pending w (OnSession 0%nat) 2 call2
  ∧ ∃ msg, request_of w (OnSession 0%nat) 2 call2 msg
           ∧ rm_method msg = "Page.enable"
           ∧ rm_sessionId msg = Some "S1".
Proof.
  cbv zeta.
  assert (pending (run (imports := stock) new_Connection two_pending)
            (OnSession 0%nat) 2
            {| cb_promise := 1%nat; cb_error := blank_ProtocolError;
               cb_method := "Page.enable" |}) as Hpend.
  { apply list_elem_of_In. vm_compute. auto. }
  split; [exact Hpend|].
  pose proof (pending_call_waits_for_its_request (imports := stock) two_pending
                (OnSession 0%nat) 2
                {| cb_promise := 1%nat; cb_error := blank_ProtocolError;
                   cb_method := "Page.enable" |}) as Hthm.
  cbv zeta in Hthm. destruct (Hthm Hpend) as (msg & Hmsg & _).
  exists msg. split; [exact Hmsg|].
  destruct Hmsg as (_ & Hm & Hs). split; [exact Hm|].
  rewrite Hs. vm_compute. reflexivity.
Defined.

(** The session attached under "S1" is live. *)
Lemma registered_session_witness :
  let w := run (imports := stock) new_Connection
             [Transport_message (attachedToTarget None None "S1" "page")] in
  let w' := (CDPSession_send (imports := stock) 0%nat "Page.enable" None w).1 in
  Connection_session "S1" w = Some 0%nat
  ∧ CDPSession_id 0%nat w = (w, Normal (Some "S1"))
  ∧ CDPSession_connection 0%nat w = (w, Normal (Some this_connection))
  ∧ CDPSession_send (imports := stock) 0%nat "Page.enable" None w
    = (w', Normal (Pending 0%nat))
  ∧ trace w'
    = trace w
      ++ [TransportSend {| rm_sessionId := Some "S1"; rm_method := "Page.enable";
                           rm_params := None |} 1].
Proof.
  cbv zeta.
  destruct (registered_session_is_live (imports := stock)
              [Transport_message (attachedToTarget None None "S1" "page")]
              "S1" 0%nat eq_refl) as (Hid & Hconn & _ & Hsend).
  destruct (Hsend "Page.enable" None) as (Hs1 & Hs2 & _).
  split_and!; [reflexivity | exact Hid | exact Hconn | exact Hs1 | exact Hs2].
Defined.

(** The promise of the first call of [two_pending] waits in the
    Connection's table and nowhere else. *)
Lemma no_call_is_lost_witness :
  let w := run (imports := stock) new_Connection two_pending in
  Forall printable_action two_pending
  ∧ (0 < promises w)%nat
  ∧ ((settled 0%nat (trace w)
      ∧ ∀ owner id cb, pending w owner id cb → cb_promise cb ≠ 0%nat)
     ∨ (¬ settled 0%nat (trace w)
        ∧ ∃ owner id cb,
            pending w owner id cb ∧ cb_promise cb = 0%nat
            ∧ ∀ owner' id' cb',
                pending w owner' id' cb' → cb_promise cb' = 0%nat →
                owner' = owner ∧ id' = id ∧ cb' = cb)).
Proof.
  cbv zeta.
  assert (0 < promises (run (imports := stock) new_Connection two_pending))%nat
    as Hlt.
  { vm_compute. lia. }
  assert (Forall printable_action two_pending) as Hok.
  { repeat constructor. by intros object_error data [=]. }
  split; [exact Hok|]. split; [exact Hlt|].
  pose proof (no_call_is_lost (imports := stock) two_pending 0%nat Hok) as Hthm.
  cbv zeta in Hthm. exact (Hthm Hlt).
Defined.

(** The event "Page.loadEventFired" for session "S1", for an unknown
    session, and for the Connection. *)
Lemma event_witness :
  let event := λ sessionId,
    {| o_id := None; o_sessionId := sessionId;
       o_method := Some "Page.loadEventFired"; o_params := None;
       o_result := None; o_error := None |} in
  let w := world_two_pending in
  reachable (imports := stock) w
  ∧ Connection_onMessage (imports := stock) (event (Some "S1")) w
    = (log [Emit (OnSession 0%nat) (EventNamed (Some "Page.loadEventFired"))
              (ArgParams None)] w,
       Normal tt)
  ∧ Connection_onMessage (imports := stock) (event (Some "S2")) w
    = (w, Normal tt)
  ∧ Connection_onMessage (imports := stock) (event None) w
    = (log [Emit OnConnection (EventNamed (Some "Page.loadEventFired"))
              (ArgParams None)] w,
       Normal tt).
Proof.
  cbv zeta.
  assert (reachable (imports := stock) world_two_pending) as Hreach.
  { apply (reachable_run (imports := stock)). constructor. }
  pose proof (λ sessionId,
    event_goes_to_one_emitter (imports := stock)
      {| o_id := None; o_sessionId := sessionId;
         o_method := Some "Page.loadEventFired"; o_params := None;
         o_result := None; o_error := None |}
      world_two_pending Hreach eq_refl
      ltac:(discriminate) ltac:(discriminate) eq_refl) as Hevent.
  split_and!; [exact Hreach | ..]; rewrite Hevent; vm_compute; reflexivity.
Defined.

(** ** The cache of clients, at a concrete input *)

(** An S3 client is fetched; the key id is changed and a second S3
    client and an STS client are made; the key id is changed back: the
    first client is handed out again, and nothing is constructed. *)
Lemma getServiceClient_witness :
  let p := new_Process [("AWS_ACCESS_KEY_ID", "A"); ("AWS_SECRET_ACCESS_KEY", "B")] in
  let p1 := (getServiceClient (lambda_imports := outside_lambda)
               "eu-central-1" s3 p).1 in
  let p2 := lambda_run (lambda_imports := outside_lambda) p1
              [ Assign_env "AWS_ACCESS_KEY_ID" "C";
                Call_getServiceClient "eu-central-1" s3;
                Call_getAccountId "us-east-1";
                Assign_env "AWS_ACCESS_KEY_ID" "A" ] in
  getServiceClient (lambda_imports := outside_lambda) "eu-central-1" s3 p
  = (p1, Normal (Some 0%nat))
  ∧ getCredentials (lambda_imports := outside_lambda) p2
    = getCredentials (lambda_imports := outside_lambda) p
  ∧ length (constructed p2) = 3%nat
  ∧ getServiceClient (lambda_imports := outside_lambda) "eu-central-1" s3 p2
    = (p2, Normal (Some 0%nat)).
Proof.
  cbv zeta. split_and!; [reflexivity | reflexivity | reflexivity |].
  apply (getServiceClient_is_memoized (lambda_imports := outside_lambda)
           "eu-central-1" s3
           (new_Process
              [("AWS_ACCESS_KEY_ID", "A"); ("AWS_SECRET_ACCESS_KEY", "B")]));
    reflexivity.
Defined.

(** The same pair, once in the REMOTION_AWS variables (with a session
    token around, which is not taken along) and once in the AWS
    variables: one key, the same credentials. *)
Lemma getCredentialsKey_witness :
  let p := new_Process
             [ ("REMOTION_AWS_ACCESS_KEY_ID", "A");
               ("REMOTION_AWS_SECRET_ACCESS_KEY", "B");
               ("AWS_SESSION_TOKEN", "T") ] in
  let p' := new_Process
              [("AWS_ACCESS_KEY_ID", "A"); ("AWS_SECRET_ACCESS_KEY", "B")] in
  ToPropertyKey (getCredentialsKey (lambda_imports := outside_lambda) p)
  = ToPropertyKey (getCredentialsKey (lambda_imports := outside_lambda) p')
  ∧ getCredentials (lambda_imports := outside_lambda) p
    = getCredentials (lambda_imports := outside_lambda) p'.
Proof.
  cbv zeta.
  assert (ToPropertyKey
            (getCredentialsKey (lambda_imports := outside_lambda)
               (new_Process
                  [ ("REMOTION_AWS_ACCESS_KEY_ID", "A");
                    ("REMOTION_AWS_SECRET_ACCESS_KEY", "B");
                    ("AWS_SESSION_TOKEN", "T") ]))
          = ToPropertyKey
              (getCredentialsKey (lambda_imports := outside_lambda)
                 (new_Process
                    [("AWS_ACCESS_KEY_ID", "A"); ("AWS_SECRET_ACCESS_KEY", "B")])))
    as Hkey by reflexivity.
  split; [exact Hkey|].
  exact (getCredentialsKey_tells_credentials_apart
           (lambda_imports := outside_lambda) _ _ Hkey).
Defined.

(** ** The attribution of rejections, at a concrete input *)

(** After [two_pending] the Connection is disposed of: the promise of
    the second request, "Page.enable" of session "S1", is rejected. *)
Lemma rejection_witness :
  let w := run (imports := stock) new_Connection (two_pending ++ [Call_dispose]) in
  let err := AProtocolError
               {| message := "Protocol error (Page.enable): Target closed.";
                  originalMessage := None |} in
  Reject 1%nat err ∈ trace w
  ∧ ∃ msg e text,
      TransportSend msg (Z.of_nat 1 + 1) ∈ trace w
      ∧ err = AProtocolError e
      ∧ message e = "Protocol error (" +:+ rm_method msg +:+ "): " +:+ text.
Proof.
  cbv zeta.
  assert (Reject 1%nat
            (AProtocolError
               {| message := "Protocol error (Page.enable): Target closed.";
                  originalMessage := None |})
          ∈ trace (run (imports := stock) new_Connection
                     (two_pending ++ [Call_dispose]))) as Hin.
  { apply list_elem_of_In. vm_compute. auto 10. }
  split; [exact Hin|].
  pose proof (rejection_names_the_method_of_its_request (imports := stock)
                (two_pending ++ [Call_dispose]) 1%nat
                (AProtocolError
                   {| message := "Protocol error (Page.enable): Target closed.";
                      originalMessage := None |})) as Hthm.
  cbv zeta in Hthm. exact (Hthm Hin).
Defined.

(** ** A call lost to an error that cannot be rendered *)


(** ** The string conversion at concrete values *)

Example ToString_array :
  ToString (JArr [JNum 1; JNull; JArr [JNum (-2); JStr "a"]; JBool true;
                  JObj [("valueOf", JNum 3)]])
  = Normal "1,,-2,a,true,[object Object]".
Proof. vm_compute. reflexivity. Qed.

Example ToString_own_toString :
  ToString (JArr [JNum 1; JObj [("toString", JStr "x")]]) = Throw TypeError.
Proof. vm_compute. reflexivity. Qed.

Example Number_toString_examples :
  map Number_toString
    [0; 42; -7; 2 ^ 53 + 1; 2 ^ 60; 10 ^ 21 - 1; 10 ^ 21; 2 ^ 70;
     123456789012345678901234567890]
  = ["0"; "42"; "-7"; "9007199254740992"; "1152921504606847000";
     "1e+21"; "1e+21"; "1.1805916207174113e+21"; "1.2345678901234568e+29"].
Proof. vm_compute. reflexivity. Qed.
